(** * Multichannel imager: percentile normalisation and RGB compositing

    A shallow embedding of [app.py]: the two numeric transforms
    [normalize_channels_with_percentiles] and [multichannel_to_rgb_stack],
    the colour parser [hex_to_rgb_floats], the shape check of the script and
    the 8-bit conversion and file naming of the export section.

    The program is described at two levels.  Its structure (indexing,
    views, loops, allocation, in-place slice assignment, exceptions) is
    described over exact rationals ([Q]), without rounding: numpy arrays
    are handles (views) onto blocks of a store.  The floating-point
    evaluation of the normalisation (lines 16-19), where rounding, overflow
    and NaN arise, is described over IEEE 754 binary floats. *)

From Stdlib Require Import QArith Qminmax Qround Qabs Qpower Qreduction.
From Stdlib Require Import Lqa String Ascii.
From Stdlib Require Import DecimalString DecimalNat.
From stdpp Require Import base option list sorting gmap.

(** ** Exceptions and results *)

Inductive stop_message :=
  | OnlyLeadingOne                     (* "Only 4D or 1xZxCxXxY TIFFs are supported." *)
  | UnsupportedTiffShape (s : list nat). (* f"Unsupported TIFF shape: {img.shape}" *)

Inductive exn :=
  | IndexError
  | ValueError
  | UnsupportedShape (m : stop_message).

Inductive result (A : Type) :=
  | Ok (a : A)
  | Raise (e : exn).
Arguments Ok {A} a.
Arguments Raise {A} e.

Global Instance result_ret : MRet result := λ A a, Ok a.
Global Instance result_bind : MBind result := λ A B f r,
  match r with
  | Ok a => f a
  | Raise e => Raise e
  end.

(** ** Scalars *)

Definition Qltb (x y : Q) : bool :=
  match (x ?= y)%Q with
  | Lt => true
  | _ => false
  end.

(** [np.clip(x, lo, hi)] on one sample. *)
Definition np_clip (x lo hi : Q) : Q :=
  if Qltb x lo then lo else if Qltb hi x then hi else x.

(** ** numpy.percentile, default method (linear interpolation)

    Model of the library function as numpy documents it: the samples are
    sorted, the virtual index of the [q]-th percentile among [n] samples is
    [q/100 * (n-1)], and the result interpolates linearly between the two
    neighbouring order statistics.  A percentile outside [0,100] raises
    [ValueError].  On an empty sample numpy 2 raises [IndexError] when it
    indexes the sorted samples (earlier versions returned NaN with a
    warning).  The interpolation is exact here; numpy evaluates it in
    floating point, so its result is the nearest float or a neighbour of
    it. *)

Fixpoint insert_sorted (x : Q) (l : list Q) : list Q :=
  match l with
  | [] => [x]
  | y :: l' => if Qle_bool x y then x :: l else y :: insert_sorted x l'
  end.

Definition np_sort (l : list Q) : list Q := foldr insert_sorted [] l.

(** The virtual index of the [q]-th percentile among [n] samples. *)
Definition virtual_index (n : nat) (q : Q) : Q :=
  (q / 100 * inject_Z (Z.of_nat n - 1))%Q.

(** Linear interpolation in the sorted samples [s] at a virtual index. *)
Definition interpolate (s : list Q) (d : Q) (virt : Q) : Q :=
  let j := Qfloor virt in
  let gamma := (virt - inject_Z j)%Q in
  let lo := nth (Z.to_nat j) s d in
  let hi := nth (Nat.min (Z.to_nat j + 1) (length s - 1)) s d in
  (lo + (hi - lo) * gamma)%Q.

Definition np_percentile (a : list Q) (q : Q) : result Q :=
  if negb (Qle_bool 0 q && Qle_bool q 100) then Raise ValueError
  else
    match np_sort a with
    | [] => Raise IndexError
    | (s0 :: _) as s => Ok (interpolate s s0 (virtual_index (length s) q))
    end.

(** ** The store: blocks of samples and array handles *)

Abbreviation loc := nat (only parsing).

(** A block of samples, addressed by multi-index. *)
Abbreviation buffer := (list nat → Q) (only parsing).

Definition zero_block : buffer := λ _, 0%Q.

(** An [ndarray] object: a shape and an index map into a block.  Basic
    indexing ([a[i]], [a[:, c]]) builds a new handle on the same block. *)
Record ndarray := mk_ndarray {
  base : loc;
  shape : list nat;
  imap : list nat → list nat
}.

Definition ndim (a : ndarray) : nat := length (shape a).

Definition deref (h : gmap loc buffer) (l : loc) : buffer :=
  default zero_block (h !! l).

(** [a[idx]] read in store [h]. *)
Definition load (h : gmap loc buffer) (a : ndarray) (idx : list nat) : Q :=
  deref h (base a) (imap a idx).

(** All multi-indices of a shape, in C (row-major) order. *)
Fixpoint indices (shp : list nat) : list (list nat) :=
  match shp with
  | [] => [[]]
  | n :: shp' => i ← seq 0 n; (i ::.) <$> indices shp'
  end.

(** The samples of an array, flattened. *)
Definition ravel (h : gmap loc buffer) (a : ndarray) : list Q :=
  load h a <$> indices (shape a).

Definition upd (b : buffer) (j : list nat) (x : Q) : buffer :=
  λ k, if decide (k = j) then x else b k.

(** Element-wise write of [src] through the handle [dst]. *)
Definition fill (b : buffer) (dst : ndarray) (src : list nat → Q) : buffer :=
  fold_left (λ b idx, upd b (imap dst idx) (src idx)) (indices (shape dst)) b.

(** Integer indexing on axis 0: [a[i]]. *)
Definition index0 (a : ndarray) (i : nat) : result ndarray :=
  match shape a with
  | n :: rest =>
      if i <? n then
        Ok {| base := base a; shape := rest; imap := λ idx, imap a (i :: idx) |}
      else Raise IndexError
  | [] => Raise IndexError
  end.

(** [a[:, c]] (the same view as [a[:, c, :, :]] on a 4-D array). *)
Definition slice_axis1 (a : ndarray) (c : nat) : result ndarray :=
  match shape a with
  | n :: m :: rest =>
      if c <? m then
        Ok {| base := base a; shape := n :: rest;
              imap := λ idx, match idx with
                             | z :: r => imap a (z :: c :: r)
                             | [] => imap a []
                             end |}
      else Raise IndexError
  | _ => Raise IndexError
  end.

(** [a[z, :, :, k]] on a 4-D array. *)
Definition plane (a : ndarray) (z k : nat) : result ndarray :=
  match shape a with
  | [n; x; y; m] =>
      if (z <? n) && (k <? m) then
        Ok {| base := base a; shape := [x; y];
              imap := λ idx, imap a (z :: idx ++ [k]) |}
      else Raise IndexError
  | _ => Raise IndexError
  end.

(** ** Computations on the store *)

Definition M (A : Type) : Type := gmap loc buffer → gmap loc buffer * result A.

Global Instance M_ret : MRet M := λ A a h, (h, Ok a).
Global Instance M_bind : MBind M := λ A B f m h,
  match m h with
  | (h', Ok a) => f a h'
  | (h', Raise e) => (h', Raise e)
  end.

Definition lift {A} (r : result A) : M A := λ h, (h, r).

(** [np.zeros(shp)]: a fresh block. *)
Definition np_zeros (shp : list nat) : M ndarray := λ h,
  let l := fresh (dom h) in
  (<[l := zero_block]> h, Ok {| base := l; shape := shp; imap := id |}).

Definition np_zeros_like (a : ndarray) : M ndarray := np_zeros (shape a).

(** The current samples of an array, as a temporary. *)
Definition read (a : ndarray) : M (list nat → Q) := λ h, (h, Ok (load h a)).

(** [dst[...] = src]. *)
Definition store (dst : ndarray) (src : list nat → Q) : M () := λ h,
  (<[base dst := fill (deref h (base dst)) dst src]> h, Ok ()).

Definition percentile_of (a : ndarray) (q : Q) : M Q := λ h,
  (h, np_percentile (ravel h a) q).

Fixpoint for_each {A} (l : list A) (body : A → M ()) : M () :=
  match l with
  | [] => mret ()
  | x :: l' => body x ;; for_each l' body
  end.

Definition range (n : nat) : list nat := seq 0 n.

Definition enumerate {A} (l : list A) : list (nat * A) :=
  zip (seq 0 (length l)) l.

(** Python list indexing with a non-negative index. *)
Definition getitem {A} (l : list A) (i : nat) : result A :=
  match l !! i with
  | Some x => Ok x
  | None => Raise IndexError
  end.

(** [Z, C, X, Y = volume.shape] *)
Definition unpack4 (shp : list nat) : result (nat * nat * nat * nat) :=
  match shp with
  | [z; c; x; y] => Ok (z, c, x, y)
  | _ => Raise ValueError
  end.

(** ** The transforms of app.py

    Over exact rationals.  The floating-point evaluation of lines 16-19,
    with its rounding, overflow and NaN, is [normalize_samples] below. *)

(** The body of the loop [for c in range(C)] (lines 12-19). *)
Definition normalize_channel (volume norm_volume : ndarray)
    (percentiles : list (Q * Q)) (c : nat) : M () :=
  ch ← lift (slice_axis1 volume c);
  '(lower_p, upper_p) ← lift (getitem percentiles c);
  vmin ← percentile_of ch lower_p;
  vmax ← percentile_of ch upper_p;
  if Qltb vmin vmax then
    t ← read ch;
    dst ← lift (slice_axis1 norm_volume c);
    store dst (λ i, np_clip ((t i - vmin) / (vmax - vmin)) 0 1)
  else
    dst ← lift (slice_axis1 norm_volume c);
    store dst (λ _, 0%Q).

Definition normalize_channels_with_percentiles
    (volume : ndarray) (percentiles : list (Q * Q)) : M ndarray :=
  '(Z, C, X, Y) ← lift (unpack4 (shape volume));
  norm_volume ← np_zeros_like volume;
  for_each (range C) (normalize_channel volume norm_volume percentiles) ;;
  mret norm_volume.

(** [rgb_stack[z, :, :, k] += gray * w] *)
Definition iadd_scaled (rgb_stack : ndarray) (z k : nat)
    (gray : ndarray) (w : Q) : M () :=
  g ← read gray;
  dst ← lift (plane rgb_stack z k);
  d ← read dst;
  store dst (λ i, d i + g i * w)%Q.

(** The body of the loop over [enumerate(channel_colors)] (lines 32-36). *)
Definition add_channel (volume rgb_stack : ndarray) (visibility : list bool)
    (z : nat) (item : nat * (Q * Q * Q)) : M () :=
  let '(c, (r, g, b)) := item in
  vis ← lift (getitem visibility c);
  if vis : bool then
    gray ← lift (vz ← index0 volume z; index0 vz c);
    iadd_scaled rgb_stack z 0 gray r ;;
    iadd_scaled rgb_stack z 1 gray g ;;
    iadd_scaled rgb_stack z 2 gray b
  else mret ().

(** The body of the loop [for z in range(Z)] (lines 31-37). *)
Definition render_slice (volume rgb_stack : ndarray)
    (channel_colors : list (Q * Q * Q)) (visibility : list bool)
    (z : nat) : M () :=
  for_each (enumerate channel_colors) (add_channel volume rgb_stack visibility z) ;;
  sl ← lift (index0 rgb_stack z);
  t ← read sl;
  store sl (λ i, np_clip (t i) 0 1).

Definition multichannel_to_rgb_stack
    (volume : ndarray) (channel_colors : list (Q * Q * Q))
    (visibility : list bool) : M ndarray :=
  '(Z, C, X, Y) ← lift (unpack4 (shape volume));
  rgb_stack ← np_zeros [Z; X; Y; 3];
  for_each (range Z) (render_slice volume rgb_stack channel_colors visibility) ;;
  mret rgb_stack.

(** [tuple(int(hex_color[i:i+2], 16)/255.0 for i in (1, 3, 5))]

    [int_base16] covers strings made of hexadecimal digits only.  [None]
    stands for every other string: Python raises [ValueError] on most of
    them and still parses a few (a sign, surrounding blanks), which this
    development does not describe. *)

Definition hex_digit (c : ascii) : option Z :=
  let n := nat_of_ascii c in
  if (48 <=? n) && (n <=? 57) then Some (Z.of_nat (n - 48))
  else if (65 <=? n) && (n <=? 70) then Some (Z.of_nat (n - 55))
  else if (97 <=? n) && (n <=? 102) then Some (Z.of_nat (n - 87))
  else None.

Fixpoint int_base16_from (acc : Z) (s : string) : option Z :=
  match s with
  | EmptyString => Some acc
  | String c s' => d ← hex_digit c; int_base16_from (16 * acc + d) s'
  end.

Definition int_base16 (s : string) : option Z :=
  match s with
  | EmptyString => None
  | _ => int_base16_from 0 s
  end.

(** [s[i:i+2]] *)
Definition slice2 (s : string) (i : nat) : string := substring i 2 s.

Definition hex_to_rgb_floats (hex_color : string) : option (Q * Q * Q) :=
  r ← int_base16 (slice2 hex_color 1);
  g ← int_base16 (slice2 hex_color 3);
  b ← int_base16 (slice2 hex_color 5);
  Some (inject_Z r / 255, inject_Z g / 255, inject_Z b / 255)%Q.

(** ** The script: shape check and pipeline (lines 46-102)

    The lists the controls of the page produce (percentiles, colours,
    visibility) are parameters of the pipeline.  [st.error] followed by
    [st.stop()] is the outcome [UnsupportedShape]; an exception of a
    transform, which the script's handler reports, is the outcome of the
    run. *)

Definition resolve_shape (img : ndarray) : result ndarray :=
  img ← (if ndim img =? 5 then
           match shape img with
           | n :: _ =>
               if n =? 1 then index0 img 0
               else Raise (UnsupportedShape OnlyLeadingOne)
           | [] => Raise IndexError
           end
         else Ok img);
  if negb (ndim img =? 4) then
    Raise (UnsupportedShape (UnsupportedTiffShape (shape img)))
  else Ok img.

Definition run_pipeline (img : ndarray) (percentiles : list (Q * Q))
    (channel_colors : list (Q * Q * Q)) (visibility : list bool) : M ndarray :=
  img ← lift (resolve_shape img);
  norm_img ← normalize_channels_with_percentiles img percentiles;
  multichannel_to_rgb_stack norm_img channel_colors visibility.

(** [a[None]]: the same block seen with a leading axis of size 1. *)
Definition expand_dims0 (a : ndarray) : ndarray :=
  {| base := base a; shape := 1 :: shape a; imap := λ idx, imap a (tail idx) |}.

(** ** Export: 8-bit conversion and file names (lines 107-119) *)

(** [astype(np.uint8)] on one sample: the fraction is dropped (truncation
    toward zero).  numpy leaves the result unspecified when the truncated
    value does not fit 8 bits; that case is [None]. *)
Definition astype_uint8 (x : Q) : option Z :=
  let t := Z.quot (Qnum x) (Z.pos (Qden x)) in
  if (0 <=? t)%Z && (t <=? 255)%Z then Some t else None.

(** [(rgb_stack[z] * 255).astype(np.uint8)] on one sample. *)
Definition to_display (v : Q) : option Z := astype_uint8 (v * 255).

Definition str_of_nat (n : nat) : string :=
  DecimalString.NilZero.string_of_uint (Nat.to_uint n).

Fixpoint zeros (n : nat) : string :=
  match n with
  | O => EmptyString
  | S n' => String "0" (zeros n')
  end.

(** [f"{z:03d}"] for a non-negative [z]. *)
Definition format_03d (z : nat) : string :=
  let s := str_of_nat z in
  (zeros (3 - String.length s) ++ s)%string.

(** [f"z_{z:03d}.png"] *)
Definition file_name (z : nat) : string :=
  ("z_" ++ format_03d z ++ ".png")%string.

(** The number a string of decimal digits denotes. *)
Definition read_decimal (s : string) : option nat :=
  Nat.of_uint <$> DecimalString.NilEmpty.uint_of_string s.

(** ** Notions of the specification *)

Definition component (col : Q * Q * Q) (k : nat) : Q :=
  match col, k with
  | (r, _, _), 0 => r
  | (_, g, _), 1 => g
  | (_, _, b), _ => b
  end.

Definition is_visible (visibility : list bool) (c : nat) : bool :=
  default false (visibility !! c).

(** The sum over the visible channels [c < C] of [vol c * color[c][k]]. *)
Definition visible_sum (C : nat) (vol : nat → Q) (colors : list (Q * Q * Q))
    (visibility : list bool) (k : nat) : Q :=
  foldr Qplus 0%Q
    ((λ c, vol c * component (default (0, 0, 0) (colors !! c)) k)%Q
       <$> filter (λ c, is_visible visibility c = true) (seq 0 C)).

(** The value accumulated in plane [k] of one pixel by the loop over
    [enumerate(channel_colors)], before the clamp. *)
Definition blend_step (vol : nat → Q) (visibility : list bool) (k : nat)
    (acc : Q) (item : nat * (Q * Q * Q)) : Q :=
  if is_visible visibility item.1
  then (acc + vol item.1 * component item.2 k)%Q
  else acc.

Definition blend (vol : nat → Q) (colors : list (Q * Q * Q))
    (visibility : list bool) (k : nat) : Q :=
  fold_left (blend_step vol visibility k) (enumerate colors) 0%Q.

(** The nearest integer, halves upward. *)
Definition round_nearest (x : Q) : Z := Qfloor (x + (1 # 2)).

(** [round(value * 255)] clamped to [0,255]. *)
Definition round_clamp_255 (v : Q) : Z :=
  Z.min 255 (Z.max 0 (round_nearest (v * 255))).

Definition in_unit (x : Q) : Prop := (0 <= x)%Q ∧ (x <= 1)%Q.

Definition valid_percent (q : Q) : Prop := (0 <= q)%Q ∧ (q <= 100)%Q.

(** A computation that writes no block other than [L] and frees none. *)
Definition touches_only {A} (L : loc) (m : M A) : Prop :=
  ∀ h l, (l ≠ L → (m h).1 !! l = h !! l) ∧
         (is_Some (h !! l) → is_Some ((m h).1 !! l)).

(** ** Comparing two runs *)

Definition result_rel {A} (P : A → A → Prop) (r1 r2 : result A) : Prop :=
  match r1, r2 with
  | Ok a1, Ok a2 => P a1 a2
  | Raise e1, Raise e2 => e1 = e2
  | _, _ => False
  end.

(** Two runs end alike: both raise the same exception, or both return,
    in stores related by [R], values related by [P]. *)
Definition outcome_rel {A} (R : gmap loc buffer → gmap loc buffer → Prop)
    (P : A → A → Prop) (p1 p2 : gmap loc buffer * result A) : Prop :=
  result_rel (λ a1 a2, R p1.1 p2.1 ∧ P a1 a2) p1.2 p2.2.

(** The stores [h1'], [h2'] are [h1], [h2] with blocks [l1], [l2] holding
    the same samples. *)
Definition twin_blocks (h1 h2 : gmap loc buffer) (l1 l2 : loc)
    (h1' h2' : gmap loc buffer) : Prop :=
  ∃ b1 b2, h1' = <[l1 := b1]> h1 ∧ h2' = <[l2 := b2]> h2 ∧ ∀ k, b1 k = b2 k.

(** Two arrays with the same shape and, within it, the same samples. *)
Definition same_samples (h1 h2 : gmap loc buffer) (a1 a2 : ndarray) : Prop :=
  shape a1 = shape a2 ∧
  ∀ idx, idx ∈ indices (shape a1) → load h1 a1 idx = load h2 a2 idx.

(** Two runs of a transform end alike: the same exception, or two live
    arrays with the same shape and samples. *)
Definition runs_agree (p1 p2 : gmap loc buffer * result ndarray) : Prop :=
  result_rel
    (λ o1 o2, is_Some (p1.1 !! base o1) ∧ is_Some (p2.1 !! base o2) ∧
              same_samples p1.1 p2.1 o1 o2)
    p1.2 p2.2.

(** ** Sample data

    A volume with Z = 2, C = 2, X = 2, Y = 1: channel 0 holds 0, 10, 20, 30
    and channel 1 is constant 5.  A normalised volume with Z = 1, C = 2,
    X = 1, Y = 1 whose two channels are 7/10.  *)

Definition demo_block : list nat → Q := λ idx,
  match idx with
  | [z; 0; x; _] => inject_Z (Z.of_nat (10 * (2 * z + x)))
  | [_; 1; _; _] => 5%Q
  | _ => 0%Q
  end.

Definition demo_volume : ndarray :=
  {| base := 0; shape := [2; 2; 2; 1]; imap := id |}.

Definition demo_norm_block : list nat → Q := λ _, (7 # 10)%Q.

Definition demo_norm : ndarray :=
  {| base := 1; shape := [1; 2; 1; 1]; imap := id |}.

Definition demo_store : gmap loc buffer :=
  <[1 := demo_norm_block]> {[ 0 := demo_block ]}.

Definition demo_percentiles : list (Q * Q) := [(0, 100); (1, 99)]%Q.

Definition demo_red : list (Q * Q * Q) := [(1, 0, 0); (1, 0, 0)]%Q.

(** ** The page: the lists built from the controls (lines 72-95)

    The widgets of the page are the environment of the script: what
    [st.checkbox], [st.color_picker] and [st.slider] return for channel [c]
    is a parameter.  Layout calls are not described. *)

Definition default_colors : list string :=
  ["#FF0000"; "#00FF00"; "#0000FF"; "#FFFF00"; "#FF00FF"; "#00FFFF";
   "#FFA500"; "#8000FF"; "#888888"]%string.

(** [default_colors[c % len(default_colors)]] *)
Definition default_color (c : nat) : result string :=
  getitem default_colors (c mod length default_colors).

(** The loop of lines 77-85: both lists grow by one entry per channel. *)
Definition collect_choices (checkbox : nat → bool) (color_picker : nat → string)
    (C : nat) : list bool * list string :=
  foldl (λ '(channel_visibility, color_hex) c,
           (channel_visibility ++ [checkbox c], color_hex ++ [color_picker c]))
        ([], []) (range C).

(** [[hex_to_rgb_floats(h) for h in color_hex]] *)
Definition parse_colors (color_hex : list string) : option (list (Q * Q * Q)) :=
  mapM hex_to_rgb_floats color_hex.

(** The loop of lines 93-95. *)
Definition collect_percentiles (slider : nat → Q * Q) (C : nat) : list (Q * Q) :=
  foldl (λ percentiles c, percentiles ++ [slider c]) [] (range C).

(** Lines 62-102 on the image the shape check returned, [C] being its
    channel count: the lists are built and the two transforms run. *)
Definition page_transforms (img : ndarray) (C : nat)
    (checkbox : nat → bool) (color_picker : nat → string)
    (slider : nat → Q * Q) : option (M ndarray) :=
  let '(channel_visibility, color_hex) :=
    collect_choices checkbox color_picker C in
  channel_colors ← parse_colors color_hex;
  let percentiles := collect_percentiles slider C in
  Some (norm_img ← normalize_channels_with_percentiles img percentiles;
        multichannel_to_rgb_stack norm_img channel_colors channel_visibility).

(** The labels and keys of the widgets (lines 80, 84, 94). *)
Definition checkbox_label (c : nat) : string :=
  ("Show Channel " ++ str_of_nat (c + 1))%string.

Definition checkbox_key (c : nat) : string :=
  ("toggle_" ++ str_of_nat c)%string.

Definition color_picker_label (c : nat) : string :=
  ("Ch " ++ str_of_nat (c + 1))%string.

Definition slider_label (c : nat) : string :=
  ("Channel " ++ str_of_nat (c + 1) ++ " percentile range")%string.

(** ** The page: the Z slider and the download buttons (lines 106-120) *)

Definition download_label (z : nat) : string :=
  ("Download Z=" ++ str_of_nat z)%string.

(** The arguments of the [st.download_button] calls of the loop
    [for z in range(Z)] once it is reached, the image bytes left out:
    label, file name, MIME type. *)
Definition download_buttons (Z : nat) : list (string * string * string) :=
  (λ z, (download_label z, file_name z, "image/png"%string)) <$> range Z.

(** [st.slider("Z-slice index", 0, Z-1, 0)] (line 106).  Streamlit refuses
    a slider whose minimum is not below its maximum: with fewer than two
    slices the call raises, the handler of line 122 reports it, and nothing
    after line 106 runs.  [None] is that outcome; otherwise the call
    returns the position [choice] of the slider, 0 when the page is first
    shown. *)
Definition z_slider (Z choice : nat) : option nat :=
  if 1 <? Z then Some choice else None.

(** Lines 106-120, once line 106 is reached: the slider, then the download
    loop. *)
Definition download_section (Z choice : nat)
    : option (list (string * string * string)) :=
  _ ← z_slider Z choice; Some (download_buttons Z).

(** A colour string as [st.color_picker] returns it: ["#"] and six
    hexadecimal digits. *)
Definition is_hex_color (s : string) : bool :=
  match s with
  | String c0 (String a1 (String a2 (String a3 (String a4 (String a5
      (String a6 EmptyString)))))) =>
      Ascii.eqb c0 "#" &&
      forallb (λ a, bool_decide (is_Some (hex_digit a))) [a1; a2; a3; a4; a5; a6]
  | _ => false
  end.

(** ** Floating point

    The arrays of the program hold IEEE 754 binary floats.  A float is
    described by its value: a rational, an infinity, or NaN; the sign of a
    zero is not described.  An operation of the standard returns the exact
    result rounded to the nearest float of the format, ties to the even
    significand, and an infinity past the largest float. *)

Inductive fp :=
  | Fin (x : Q)
  | Inf (negative : bool)
  | NaN.

(** A binary format: [prec] bits of significand, exponents below [emax]. *)
Record format := mk_format { prec : Z; emax : Z }.

Definition binary16 : format := mk_format 11 16.
Definition binary32 : format := mk_format 24 128.
Definition binary64 : format := mk_format 53 1024.

Definition valid_format (F : format) : Prop :=
  (1 < prec F)%Z ∧ (prec F < emax F)%Z.

(** The exponent of the smallest positive float. *)
Definition emin (F : format) : Z := (3 - emax F - prec F)%Z.

(** [floor (log2 a)] for [0 < a]. *)
Definition Qlog2 (a : Q) : Z :=
  let k := (Z.log2 (Qnum a) - Z.log2 (Zpos (Qden a)))%Z in
  if Qle_bool (2 ^ k) a then k else (k - 1)%Z.

(** The nearest integer, halves to the even one. *)
Definition rne (y : Q) : Z :=
  let f := Qfloor y in
  match (y - inject_Z f ?= 1 # 2)%Q with
  | Lt => f
  | Gt => (f + 1)%Z
  | Eq => if Z.even f then f else (f + 1)%Z
  end.

(** The exponent of the last place of the float nearest to [a], [0 < a]. *)
Definition ulp_exponent (F : format) (a : Q) : Z :=
  Z.max (Qlog2 a - prec F + 1) (emin F).

(** [a] rounded to [prec] bits, the exponent unbounded above. *)
Definition round_magnitude (F : format) (a : Q) : Q :=
  let e := ulp_exponent F a in
  (inject_Z (rne (a / 2 ^ e)) * 2 ^ e)%Q.

Definition round (F : format) (x : Q) : fp :=
  if Qeq_bool x 0 then Fin 0
  else
    let y := round_magnitude F (Qabs x) in
    if Qle_bool (2 ^ emax F) y then Inf (Qltb x 0)
    else Fin (Qred (if Qltb x 0 then - y else y)).

(** [x - y] *)
Definition fsub (F : format) (x y : fp) : fp :=
  match x, y with
  | NaN, _ | _, NaN => NaN
  | Fin a, Fin b => round F (a - b)
  | Fin _, Inf s => Inf (negb s)
  | Inf s, Fin _ => Inf s
  | Inf s, Inf s' => if Bool.eqb s s' then NaN else Inf s
  end.

(** [x / y]; a zero divisor is read as [+0]. *)
Definition fdiv (F : format) (x y : fp) : fp :=
  match x, y with
  | NaN, _ | _, NaN => NaN
  | Fin a, Fin b =>
      if Qeq_bool b 0 then (if Qeq_bool a 0 then NaN else Inf (Qltb a 0))
      else round F (a / b)
  | Fin _, Inf _ => Fin 0
  | Inf s, Fin b => Inf (xorb s (Qltb b 0))
  | Inf _, Inf _ => NaN
  end.

(** [x < y]: false when an operand is NaN. *)
Definition fltb (x y : fp) : bool :=
  match x, y with
  | NaN, _ | _, NaN => false
  | Fin a, Fin b => Qltb a b
  | Inf s, Inf s' => s && negb s'
  | Inf s, Fin _ => s
  | Fin _, Inf s => negb s
  end.

(** [np.maximum], [np.minimum] and [np.clip]: a NaN operand gives NaN. *)
Definition fmaximum (x y : fp) : fp :=
  match x, y with
  | NaN, _ | _, NaN => NaN
  | _, _ => if fltb x y then y else x
  end.

Definition fminimum (x y : fp) : fp :=
  match x, y with
  | NaN, _ | _, NaN => NaN
  | _, _ => if fltb y x then y else x
  end.

Definition fclip (x lo hi : fp) : fp := fminimum (fmaximum x lo) hi.

(** Conversion to another format, as an assignment into an array of that
    type performs it. *)
Definition cast (F : format) (x : fp) : fp :=
  match x with
  | Fin a => round F a
  | _ => x
  end.

(** The floats of a format. *)
Definition is_float (F : format) (x : Q) : Prop := round F x = Fin (Qred x).

(** The order of the floats that are not NaN. *)
Definition fle (x y : fp) : Prop :=
  match x, y with
  | NaN, _ | _, NaN => False
  | Fin a, Fin b => (a <= b)%Q
  | Inf s, Inf s' => s = true ∨ s' = false
  | Inf s, Fin _ => s = true
  | Fin _, Inf s => s = false
  end.

(** ** Lines 16-19 in floating point

    [ch] holds the samples of one channel, [vmin] and [vmax] are the two
    values [np.percentile] returned for it.  [F] is the format numpy
    evaluates the expression in, the type of [ch - vmin]: the format of
    the samples for a floating-point image, binary64 for an integer image
    (whose samples are converted first).  The result is stored into the
    float32 array [norm_volume]. *)

Definition normalize_sample (F : format) (vmin vmax v : fp) : fp :=
  cast binary32
    (fclip (fdiv F (fsub F v vmin) (fsub F vmax vmin)) (Fin 0) (Fin 1)).

Definition normalize_samples (F : format) (ch : list fp) (vmin vmax : fp)
    : list fp :=
  if fltb vmin vmax
  then normalize_sample F vmin vmax <$> ch
  else (λ _, Fin 0) <$> ch.

(** * Properties *)

(** ** Scalars *)

Lemma Qltb_lt x y : Qltb x y = true ↔ (x < y)%Q.
Proof.
  unfold Qltb. rewrite Qlt_alt. destruct (x ?= y)%Q; split; congruence.
Qed.

Lemma Qltb_ge x y : Qltb x y = false ↔ (y <= x)%Q.
Proof.
  rewrite <- not_true_iff_false, Qltb_lt. split.
  - apply Qnot_lt_le.
  - apply Qle_not_lt.
Qed.

Lemma np_clip_unit x : in_unit (np_clip x 0 1).
Proof.
  unfold np_clip, in_unit.
  destruct (Qltb x 0) eqn:E0; [lra|].
  destruct (Qltb 1 x) eqn:E1; [lra|].
  apply Qltb_ge in E0, E1. lra.
Qed.

Lemma in_unit_0 : in_unit 0.
Proof. unfold in_unit. lra. Qed.

(** ** Sorting and percentiles *)

Lemma length_insert_sorted x l : length (insert_sorted x l) = S (length l).
Proof.
  induction l as [|y l IH]; simpl; [done|].
  destruct (Qle_bool x y); simpl; by rewrite ?IH.
Qed.

Lemma length_np_sort l : length (np_sort l) = length l.
Proof.
  induction l as [|x l IH]; simpl; [done|].
  by rewrite length_insert_sorted, IH.
Qed.

Lemma np_percentile_ok a q :
  a ≠ [] → valid_percent q → ∃ v, np_percentile a q = Ok v.
Proof.
  intros Ha [H0 H1]. unfold np_percentile.
  apply Qle_bool_iff in H0, H1. rewrite H0, H1. simpl.
  destruct (np_sort a) as [|s0 s] eqn:Es; [|eauto].
  apply (f_equal length) in Es. rewrite length_np_sort in Es.
  destruct a; simplify_eq/=.
Qed.

(** ** Multi-indices *)

Lemma elem_of_indices idx shp : idx ∈ indices shp ↔ Forall2 lt idx shp.
Proof.
  revert idx. induction shp as [|n shp IH]; intros idx; simpl.
  - rewrite list_elem_of_singleton. split; [intros ->; constructor|].
    by inversion 1.
  - rewrite list_elem_of_bind. split.
    + intros (i & Hidx & Hi). apply list_elem_of_fmap in Hidx as (r & -> & Hr).
      apply elem_of_seq in Hi. constructor; [lia|by apply IH].
    + inversion 1 as [|i ? r ? Hi Hr]; subst. exists i. split.
      * apply list_elem_of_fmap. exists r. split; [done|by apply IH].
      * apply elem_of_seq. lia.
Qed.

Lemma elem_of_indices_2 a b i j : [i; j] ∈ indices [a; b] ↔ i < a ∧ j < b.
Proof.
  rewrite elem_of_indices. split.
  - intros H. repeat (inversion_clear H as [|???? ? H']; rename H' into H). done.
  - intros [??]. by repeat constructor.
Qed.

Lemma elem_of_indices_3 a b c i j k :
  [i; j; k] ∈ indices [a; b; c] ↔ i < a ∧ j < b ∧ k < c.
Proof.
  rewrite elem_of_indices. split.
  - intros H. repeat (inversion_clear H as [|???? ? H']; rename H' into H). done.
  - intros (?&?&?). by repeat constructor.
Qed.

Lemma elem_of_indices_4 a b c d i j k l :
  [i; j; k; l] ∈ indices [a; b; c; d] ↔ i < a ∧ j < b ∧ k < c ∧ l < d.
Proof.
  rewrite elem_of_indices. split.
  - intros H. repeat (inversion_clear H as [|???? ? H']; rename H' into H). done.
  - intros (?&?&?&?). by repeat constructor.
Qed.

Lemma indices_length idx shp : idx ∈ indices shp → length idx = length shp.
Proof. rewrite elem_of_indices. apply Forall2_length. Qed.

Lemma indices_nonempty shp : Forall (lt 0) shp → indices shp ≠ [].
Proof.
  intros H. assert (replicate (length shp) 0 ∈ indices shp) as Hin.
  { apply elem_of_indices. induction H; simpl; by constructor. }
  intros E. rewrite E in Hin. by apply not_elem_of_nil in Hin.
Qed.

(** ** Writing through a handle *)

Lemma fill_miss b dst src k :
  (∀ idx, idx ∈ indices (shape dst) → imap dst idx ≠ k) →
  fill b dst src k = b k.
Proof.
  unfold fill. generalize (indices (shape dst)) as l.
  intros l. revert b. induction l as [|i l IH]; intros b H; simpl; [done|].
  rewrite IH by (intros; apply H; by right).
  unfold upd. rewrite decide_False; [done|].
  intros ->. by eapply H; [left|].
Qed.

Lemma fill_hit b dst src idx :
  (∀ i j, i ∈ indices (shape dst) → j ∈ indices (shape dst) →
          imap dst i = imap dst j → i = j) →
  idx ∈ indices (shape dst) →
  fill b dst src (imap dst idx) = src idx.
Proof.
  unfold fill. generalize (indices (shape dst)) as l.
  intros l. induction l as [|i l IH] using rev_ind; intros Hinj Hin.
  - by apply not_elem_of_nil in Hin.
  - rewrite fold_left_app. simpl. unfold upd at 1.
    destruct (decide (imap dst idx = imap dst i)) as [E|E].
    + f_equal. symmetry. apply Hinj; [done| |done].
      apply elem_of_app. right. by apply list_elem_of_singleton.
    + apply IH.
      * intros ????. apply Hinj; apply elem_of_app; by left.
      * apply elem_of_app in Hin as [?|Hin]; [done|].
        apply list_elem_of_singleton in Hin. congruence.
Qed.


(** ** Order statistics and linear interpolation *)
















(** ** Running computations *)

Lemma bind_run {A B} (m : M A) (f : A → M B) h :
  (m ≫= f) h = match m h with
               | (h', Ok a) => f a h'
               | (h', Raise e) => (h', Raise e)
               end.
Proof. done. Qed.

Lemma bind_ok {A B} (m : M A) (f : A → M B) h h' a :
  m h = (h', Ok a) → (m ≫= f) h = f a h'.
Proof. intros E. by rewrite bind_run, E. Qed.

Lemma bind_raise {A B} (m : M A) (f : A → M B) h h' e :
  m h = (h', Raise e) → (m ≫= f) h = (h', Raise e).
Proof. intros E. by rewrite bind_run, E. Qed.

Lemma bind_lift_ok {A B} (r : result A) (f : A → M B) h a :
  r = Ok a → (lift r ≫= f) h = f a h.
Proof. by intros ->. Qed.

Lemma for_each_seq_inv (I : nat → gmap loc buffer → Prop) (body : nat → M ())
    s n h :
  I s h →
  (∀ k h, s ≤ k < s + n → I k h →
     ∃ h', body k h = (h', Ok ()) ∧ I (S k) h') →
  ∃ h', for_each (seq s n) body h = (h', Ok ()) ∧ I (s + n) h'.
Proof.
  revert s h. induction n as [|n IH]; intros s h H0 Hstep; simpl.
  - exists h. by rewrite Nat.add_0_r.
  - destruct (Hstep s h) as (h1 & E1 & H1); [lia|done|].
    destruct (IH (S s) h1) as (h2 & E2 & H2); [done| |].
    { intros k h' ??. apply Hstep; [lia|done]. }
    exists h2. split; [|by replace (s + S n) with (S s + n) by lia].
    by rewrite (bind_ok _ _ _ _ _ E1).
Qed.

Lemma for_each_range_inv (I : nat → gmap loc buffer → Prop) (body : nat → M ())
    n h :
  I 0 h →
  (∀ k h, k < n → I k h → ∃ h', body k h = (h', Ok ()) ∧ I (S k) h') →
  ∃ h', for_each (range n) body h = (h', Ok ()) ∧ I n h'.
Proof.
  intros H0 Hstep. apply (for_each_seq_inv I body 0 n h H0).
  intros k h' ??. apply Hstep; [lia|done].
Qed.

Lemma for_each_zip_seq_inv {A} (I : nat → gmap loc buffer → Prop)
    (body : nat * A → M ()) (l : list A) s h :
  I s h →
  (∀ k x h, l !! k = Some x → I (s + k) h →
     ∃ h', body (s + k, x) h = (h', Ok ()) ∧ I (S (s + k)) h') →
  ∃ h', for_each (zip (seq s (length l)) l) body h = (h', Ok ()) ∧
        I (s + length l) h'.
Proof.
  revert s h. induction l as [|x l IH]; intros s h H0 Hstep; simpl.
  - exists h. by rewrite Nat.add_0_r.
  - destruct (Hstep 0 x h) as (h1 & E1 & H1); [done|by rewrite Nat.add_0_r|].
    rewrite Nat.add_0_r in E1, H1.
    destruct (IH (S s) h1) as (h2 & E2 & H2); [done| |].
    { intros k y h' Hk Hh'. replace (S s + k) with (s + S k) in * by lia.
      by apply Hstep. }
    exists h2. split; [|by replace (s + S (length l)) with (S s + length l) by lia].
    by rewrite (bind_ok _ _ _ _ _ E1).
Qed.

Lemma for_each_enumerate_inv {A} (I : nat → gmap loc buffer → Prop)
    (body : nat * A → M ()) (l : list A) h :
  I 0 h →
  (∀ k x h, l !! k = Some x → I k h →
     ∃ h', body (k, x) h = (h', Ok ()) ∧ I (S k) h') →
  ∃ h', for_each (enumerate l) body h = (h', Ok ()) ∧ I (length l) h'.
Proof.
  intros H0 Hstep. by apply (for_each_zip_seq_inv I body l 0 h H0).
Qed.

(** ** Footprints: which blocks a computation may write *)

Lemma touches_ret {A} L (a : A) : touches_only L (mret a : M A).
Proof. by intros h l. Qed.

Lemma touches_lift {A} L (r : result A) : touches_only L (lift r).
Proof. by intros h l. Qed.

Lemma touches_read L a : touches_only L (read a).
Proof. by intros h l. Qed.

Lemma touches_percentile_of L a q : touches_only L (percentile_of a q).
Proof. by intros h l. Qed.

Lemma touches_store dst src L :
  base dst = L → touches_only L (store dst src).
Proof.
  intros <- h l. unfold store. simpl. split.
  - intros Hl. by rewrite lookup_insert_ne.
  - intros Hs. rewrite lookup_insert. by case_decide.
Qed.

Lemma touches_bind {A B} L (m : M A) (f : A → M B) :
  touches_only L m → (∀ a, touches_only L (f a)) → touches_only L (m ≫= f).
Proof.
  intros Hm Hf h l. rewrite bind_run. destruct (Hm h l) as [Hm1 Hm2].
  destruct (m h) as [h' [a|e]]; simpl in *; [|done].
  destruct (Hf a h' l) as [Hf1 Hf2]. split.
  - intros Hl. by rewrite Hf1, Hm1.
  - intros Hs. by apply Hf2, Hm2.
Qed.

Lemma touches_bind_lift {A B} L (r : result A) (f : A → M B) :
  (∀ a, r = Ok a → touches_only L (f a)) → touches_only L (lift r ≫= f).
Proof.
  intros Hf h l. destruct r as [a|e]; [|done]. by apply Hf.
Qed.

Lemma touches_for_each {A} L (l : list A) (body : A → M ()) :
  (∀ x, touches_only L (body x)) → touches_only L (for_each l body).
Proof.
  intros Hb. induction l as [|x l IH]; simpl.
  - apply touches_ret.
  - apply touches_bind; [apply Hb|by intros _].
Qed.

Lemma index0_base a i v : index0 a i = Ok v → base v = base a.
Proof.
  unfold index0. repeat case_match; intros; by simplify_eq.
Qed.

Lemma slice_axis1_base a c v : slice_axis1 a c = Ok v → base v = base a.
Proof.
  unfold slice_axis1. repeat case_match; intros; by simplify_eq.
Qed.

Lemma plane_base a z k v : plane a z k = Ok v → base v = base a.
Proof.
  unfold plane. repeat case_match; intros; by simplify_eq.
Qed.

Create HintDb footprint.
#[local] Hint Resolve touches_ret touches_lift touches_read
  touches_percentile_of touches_for_each : footprint.
#[local] Hint Resolve index0_base slice_axis1_base plane_base : footprint.

(** Walks through a computation bind by bind. *)
Ltac footprint :=
  repeat match goal with
    | |- touches_only _ (lift _ ≫= _) => apply touches_bind_lift; intros ? ?
    | |- touches_only _ (_ ≫= _) => apply touches_bind; [|intros ?]
    | |- touches_only _ (if ?b then _ else _) => destruct b
    | |- touches_only _ (store _ _) => apply touches_store
    end;
  eauto with footprint.

Lemma touches_iadd_scaled a z k gray w :
  touches_only (base a) (iadd_scaled a z k gray w).
Proof. unfold iadd_scaled. footprint. Qed.

#[local] Hint Resolve touches_iadd_scaled : footprint.

Lemma touches_normalize_channel volume nv percentiles c :
  touches_only (base nv) (normalize_channel volume nv percentiles c).
Proof.
  unfold normalize_channel. apply touches_bind_lift. intros ch _.
  apply touches_bind_lift. intros [lo hi] _. footprint.
Qed.

Lemma touches_add_channel volume rgb visibility z item :
  touches_only (base rgb) (add_channel volume rgb visibility z item).
Proof. destruct item as [c [[r g] b]]. unfold add_channel. footprint. Qed.

#[local] Hint Resolve touches_normalize_channel touches_add_channel : footprint.

Lemma touches_render_slice volume rgb colors visibility z :
  touches_only (base rgb) (render_slice volume rgb colors visibility z).
Proof. unfold render_slice. footprint. Qed.

(** What a run of the normalisation does to the store: it allocates one
    block and writes nothing else; the handle it returns is on that
    block. *)
Lemma normalize_footprint volume percentiles h :
  let l0 := fresh (dom h) in
  let run := normalize_channels_with_percentiles volume percentiles h in
  (∀ l, l ≠ l0 → run.1 !! l = h !! l) ∧
  (∀ out, run.2 = Ok out →
     out = {| base := l0; shape := shape volume; imap := id |} ∧
     is_Some (run.1 !! l0)).
Proof.
  intros l0 run. subst run. unfold normalize_channels_with_percentiles.
  destruct (unpack4 (shape volume)) as [[[[Z C] X] Y]|e] eqn:Eu.
  2:{ split; [done|]. intros out. simpl. discriminate. }
  rewrite (bind_lift_ok _ _ _ _ eq_refl).
  rewrite bind_run. unfold np_zeros_like, np_zeros. fold l0.
  set (nv := {| base := l0; shape := shape volume; imap := id |}).
  set (h1 := <[l0 := zero_block]> h).
  pose proof (touches_for_each l0 (range C)
    (normalize_channel volume nv percentiles)
    (λ c, touches_normalize_channel volume nv percentiles c) h1) as Ht.
  rewrite bind_run.
  destruct (for_each (range C) (normalize_channel volume nv percentiles) h1)
    as [h2 [[]|e]] eqn:E2; simpl in *.
  - split.
    + intros l Hl. rewrite (proj1 (Ht l)) by done. unfold h1.
      by rewrite lookup_insert_ne.
    + intros out [= <-]. split; [done|]. apply Ht. unfold h1.
      by rewrite lookup_insert_eq.
  - split.
    + intros l Hl. rewrite (proj1 (Ht l)) by done. unfold h1.
      by rewrite lookup_insert_ne.
    + intros out. discriminate.
Qed.

Lemma render_footprint volume colors visibility h :
  let l0 := fresh (dom h) in
  let run := multichannel_to_rgb_stack volume colors visibility h in
  (∀ l, l ≠ l0 → run.1 !! l = h !! l) ∧
  (∀ out, run.2 = Ok out →
     base out = l0 ∧ imap out = id ∧ is_Some (run.1 !! l0)).
Proof.
  intros l0 run. subst run. unfold multichannel_to_rgb_stack.
  destruct (unpack4 (shape volume)) as [[[[Z C] X] Y]|e] eqn:Eu.
  2:{ split; [done|]. intros out. simpl. discriminate. }
  rewrite (bind_lift_ok _ _ _ _ eq_refl).
  rewrite bind_run. unfold np_zeros. fold l0.
  set (rgb := {| base := l0; shape := [Z; X; Y; 3]; imap := id |}).
  set (h1 := <[l0 := zero_block]> h).
  pose proof (touches_for_each l0 (range Z)
    (render_slice volume rgb colors visibility)
    (λ z, touches_render_slice volume rgb colors visibility z) h1) as Ht.
  rewrite bind_run.
  destruct (for_each (range Z) (render_slice volume rgb colors visibility) h1)
    as [h2 [[]|e]] eqn:E2; simpl in *.
  - split.
    + intros l Hl. rewrite (proj1 (Ht l)) by done. unfold h1.
      by rewrite lookup_insert_ne.
    + intros out [= <-]. split; [done|]. split; [done|]. apply Ht. unfold h1.
      by rewrite lookup_insert_eq.
  - split.
    + intros l Hl. rewrite (proj1 (Ht l)) by done. unfold h1.
      by rewrite lookup_insert_ne.
    + intros out. discriminate.
Qed.

(** ** Reading the store *)

Lemma deref_insert_eq (h : gmap loc buffer) l b : deref (<[l := b]> h) l = b.
Proof. unfold deref. by rewrite lookup_insert_eq. Qed.

Lemma load_insert_ne (h : gmap loc buffer) l b a idx :
  base a ≠ l → load (<[l := b]> h) a idx = load h a idx.
Proof. intros Hl. unfold load, deref. by rewrite lookup_insert_ne. Qed.

Lemma load_insert_eq (h : gmap loc buffer) l b a idx :
  base a = l → load (<[l := b]> h) a idx = b (imap a idx).
Proof. intros <-. unfold load. by rewrite deref_insert_eq. Qed.

Lemma ravel_insert_ne (h : gmap loc buffer) l b a :
  base a ≠ l → ravel (<[l := b]> h) a = ravel h a.
Proof.
  intros Hl. unfold ravel. apply list_fmap_ext. intros _ idx _.
  by apply load_insert_ne.
Qed.

Lemma fresh_ne (h : gmap loc buffer) l : is_Some (h !! l) → l ≠ fresh (dom h).
Proof.
  intros Hs ->. apply (is_fresh (dom h)). by apply elem_of_dom.
Qed.

Lemma slice_axis1_load h a c v z r :
  slice_axis1 a c = Ok v → load h v (z :: r) = load h a (z :: c :: r).
Proof.
  unfold slice_axis1. repeat case_match; intros; by simplify_eq.
Qed.

Lemma slice_axis1_ok a n m rest c :
  shape a = n :: m :: rest → c < m →
  ∃ v, slice_axis1 a c = Ok v ∧ shape v = n :: rest.
Proof.
  intros Hs Hc. unfold slice_axis1. rewrite Hs.
  apply Nat.ltb_lt in Hc. rewrite Hc. eauto.
Qed.


Lemma length_indices shp : length (indices shp) = foldr Nat.mul 1 shp.
Proof.
  induction shp as [|n shp IH]; simpl; [done|].
  rewrite <- IH. generalize 0 as s.
  induction n as [|n IHn]; intros s; simpl; [done|].
  by rewrite length_app, length_fmap, IHn.
Qed.

Lemma length_ravel_channel h volume Z C X Y c ch :
  shape volume = [Z; C; X; Y] →
  slice_axis1 volume c = Ok ch →
  length (ravel h ch) = Z * X * Y.
Proof.
  intros Hs Hch.
  assert (shape ch = [Z; X; Y]) as Hsch.
  { revert Hch. unfold slice_axis1. rewrite Hs. case_match; [|done].
    by intros [= <-]. }
  unfold ravel. rewrite length_fmap, length_indices, Hsch. simpl. lia.
Qed.

(** ** One channel of the normalisation *)

Lemma normalize_channel_run h buf volume l0 Z C X Y percentiles c lo hi ch
    vmin vmax :
  let nv := {| base := l0; shape := [Z; C; X; Y]; imap := id |} in
  base volume ≠ l0 →
  c < C →
  percentiles !! c = Some (lo, hi) →
  slice_axis1 volume c = Ok ch →
  np_percentile (ravel h ch) lo = Ok vmin →
  np_percentile (ravel h ch) hi = Ok vmax →
  ∃ buf',
    normalize_channel volume nv percentiles c (<[l0 := buf]> h)
      = (<[l0 := buf']> h, Ok ()) ∧
    (∀ z x y, z < Z → x < X → y < Y →
       buf' [z; c; x; y] =
         if Qltb vmin vmax
         then np_clip ((load h volume [z; c; x; y] - vmin) / (vmax - vmin)) 0 1
         else 0%Q) ∧
    (∀ z c' x y, c' ≠ c → buf' [z; c'; x; y] = buf [z; c'; x; y]).
Proof.
  intros nv Hne Hc Hp Hch Hmin Hmax.
  assert (base ch ≠ l0) as Hne' by (by rewrite (slice_axis1_base _ _ _ Hch)).
  set (dst := {| base := l0; shape := [Z; X; Y];
                 imap := λ idx, match idx with
                                | z :: r => id (z :: c :: r)
                                | [] => id []
                                end |}).
  assert (slice_axis1 nv c = Ok dst) as Hdst.
  { unfold slice_axis1. simpl. apply Nat.ltb_lt in Hc. by rewrite Hc. }
  assert (∀ src,
    (∀ z x y, z < Z → x < X → y < Y →
       fill buf dst src [z; c; x; y] = src [z; x; y]) ∧
    (∀ z c' x y, c' ≠ c → fill buf dst src [z; c'; x; y] = buf [z; c'; x; y]))
    as Hfill.
  { intros src. split.
    - intros z x y Hz Hx Hy.
      change [z; c; x; y] with (imap dst [z; x; y]). apply fill_hit.
      + intros i j Hi Hj. apply indices_length in Hi, Hj.
        destruct i, j; simplify_eq/=. by intros [= -> ->].
      + by apply elem_of_indices_3.
    - intros z c' x y Hc'. apply fill_miss. intros idx Hidx.
      apply indices_length in Hidx. destruct idx; simplify_eq/=.
      intros [= ]. congruence. }
  unfold normalize_channel.
  rewrite (bind_lift_ok _ _ _ _ Hch).
  unfold getitem. rewrite Hp. rewrite (bind_lift_ok _ _ _ _ eq_refl).
  rewrite bind_run. unfold percentile_of at 1.
  rewrite (ravel_insert_ne _ _ _ _ Hne'), Hmin.
  rewrite bind_run. unfold percentile_of at 1.
  rewrite (ravel_insert_ne _ _ _ _ Hne'), Hmax.
  destruct (Qltb vmin vmax).
  - rewrite bind_run. unfold read at 1.
    rewrite (bind_lift_ok _ _ _ _ Hdst). unfold store. simpl base.
    rewrite deref_insert_eq, insert_insert_eq.
    eexists. split; [done|]. split; [|apply Hfill].
    intros z x y Hz Hx Hy. rewrite (proj1 (Hfill _)) by done.
    rewrite load_insert_ne by done.
    by rewrite (slice_axis1_load _ _ _ _ _ _ Hch).
  - rewrite (bind_lift_ok _ _ _ _ Hdst). unfold store. simpl base.
    rewrite deref_insert_eq, insert_insert_eq.
    eexists. split; [done|]. split; [|apply Hfill].
    intros z x y Hz Hx Hy. by rewrite (proj1 (Hfill _)).
Qed.

(** ** The whole normalisation *)

Lemma normalize_run h volume Z C X Y percentiles :
  is_Some (h !! base volume) →
  shape volume = [Z; C; X; Y] →
  (∀ c, c < C → ∃ lo hi ch vmin vmax,
     percentiles !! c = Some (lo, hi) ∧ slice_axis1 volume c = Ok ch ∧
     np_percentile (ravel h ch) lo = Ok vmin ∧
     np_percentile (ravel h ch) hi = Ok vmax) →
  let l0 := fresh (dom h) in
  ∃ buf,
    normalize_channels_with_percentiles volume percentiles h
      = (<[l0 := buf]> h,
         Ok {| base := l0; shape := [Z; C; X; Y]; imap := id |}) ∧
    ∀ c lo hi ch vmin vmax,
      c < C → percentiles !! c = Some (lo, hi) →
      slice_axis1 volume c = Ok ch →
      np_percentile (ravel h ch) lo = Ok vmin →
      np_percentile (ravel h ch) hi = Ok vmax →
      ∀ z x y, z < Z → x < X → y < Y →
        buf [z; c; x; y] =
          if Qltb vmin vmax
          then np_clip ((load h volume [z; c; x; y] - vmin) / (vmax - vmin)) 0 1
          else 0%Q.
Proof.
  intros Hlive Hshape Hdef l0.
  assert (base volume ≠ l0) as Hne by (by apply fresh_ne).
  assert (unpack4 (shape volume) = Ok (Z, C, X, Y)) as Eu by (by rewrite Hshape).
  unfold normalize_channels_with_percentiles.
  rewrite (bind_lift_ok _ _ _ _ Eu).
  rewrite bind_run. unfold np_zeros_like, np_zeros. fold l0. rewrite Hshape.
  set (nv := {| base := l0; shape := [Z; C; X; Y]; imap := id |}).
  destruct (for_each_range_inv
    (λ k h', ∃ buf, h' = <[l0 := buf]> h ∧
       ∀ c lo hi ch vmin vmax,
         c < k → percentiles !! c = Some (lo, hi) →
         slice_axis1 volume c = Ok ch →
         np_percentile (ravel h ch) lo = Ok vmin →
         np_percentile (ravel h ch) hi = Ok vmax →
         ∀ z x y, z < Z → x < X → y < Y →
           buf [z; c; x; y] =
             if Qltb vmin vmax
             then np_clip ((load h volume [z; c; x; y] - vmin) / (vmax - vmin)) 0 1
             else 0%Q)
    (normalize_channel volume nv percentiles) C (<[l0 := zero_block]> h))
    as (h' & Erun & buf & -> & Hbuf).
  - exists zero_block. split; [done|]. intros; lia.
  - intros k h' Hk (buf & -> & Hbuf).
    destruct (Hdef k Hk) as (lo & hi & ch & vmin & vmax & Hp & Hch & Hmin & Hmax).
    destruct (normalize_channel_run h buf volume l0 Z C X Y percentiles k
                lo hi ch vmin vmax Hne Hk Hp Hch Hmin Hmax)
      as (buf' & Erun & Hhit & Hmiss).
    exists (<[l0 := buf']> h). split; [done|]. exists buf'. split; [done|].
    intros c lo' hi' ch' vmin' vmax' Hc Hp' Hch' Hmin' Hmax' z x y Hz Hx Hy.
    destruct (decide (c = k)) as [->|Hck].
    + rewrite Hp in Hp'. rewrite Hch in Hch'. simplify_eq.
      rewrite Hmin in Hmin'. rewrite Hmax in Hmax'. simplify_eq.
      by apply Hhit.
    + rewrite Hmiss by done. eapply Hbuf; eauto. lia.
  - exists buf. rewrite (bind_ok _ _ _ _ _ Erun). split; [done|].
    intros. by eapply Hbuf.
Qed.

Lemma percentiles_defined h volume Z C X Y (percentiles : list (Q * Q)) :
  shape volume = [Z; C; X; Y] →
  0 < Z → 0 < X → 0 < Y →
  C ≤ length percentiles →
  Forall (λ p, valid_percent p.1 ∧ valid_percent p.2) percentiles →
  ∀ c, c < C → ∃ lo hi ch vmin vmax,
    percentiles !! c = Some (lo, hi) ∧ slice_axis1 volume c = Ok ch ∧
    np_percentile (ravel h ch) lo = Ok vmin ∧
    np_percentile (ravel h ch) hi = Ok vmax.
Proof.
  intros Hshape HZ HX HY Hlen Hvalid c Hc.
  destruct (lookup_lt_is_Some_2 percentiles c) as [[lo hi] Hp]; [lia|].
  destruct (slice_axis1_ok volume Z C [X; Y] c Hshape Hc) as (ch & Hch & Hsch).
  rewrite Forall_lookup in Hvalid. destruct (Hvalid c _ Hp) as [Hlo Hhi].
  assert (ravel h ch ≠ []) as Hne.
  { unfold ravel. rewrite Hsch. intros E. apply fmap_nil_inv in E.
    revert E. apply indices_nonempty. by repeat constructor. }
  destruct (np_percentile_ok _ lo Hne Hlo) as [vmin Hmin].
  destruct (np_percentile_ok _ hi Hne Hhi) as [vmax Hmax].
  by exists lo, hi, ch, vmin, vmax.
Qed.

(** ** One accumulation [rgb_stack[z, :, :, k] += gray * w] *)

Lemma iadd_scaled_run h buf l0 Z X Y z k gray w :
  let rgb := {| base := l0; shape := [Z; X; Y; 3]; imap := id |} in
  base gray ≠ l0 → z < Z → k < 3 →
  ∃ buf',
    iadd_scaled rgb z k gray w (<[l0 := buf]> h) = (<[l0 := buf']> h, Ok ()) ∧
    (∀ x y, x < X → y < Y →
       buf' [z; x; y; k] = (buf [z; x; y; k] + load h gray [x; y] * w)%Q) ∧
    (∀ z' x y k', z' ≠ z ∨ k' ≠ k → buf' [z'; x; y; k'] = buf [z'; x; y; k']).
Proof.
  intros rgb Hne Hz Hk.
  set (dst := {| base := l0; shape := [X; Y];
                 imap := λ idx, id (z :: idx ++ [k]) |}).
  assert (plane rgb z k = Ok dst) as Hdst.
  { unfold plane. simpl. apply Nat.ltb_lt in Hz, Hk. by rewrite Hz, Hk. }
  unfold iadd_scaled. rewrite bind_run. unfold read at 1.
  rewrite (bind_lift_ok _ _ _ _ Hdst).
  rewrite bind_run. unfold read at 1. unfold store. simpl base.
  rewrite deref_insert_eq, insert_insert_eq.
  eexists. split; [done|]. split.
  - intros x y Hx Hy. change [z; x; y; k] with (imap dst [x; y]).
    rewrite fill_hit.
    + rewrite (load_insert_ne _ _ _ gray) by done.
      by rewrite (load_insert_eq _ _ _ dst).
    + intros i j Hi Hj. apply indices_length in Hi, Hj.
      destruct i as [|? [|? [|]]], j as [|? [|? [|]]]; simplify_eq/=.
      by intros [= -> ->].
    + by apply elem_of_indices_2.
  - intros z' x y k' Hor. apply fill_miss. intros idx Hidx.
    apply indices_length in Hidx.
    destruct idx as [|? [|? [|]]]; simplify_eq/=.
    intros [= ]. destruct Hor; congruence.
Qed.

Lemma index2_ok (volume : ndarray) Z C X Y z c :
  shape volume = [Z; C; X; Y] → z < Z → c < C →
  ∃ gray, (vz ← index0 volume z; index0 vz c) = Ok gray ∧
          base gray = base volume ∧
          ∀ h x y, load h gray [x; y] = load h volume [z; c; x; y].
Proof.
  intros Hs Hz Hc. unfold index0 at 2. rewrite Hs.
  apply Nat.ltb_lt in Hz, Hc. rewrite Hz. simpl. unfold index0. simpl.
  rewrite Hc. eexists. split; [done|]. split; done.
Qed.

(** ** One channel of one slice *)

Lemma add_channel_run h buf volume l0 Z C X Y visibility z c col vis :
  let rgb := {| base := l0; shape := [Z; X; Y; 3]; imap := id |} in
  base volume ≠ l0 → shape volume = [Z; C; X; Y] → z < Z →
  visibility !! c = Some vis → (vis = true → c < C) →
  ∃ buf',
    add_channel volume rgb visibility z (c, col) (<[l0 := buf]> h)
      = (<[l0 := buf']> h, Ok ()) ∧
    (∀ x y k, x < X → y < Y → k < 3 →
       buf' [z; x; y; k] =
         blend_step (λ c, load h volume [z; c; x; y]) visibility k
           (buf [z; x; y; k]) (c, col)) ∧
    (∀ z' x y k, z' ≠ z → buf' [z'; x; y; k] = buf [z'; x; y; k]).
Proof.
  intros rgb Hne Hs Hz Hvis Hc. destruct col as [[r g] b].
  unfold add_channel, getitem. rewrite Hvis.
  rewrite (bind_lift_ok _ _ _ _ eq_refl).
  unfold blend_step, is_visible. simpl fst. simpl snd. rewrite Hvis. simpl default.
  destruct vis.
  2:{ exists buf. split; [done|]. split; done. }
  destruct (index2_ok volume Z C X Y z c Hs Hz (Hc eq_refl))
    as (gray & Hgray & Hbase & Hload).
  rewrite (bind_lift_ok _ _ _ _ Hgray).
  assert (base gray ≠ l0) as Hne' by congruence.
  destruct (iadd_scaled_run h buf l0 Z X Y z 0 gray r Hne' Hz)
    as (b1 & E1 & Hit1 & Miss1); [lia|].
  destruct (iadd_scaled_run h b1 l0 Z X Y z 1 gray g Hne' Hz)
    as (b2 & E2 & Hit2 & Miss2); [lia|].
  destruct (iadd_scaled_run h b2 l0 Z X Y z 2 gray b Hne' Hz)
    as (b3 & E3 & Hit3 & Miss3); [lia|].
  rewrite (bind_ok _ _ _ _ _ E1), (bind_ok _ _ _ _ _ E2).
  exists b3. split; [done|]. split.
  - intros x y k Hx Hy Hk.
    destruct k as [|[|[|k]]]; [| | |lia]; simpl component.
    + rewrite Miss3, Miss2 by (right; lia). rewrite Hit1 by done.
      by rewrite Hload.
    + rewrite Miss3 by (right; lia). rewrite Hit2 by done.
      rewrite Miss1 by (right; lia). by rewrite Hload.
    + rewrite Hit3 by done. rewrite Miss2, Miss1 by (right; lia).
      by rewrite Hload.
  - intros z' x y k Hz'. rewrite Miss3, Miss2, Miss1 by (by left). done.
Qed.

(** ** One slice *)

Lemma render_slice_run h buf volume l0 Z C X Y colors visibility z :
  let rgb := {| base := l0; shape := [Z; X; Y; 3]; imap := id |} in
  base volume ≠ l0 → shape volume = [Z; C; X; Y] → z < Z →
  (∀ c, c < length colors →
     ∃ vis, visibility !! c = Some vis ∧ (vis = true → c < C)) →
  ∃ buf',
    render_slice volume rgb colors visibility z (<[l0 := buf]> h)
      = (<[l0 := buf']> h, Ok ()) ∧
    (∀ x y k, x < X → y < Y → k < 3 →
       buf' [z; x; y; k] =
         np_clip (fold_left
                    (blend_step (λ c, load h volume [z; c; x; y]) visibility k)
                    (enumerate colors) (buf [z; x; y; k])) 0 1) ∧
    (∀ z' x y k, z' ≠ z → buf' [z'; x; y; k] = buf [z'; x; y; k]).
Proof.
  intros rgb Hne Hs Hz Hvis.
  destruct (for_each_enumerate_inv
    (λ j h', ∃ b, h' = <[l0 := b]> h ∧
       (∀ x y k, x < X → y < Y → k < 3 →
          b [z; x; y; k] =
            fold_left
              (blend_step (λ c, load h volume [z; c; x; y]) visibility k)
              (take j (enumerate colors)) (buf [z; x; y; k])) ∧
       (∀ z' x y k, z' ≠ z → b [z'; x; y; k] = buf [z'; x; y; k]))
    (add_channel volume rgb visibility z) colors (<[l0 := buf]> h))
    as (h' & Erun & b & -> & Hb & Hb').
  - exists buf. split; [done|]. split; done.
  - intros j col h' Hj (b & -> & Hb & Hb').
    destruct (Hvis j) as (vis & Hv & Hc); [by eapply lookup_lt_Some|].
    destruct (add_channel_run h b volume l0 Z C X Y visibility z j col vis
                Hne Hs Hz Hv Hc) as (b1 & E1 & Hit & Miss).
    exists (<[l0 := b1]> h). split; [done|]. exists b1. split; [done|]. split.
    + intros x y k Hx Hy Hk. rewrite Hit by done.
      assert (enumerate colors !! j = Some (j, col)) as Hej.
      { unfold enumerate. apply lookup_zip_Some. split; [|done].
        apply lookup_seq. split; [done|]. by eapply lookup_lt_Some. }
      rewrite (take_S_r _ _ _ Hej), fold_left_app. simpl.
      by rewrite Hb.
    + intros z' x y k Hz'. rewrite Miss by done. by apply Hb'.
  - unfold render_slice. rewrite (bind_ok _ _ _ _ _ Erun).
    set (sl := {| base := l0; shape := [X; Y; 3];
                  imap := λ idx, id (z :: idx) |}).
    assert (index0 rgb z = Ok sl) as Hsl.
    { unfold index0. simpl. apply Nat.ltb_lt in Hz. by rewrite Hz. }
    rewrite (bind_lift_ok _ _ _ _ Hsl).
    rewrite bind_run. unfold read at 1. unfold store. simpl base.
    rewrite deref_insert_eq, insert_insert_eq.
    eexists. split; [done|]. split.
    + intros x y k Hx Hy Hk. change [z; x; y; k] with (imap sl [x; y; k]).
      rewrite fill_hit.
      * rewrite (load_insert_eq _ _ _ sl) by done.
        change (imap sl [x; y; k]) with [z; x; y; k]. rewrite Hb by done.
        rewrite take_ge; [done|].
        unfold enumerate. rewrite length_zip, length_seq. lia.
      * intros i j Hi Hj. simpl. by intros [= ->].
      * by apply elem_of_indices_3.
    + intros z' x y k Hz'. rewrite fill_miss.
      * by apply Hb'.
      * intros idx _. simpl. intros [= ]. congruence.
Qed.

(** ** The whole compositing *)

Lemma render_run h volume Z C X Y colors visibility :
  is_Some (h !! base volume) →
  shape volume = [Z; C; X; Y] →
  (∀ c, c < length colors →
     ∃ vis, visibility !! c = Some vis ∧ (vis = true → c < C)) →
  let l0 := fresh (dom h) in
  ∃ buf,
    multichannel_to_rgb_stack volume colors visibility h
      = (<[l0 := buf]> h,
         Ok {| base := l0; shape := [Z; X; Y; 3]; imap := id |}) ∧
    ∀ z x y k, z < Z → x < X → y < Y → k < 3 →
      buf [z; x; y; k] =
        np_clip (blend (λ c, load h volume [z; c; x; y]) colors visibility k) 0 1.
Proof.
  intros Hlive Hs Hvis l0.
  assert (base volume ≠ l0) as Hne by (by apply fresh_ne).
  assert (unpack4 (shape volume) = Ok (Z, C, X, Y)) as Eu by (by rewrite Hs).
  unfold multichannel_to_rgb_stack.
  rewrite (bind_lift_ok _ _ _ _ Eu).
  rewrite bind_run. unfold np_zeros. fold l0.
  set (rgb := {| base := l0; shape := [Z; X; Y; 3]; imap := id |}).
  destruct (for_each_range_inv
    (λ n h', ∃ buf, h' = <[l0 := buf]> h ∧
       (∀ z x y k, z < n → x < X → y < Y → k < 3 →
          buf [z; x; y; k] =
            np_clip (blend (λ c, load h volume [z; c; x; y])
                       colors visibility k) 0 1) ∧
       (∀ z x y k, n ≤ z → buf [z; x; y; k] = 0%Q))
    (render_slice volume rgb colors visibility) Z (<[l0 := zero_block]> h))
    as (h' & Erun & buf & -> & Hbuf & _).
  - exists zero_block. split; [done|]. split; [intros; lia|done].
  - intros n h' Hn (buf & -> & Hdone & Htodo).
    destruct (render_slice_run h buf volume l0 Z C X Y colors visibility n
                Hne Hs Hn Hvis) as (buf' & E & Hit & Miss).
    exists (<[l0 := buf']> h). split; [done|]. exists buf'. split; [done|].
    split.
    + intros z x y k Hz Hx Hy Hk. destruct (decide (z = n)) as [->|Hzn].
      * rewrite Hit by done. by rewrite Htodo.
      * rewrite Miss by done. apply Hdone; [lia|done..].
    + intros z x y k Hz. rewrite Miss by lia. apply Htodo. lia.
  - exists buf. rewrite (bind_ok _ _ _ _ _ Erun). split; [done|].
    intros. by apply Hbuf.
Qed.

(** ** The accumulated value against the sum over visible channels *)

Lemma Qltb_proper x x' y y' : (x == x')%Q → (y == y')%Q → Qltb x y = Qltb x' y'.
Proof. intros Hx Hy. unfold Qltb. by rewrite Hx, Hy. Qed.

Lemma np_clip_unit_proper x y : (x == y)%Q → (np_clip x 0 1 == np_clip y 0 1)%Q.
Proof.
  intros H. unfold np_clip.
  rewrite (Qltb_proper x y 0 0 H (Qeq_refl 0)).
  rewrite (Qltb_proper 1 1 x y (Qeq_refl 1) H).
  by repeat case_match.
Qed.

Lemma np_clip_min_max x : (np_clip x 0 1 == Qmin 1 (Qmax 0 x))%Q.
Proof.
  unfold np_clip.
  destruct (Qltb x 0) eqn:E0.
  - apply Qltb_lt in E0. rewrite Q.max_l by lra. rewrite Q.min_r by lra. done.
  - apply Qltb_ge in E0. rewrite Q.max_r by lra.
    destruct (Qltb 1 x) eqn:E1.
    + apply Qltb_lt in E1. rewrite Q.min_l by lra. done.
    + apply Qltb_ge in E1. rewrite Q.min_r by lra. done.
Qed.

Lemma enumerate_snoc {A} (l : list A) x :
  enumerate (l ++ [x]) = enumerate l ++ [(length l, x)].
Proof.
  unfold enumerate. rewrite length_app. simpl.
  rewrite seq_app. simpl. rewrite zip_with_app by (by rewrite length_seq).
  done.
Qed.

Lemma foldr_Qplus_app (l1 l2 : list Q) :
  (foldr Qplus 0 (l1 ++ l2) == foldr Qplus 0 l1 + foldr Qplus 0 l2)%Q.
Proof.
  induction l1 as [|x l1 IH]; simpl; [lra|]. rewrite IH. lra.
Qed.

Lemma blend_visible_sum vol colors visibility k :
  (blend vol colors visibility k
   == visible_sum (length colors) vol colors visibility k)%Q.
Proof.
  unfold blend, visible_sum.
  induction colors as [|col colors IH] using rev_ind; [done|].
  rewrite enumerate_snoc, fold_left_app, length_app. simpl.
  rewrite Nat.add_1_r, seq_S, filter_app, fmap_app, foldr_Qplus_app. simpl.
  assert ((λ c, vol c * component (default (0, 0, 0) ((colors ++ [col]) !! c)) k)%Q
            <$> filter (λ c, is_visible visibility c = true) (seq 0 (length colors))
          = (λ c, vol c * component (default (0, 0, 0) (colors !! c)) k)%Q
            <$> filter (λ c, is_visible visibility c = true) (seq 0 (length colors)))
    as ->.
  { apply list_fmap_ext. intros i c Hc.
    apply list_elem_of_lookup_2, list_elem_of_filter in Hc as [_ Hc].
    apply elem_of_seq in Hc. by rewrite lookup_app_l by lia. }
  rewrite <- IH. unfold blend_step at 1. simpl.
  rewrite filter_cons, filter_nil.
  destruct (is_visible visibility (length colors)) eqn:Ev.
  - rewrite decide_True by done. simpl.
    rewrite list_lookup_middle by done. simpl. lra.
  - rewrite decide_False by done. simpl. lra.
Qed.

(** The accumulated value only depends on the visible channels. *)
Lemma blend_step_fold_agree vol1 vol2 visibility k s
    (l1 l2 : list (Q * Q * Q)) acc :
  length l1 = length l2 →
  (∀ i, i < length l1 → is_visible visibility (s + i) = true →
        l1 !! i = l2 !! i ∧ vol1 (s + i) = vol2 (s + i)) →
  fold_left (blend_step vol1 visibility k) (zip (seq s (length l1)) l1) acc
  = fold_left (blend_step vol2 visibility k) (zip (seq s (length l2)) l2) acc.
Proof.
  revert l2 s acc. induction l1 as [|c1 l1 IH]; intros [|c2 l2] s acc Hlen H;
    simplify_eq/=; [done|].
  assert (blend_step vol1 visibility k acc (s, c1)
          = blend_step vol2 visibility k acc (s, c2)) as ->.
  { unfold blend_step. simpl. destruct (is_visible visibility s) eqn:Ev; [|done].
    destruct (H 0) as [Hc Hv]; [lia|by rewrite Nat.add_0_r|].
    rewrite Nat.add_0_r in Hv. simplify_eq/=. by rewrite Hv. }
  apply IH; [done|]. intros i Hi Hv.
  replace (S s + i) with (s + S i) in * by lia. apply (H (S i)); [lia|done].
Qed.

Lemma blend_agree vol1 vol2 visibility k (colors1 colors2 : list (Q * Q * Q)) :
  length colors1 = length colors2 →
  (∀ c, c < length colors1 → is_visible visibility c = true →
        colors1 !! c = colors2 !! c ∧ vol1 c = vol2 c) →
  blend vol1 colors1 visibility k = blend vol2 colors2 visibility k.
Proof.
  intros Hlen H. unfold blend, enumerate.
  by apply blend_step_fold_agree.
Qed.

Lemma blend_invisible vol visibility k (colors : list (Q * Q * Q)) :
  (∀ c, c < length colors → is_visible visibility c = false) →
  blend vol colors visibility k = 0%Q.
Proof.
  intros H. unfold blend.
  induction colors as [|col colors IH] using rev_ind; [done|].
  rewrite enumerate_snoc, fold_left_app. simpl.
  rewrite IH.
  - unfold blend_step. simpl. rewrite H; [done|]. rewrite length_app. simpl. lia.
  - intros c Hc. apply H. rewrite length_app. lia.
Qed.

(** ** Clamping to the unit interval *)

Lemma np_clip_mono x y : (x <= y)%Q → (np_clip x 0 1 <= np_clip y 0 1)%Q.
Proof.
  intros Hxy. unfold np_clip.
  destruct (Qltb x 0) eqn:Ex0, (Qltb y 0) eqn:Ey0,
           (Qltb 1 x) eqn:E1x, (Qltb 1 y) eqn:E1y;
    repeat match goal with
           | H : Qltb _ _ = true |- _ => apply Qltb_lt in H
           | H : Qltb _ _ = false |- _ => apply Qltb_ge in H
           end; lra.
Qed.

Lemma np_clip_id x : in_unit x → np_clip x 0 1 = x.
Proof.
  intros [H0 H1]. unfold np_clip.
  destruct (Qltb x 0) eqn:E0; [apply Qltb_lt in E0; lra|].
  destruct (Qltb 1 x) eqn:E1; [apply Qltb_lt in E1; lra|]. done.
Qed.

Lemma np_clip_low x : (x <= 0)%Q → (np_clip x 0 1 == 0)%Q.
Proof.
  intros H. unfold np_clip.
  destruct (Qltb x 0) eqn:E0; [done|]. apply Qltb_ge in E0.
  destruct (Qltb 1 x) eqn:E1; [apply Qltb_lt in E1; lra|]. lra.
Qed.

Lemma np_clip_high x : (1 <= x)%Q → (np_clip x 0 1 == 1)%Q.
Proof.
  intros H. unfold np_clip.
  destruct (Qltb x 0) eqn:E0; [apply Qltb_lt in E0; lra|].
  destruct (Qltb 1 x) eqn:E1; [done|]. apply Qltb_ge in E1. lra.
Qed.

(** * Floating point *)

(** ** Powers of two *)

Lemma pow2_pos k : (0 < 2 ^ k)%Q.
Proof. by apply Qpower_0_lt. Qed.

Lemma pow2_add a b : (2 ^ (a + b) == 2 ^ a * 2 ^ b)%Q.
Proof. by apply Qpower_plus. Qed.

Lemma pow2_sub a b : (2 ^ (a - b) == 2 ^ a / 2 ^ b)%Q.
Proof. by apply Qpower_minus. Qed.

Lemma pow2_le a b : (a ≤ b)%Z → (2 ^ a <= 2 ^ b)%Q.
Proof. intros. by apply Qpower_le_compat_l. Qed.

Lemma pow2_lt a b : (a < b)%Z → (2 ^ a < 2 ^ b)%Q.
Proof. intros. by apply Qpower_lt_compat_l. Qed.

Lemma pow2_le_inv a b : (2 ^ a <= 2 ^ b)%Q → (a ≤ b)%Z.
Proof.
  intros H. destruct (Z_le_gt_dec a b) as [|Hgt]; [done|].
  apply Z.gt_lt, pow2_lt in Hgt. lra.
Qed.

Lemma pow2_lt_inv a b : (2 ^ a < 2 ^ b)%Q → (a < b)%Z.
Proof.
  intros H. destruct (Z_lt_ge_dec a b) as [|Hge]; [done|].
  apply Z.ge_le, pow2_le in Hge. lra.
Qed.

Lemma pow2_inject k : (0 ≤ k)%Z → (inject_Z (2 ^ k) == 2 ^ k)%Q.
Proof. intros. by rewrite Zpower_Qpower. Qed.

Lemma pow2_0 : (2 ^ 0 == 1)%Q.
Proof. done. Qed.

Lemma pow2_succ k : (2 ^ (k + 1) == 2 * 2 ^ k)%Q.
Proof. rewrite pow2_add. change (2 ^ 1)%Q with 2%Q. ring. Qed.

Lemma pow2_pred k : (2 ^ (k - 1) == (1 # 2) * 2 ^ k)%Q.
Proof. rewrite pow2_sub. change (2 ^ 1)%Q with 2%Q. field. Qed.

(** ** The binary logarithm *)

Lemma Qlog2_spec a :
  (0 < a)%Q → (2 ^ Qlog2 a <= a)%Q ∧ (a < 2 ^ (Qlog2 a + 1))%Q.
Proof.
  intros Ha. destruct a as [n d]. 
  assert (0 < n)%Z as Hn.
  { unfold Qlt in Ha. simpl in Ha. lia. }
  unfold Qlog2. simpl Qnum. simpl Qden.
  destruct (Z.log2_spec n Hn) as [Hn1 Hn2].
  destruct (Z.log2_spec (Z.pos d) ltac:(lia)) as [Hd1 Hd2].
  pose proof (Z.log2_nonneg n) as Hln. pose proof (Z.log2_nonneg (Z.pos d)) as Hld.
  set (ln := Z.log2 n) in *. set (ld := Z.log2 (Z.pos d)) in *.
  assert (n # d == inject_Z n / inject_Z (Z.pos d))%Q as Hnd by apply Qmake_Qdiv.
  assert (0 < inject_Z (Z.pos d))%Q as Hdpos.
  { change 0%Q with (inject_Z 0). rewrite <- Zlt_Qlt. lia. }
  assert (2 ^ ln <= inject_Z n)%Q as Q1.
  { rewrite <- pow2_inject by done. by rewrite <- Zle_Qle. }
  assert (inject_Z n < 2 ^ (ln + 1))%Q as Q2.
  { rewrite <- pow2_inject by lia. rewrite <- Zlt_Qlt. by rewrite <- Z.add_1_r in Hn2. }
  assert (2 ^ ld <= inject_Z (Z.pos d))%Q as Q3.
  { rewrite <- pow2_inject by done. by rewrite <- Zle_Qle. }
  assert (inject_Z (Z.pos d) < 2 ^ (ld + 1))%Q as Q4.
  { rewrite <- pow2_inject by lia. rewrite <- Zlt_Qlt. by rewrite <- Z.add_1_r in Hd2. }
  pose proof (pow2_pos ld) as Pld. pose proof (pow2_pos ln) as Pln.
  pose proof (pow2_pos (ln - ld)) as Pk.
  assert (2 ^ (ln - ld) * 2 ^ ld == 2 ^ ln)%Q as E1.
  { rewrite <- pow2_add. by replace (ln - ld + ld)%Z with ln by lia. }
  assert (2 ^ (ln - ld + 1) == 2 * 2 ^ (ln - ld))%Q as E2 by apply pow2_succ.
  assert (2 ^ (ln - ld - 1) == (1 # 2) * 2 ^ (ln - ld))%Q as E3 by apply pow2_pred.
  rewrite pow2_succ in Q2, Q4.
  set (x := inject_Z n) in *. set (y := inject_Z (Z.pos d)) in *.
  set (p := (2 ^ (ln - ld))%Q) in *. set (pd := (2 ^ ld)%Q) in *.
  set (pn := (2 ^ ln)%Q) in *.
  assert (2 ^ (ln - ld) == p)%Q as Ep by done.
  clearbody x y p pd pn.
  assert (p * y < p * (2 * pd))%Q as B0 by (apply Qmult_lt_l; lra).
  assert (p * pd <= p * y)%Q as B0' by (apply Qmult_le_l; lra).
  assert ((1 # 2) * (p * y) < x)%Q as B1 by lra.
  assert (x < 2 * p * y)%Q as B2 by lra.
  destruct (Qle_bool p (n # d)) eqn:E.
  - apply Qle_bool_iff in E. split; [by rewrite Ep|].
    rewrite E2, Hnd. apply Qlt_shift_div_r; [done|]. lra.
  - assert (n # d < p)%Q as E'.
    { apply Qnot_le_lt. intros H. apply Qle_bool_iff in H. congruence. }
    replace (ln - ld - 1 + 1)%Z with (ln - ld)%Z by lia.
    split; [|by rewrite Ep]. rewrite E3, Hnd. apply Qle_shift_div_l; [done|]. lra.
Qed.

Lemma Qlog2_unique a k :
  (2 ^ k <= a)%Q → (a < 2 ^ (k + 1))%Q → Qlog2 a = k.
Proof.
  intros H1 H2.
  assert (0 < a)%Q as Ha by (pose proof (pow2_pos k); lra).
  destruct (Qlog2_spec a Ha) as [S1 S2].
  assert (Qlog2 a < k + 1)%Z by (apply pow2_lt_inv; lra).
  assert (k < Qlog2 a + 1)%Z by (apply pow2_lt_inv; lra).
  lia.
Qed.

Lemma Qlog2_proper a b : (0 < a)%Q → (a == b)%Q → Qlog2 a = Qlog2 b.
Proof.
  intros Ha E. destruct (Qlog2_spec a Ha) as [S1 S2].
  symmetry. apply Qlog2_unique; by rewrite <- E.
Qed.

Lemma Qlog2_mono a b : (0 < a)%Q → (a <= b)%Q → (Qlog2 a ≤ Qlog2 b)%Z.
Proof.
  intros Ha Hab. destruct (Qlog2_spec a Ha) as [S1 _].
  destruct (Qlog2_spec b ltac:(lra)) as [_ S2].
  assert (Qlog2 a < Qlog2 b + 1)%Z by (apply pow2_lt_inv; lra). lia.
Qed.

Lemma Qlog2_pow2 k : Qlog2 (2 ^ k) = k.
Proof. apply Qlog2_unique; [lra|]. apply pow2_lt. lia. Qed.

(** ** Rounding to the nearest integer *)

Lemma rne_proper y y' : (y == y')%Q → rne y = rne y'.
Proof.
  intros H. unfold rne. rewrite (Qfloor_comp _ _ H).
  assert (y - inject_Z (Qfloor y') == y' - inject_Z (Qfloor y'))%Q as E
    by (by rewrite H).
  by rewrite E.
Qed.

Lemma rne_cases y :
  (rne y = Qfloor y ∧ (y - inject_Z (Qfloor y) <= 1 # 2)%Q) ∨
  (rne y = (Qfloor y + 1)%Z ∧ (1 # 2 <= y - inject_Z (Qfloor y))%Q).
Proof.
  unfold rne. destruct (y - inject_Z (Qfloor y) ?= 1 # 2)%Q eqn:E.
  - apply Qeq_alt in E. destruct (Z.even (Qfloor y)); [left|right]; split;
      first [done | lra].
  - apply Qlt_alt in E. left. split; [done|lra].
  - apply Qgt_alt in E. right. split; [done|lra].
Qed.

Lemma rne_upper y : (inject_Z (rne y) <= y + (1 # 2))%Q.
Proof.
  pose proof (Qfloor_le y) as Hf. pose proof (Qlt_floor y) as Hc.
  rewrite inject_Z_plus in Hc.
  destruct (rne_cases y) as [[-> H]|[-> H]]; [lra|].
  rewrite inject_Z_plus. change (inject_Z 1) with 1%Q in *. lra.
Qed.

Lemma rne_lower y : (y - (1 # 2) <= inject_Z (rne y))%Q.
Proof.
  pose proof (Qfloor_le y) as Hf. pose proof (Qlt_floor y) as Hc.
  rewrite inject_Z_plus in Hc. change (inject_Z 1) with 1%Q in *.
  destruct (rne_cases y) as [[-> H]|[-> H]]; [lra|].
  rewrite inject_Z_plus. change (inject_Z 1) with 1%Q in *. lra.
Qed.

Lemma rne_Z n : rne (inject_Z n) = n.
Proof.
  unfold rne. rewrite Qfloor_Z.
  assert ((inject_Z n - inject_Z n ?= 1 # 2)%Q = Lt) as ->; [|done].
  rewrite <- Qlt_alt. lra.
Qed.

Lemma rne_mono y y' : (y <= y')%Q → (rne y ≤ rne y')%Z.
Proof.
  intros H. pose proof (Qfloor_resp_le _ _ H) as Hf.
  destruct (Z_le_lt_eq_dec _ _ Hf) as [Hlt|Heq].
  - destruct (rne_cases y) as [[-> _]|[-> _]], (rne_cases y') as [[-> _]|[-> _]];
      lia.
  - unfold rne. rewrite <- Heq.
    destruct (Qcompare_spec (y - inject_Z (Qfloor y)) (1 # 2)) as [E|E|E],
             (Qcompare_spec (y' - inject_Z (Qfloor y)) (1 # 2)) as [E'|E'|E'];
      try (destruct (Z.even (Qfloor y))); try lia; exfalso; lra.
Qed.

Lemma rne_le_Z y n : (y <= inject_Z n)%Q → (rne y ≤ n)%Z.
Proof. intros H. rewrite <- (rne_Z n). by apply rne_mono. Qed.

Lemma rne_ge_Z y n : (inject_Z n <= y)%Q → (n ≤ rne y)%Z.
Proof. intros H. rewrite <- (rne_Z n) at 1. by apply rne_mono. Qed.

Lemma rne_nonneg y : (0 <= y)%Q → (0 ≤ rne y)%Z.
Proof. intros. by apply rne_ge_Z. Qed.

(** ** Rounding to a format *)

Section rounding.
Variable F : format.
Hypothesis F_valid : valid_format F.

Lemma emin_nonpos : (emin F ≤ 1 - prec F)%Z.
Proof. destruct F_valid. unfold emin. lia. Qed.

Lemma ulp_exponent_proper a b :
  (0 < a)%Q → (a == b)%Q → ulp_exponent F a = ulp_exponent F b.
Proof. intros Ha E. unfold ulp_exponent. by rewrite (Qlog2_proper a b). Qed.

Lemma ulp_exponent_mono a b :
  (0 < a)%Q → (a <= b)%Q → (ulp_exponent F a ≤ ulp_exponent F b)%Z.
Proof.
  intros Ha Hab. unfold ulp_exponent.
  pose proof (Qlog2_mono a b Ha Hab). lia.
Qed.

Lemma round_magnitude_proper a b :
  (0 < a)%Q → (a == b)%Q → round_magnitude F a = round_magnitude F b.
Proof.
  intros Ha E. unfold round_magnitude.
  rewrite <- (ulp_exponent_proper a b Ha E).
  assert (a / 2 ^ ulp_exponent F a == b / 2 ^ ulp_exponent F a)%Q as E'
    by (by apply Qdiv_comp).
  by rewrite (rne_proper _ _ E').
Qed.

(** The scaled value lies below [2 ^ prec]; above the subnormal range it
    is at least [2 ^ (prec - 1)]. *)
Lemma scaled_upper a :
  (0 < a)%Q → (a / 2 ^ ulp_exponent F a <= inject_Z (2 ^ prec F))%Q.
Proof.
  intros Ha. destruct F_valid as [Hp _].
  destruct (Qlog2_spec a Ha) as [_ HL].
  pose proof (pow2_pos (ulp_exponent F a)) as He.
  apply Qle_shift_div_r; [done|].
  rewrite pow2_inject by lia. rewrite <- pow2_add.
  assert (2 ^ (Qlog2 a + 1) <= 2 ^ (prec F + ulp_exponent F a))%Q
    by (apply pow2_le; unfold ulp_exponent; lia).
  lra.
Qed.

Lemma scaled_lower a :
  (0 < a)%Q → (emin F < ulp_exponent F a)%Z →
  (inject_Z (2 ^ (prec F - 1)) <= a / 2 ^ ulp_exponent F a)%Q.
Proof.
  intros Ha Hsub. destruct F_valid as [Hp _].
  destruct (Qlog2_spec a Ha) as [HL _].
  pose proof (pow2_pos (ulp_exponent F a)) as He.
  apply Qle_shift_div_l; [done|].
  rewrite pow2_inject by lia. rewrite <- pow2_add.
  assert (2 ^ (prec F - 1 + ulp_exponent F a) <= 2 ^ Qlog2 a)%Q
    by (apply pow2_le; unfold ulp_exponent in *; lia).
  lra.
Qed.

Lemma round_magnitude_upper a :
  (0 < a)%Q → (round_magnitude F a <= 2 ^ (prec F + ulp_exponent F a))%Q.
Proof.
  intros Ha. destruct F_valid as [Hp _]. unfold round_magnitude.
  pose proof (rne_le_Z _ _ (scaled_upper a Ha)) as Hm.
  rewrite Zle_Qle in Hm. rewrite pow2_inject in Hm by lia.
  rewrite pow2_add. apply Qmult_le_compat_r; [done|].
  apply Qlt_le_weak, pow2_pos.
Qed.

Lemma round_magnitude_lower a :
  (0 < a)%Q → (emin F < ulp_exponent F a)%Z →
  (2 ^ (prec F - 1 + ulp_exponent F a) <= round_magnitude F a)%Q.
Proof.
  intros Ha Hsub. destruct F_valid as [Hp _]. unfold round_magnitude.
  pose proof (rne_ge_Z _ _ (scaled_lower a Ha Hsub)) as Hm.
  rewrite Zle_Qle in Hm. rewrite pow2_inject in Hm by lia.
  rewrite pow2_add. apply Qmult_le_compat_r; [done|].
  apply Qlt_le_weak, pow2_pos.
Qed.

Lemma round_magnitude_nonneg a : (0 < a)%Q → (0 <= round_magnitude F a)%Q.
Proof.
  intros Ha. unfold round_magnitude.
  pose proof (pow2_pos (ulp_exponent F a)) as He.
  apply Qmult_le_0_compat; [|lra].
  change 0%Q with (inject_Z 0). rewrite <- Zle_Qle. apply rne_nonneg.
  apply Qle_shift_div_l; [done|]. lra.
Qed.

Lemma round_magnitude_mono a b :
  (0 < a)%Q → (a <= b)%Q → (round_magnitude F a <= round_magnitude F b)%Q.
Proof.
  intros Ha Hab.
  pose proof (ulp_exponent_mono a b Ha Hab) as He.
  destruct (Z_le_lt_eq_dec _ _ He) as [Hlt|Heq].
  - pose proof (round_magnitude_upper a Ha) as Hu.
    pose proof (round_magnitude_lower b ltac:(lra)) as Hl.
    assert (emin F ≤ ulp_exponent F a)%Z by (unfold ulp_exponent; lia).
    specialize (Hl ltac:(lia)).
    assert (2 ^ (prec F + ulp_exponent F a)
            <= 2 ^ (prec F - 1 + ulp_exponent F b))%Q by (apply pow2_le; lia).
    lra.
  - unfold round_magnitude. rewrite <- Heq.
    pose proof (pow2_pos (ulp_exponent F a)) as Hp.
    apply Qmult_le_compat_r; [|lra]. rewrite <- Zle_Qle. apply rne_mono.
    unfold Qdiv. apply Qmult_le_compat_r; [done|].
    apply Qlt_le_weak, Qinv_lt_0_compat, Hp.
Qed.

(** A value that is at least the smallest float does not round to 0. *)
Lemma round_magnitude_pos a :
  (2 ^ emin F <= a)%Q → (0 < round_magnitude F a)%Q.
Proof.
  intros Ha. destruct F_valid as [Hp _].
  pose proof (pow2_pos (emin F)) as Hm.
  assert (0 < a)%Q as Ha0 by lra.
  destruct (Qlog2_spec a Ha0) as [HL _].
  pose proof (Qlog2_mono _ _ Hm Ha) as HL'. rewrite Qlog2_pow2 in HL'.
  pose proof (pow2_pos (ulp_exponent F a)) as He.
  unfold round_magnitude.
  assert (1 ≤ rne (a / 2 ^ ulp_exponent F a))%Z as H1.
  { apply rne_ge_Z. apply Qle_shift_div_l; [done|].
    assert (2 ^ ulp_exponent F a <= 2 ^ Qlog2 a)%Q
      by (apply pow2_le; unfold ulp_exponent; lia).
    change (inject_Z 1) with 1%Q. lra. }
  rewrite Zle_Qle in H1. change (inject_Z 1) with 1%Q in H1.
  set (m := inject_Z (rne (a / 2 ^ ulp_exponent F a))) in *.
  clearbody m. nra.
Qed.

(** The error of rounding is at most half a unit in the last place. *)
Lemma round_magnitude_error a :
  (0 < a)%Q →
  (Qabs (round_magnitude F a - a) <= (1 # 2) * 2 ^ ulp_exponent F a)%Q.
Proof.
  intros Ha. unfold round_magnitude.
  pose proof (pow2_pos (ulp_exponent F a)) as He.
  set (e := (2 ^ ulp_exponent F a)%Q) in *.
  pose proof (rne_upper (a / e)) as Hu. pose proof (rne_lower (a / e)) as Hl.
  set (m := inject_Z (rne (a / e))) in *. clearbody m.
  assert (a / e * e == a)%Q as Hae by (field; lra).
  set (s := (a / e)%Q) in *. clearbody s. clearbody e.
  apply Qabs_Qle_condition. split; nra.
Qed.

Lemma round_zero x : (x == 0)%Q → round F x = Fin 0.
Proof. intros H. unfold round. apply Qeq_bool_iff in H. by rewrite H. Qed.

Lemma round_pos_spec x :
  (0 < x)%Q →
  (round F x = Inf false ∧ (2 ^ emax F <= round_magnitude F x)%Q) ∨
  (∃ q, round F x = Fin q ∧ (q == round_magnitude F x)%Q ∧
        (round_magnitude F x < 2 ^ emax F)%Q).
Proof.
  intros Hx. unfold round.
  destruct (Qeq_bool x 0) eqn:E0; [apply Qeq_bool_iff in E0; lra|].
  assert (Qltb x 0 = false) as -> by (apply Qltb_ge; lra).
  assert (Qabs x == x)%Q as Ea by (apply Qabs_pos; lra).
  rewrite (round_magnitude_proper (Qabs x) x) by (rewrite ?Ea; done).
  destruct (Qle_bool (2 ^ emax F) (round_magnitude F x)) eqn:E.
  - left. apply Qle_bool_iff in E. done.
  - right. eexists. split; [done|]. split; [apply Qred_correct|].
    apply Qnot_le_lt. intros H. apply Qle_bool_iff in H. congruence.
Qed.

Lemma round_neg_spec x :
  (x < 0)%Q →
  (round F x = Inf true ∧ (2 ^ emax F <= round_magnitude F (- x))%Q) ∨
  (∃ q, round F x = Fin q ∧ (q == - round_magnitude F (- x))%Q ∧
        (round_magnitude F (- x) < 2 ^ emax F)%Q).
Proof.
  intros Hx. unfold round.
  destruct (Qeq_bool x 0) eqn:E0; [apply Qeq_bool_iff in E0; lra|].
  assert (Qltb x 0 = true) as -> by (by apply Qltb_lt).
  assert (Qabs x == - x)%Q as Ea by (apply Qabs_neg; lra).
  rewrite (round_magnitude_proper (Qabs x) (- x)) by (rewrite ?Ea; lra).
  destruct (Qle_bool (2 ^ emax F) (round_magnitude F (- x))) eqn:E.
  - left. apply Qle_bool_iff in E. done.
  - right. eexists. split; [done|]. split; [apply Qred_correct|].
    apply Qnot_le_lt. intros H. apply Qle_bool_iff in H. congruence.
Qed.

Lemma round_proper x y : (x == y)%Q → round F x = round F y.
Proof.
  intros E. unfold round.
  assert (Qeq_bool x 0 = Qeq_bool y 0) as ->.
  { destruct (Qeq_bool y 0) eqn:Ey.
    - apply Qeq_bool_iff. apply Qeq_bool_iff in Ey. by rewrite E.
    - apply not_true_is_false. intros Ex. apply Qeq_bool_iff in Ex.
      rewrite E in Ex. apply Qeq_bool_iff in Ex. congruence. }
  destruct (Qeq_bool y 0) eqn:Ey; [done|].
  assert (¬ y == 0)%Q as Hy.
  { intros H. apply Qeq_bool_iff in H. congruence. }
  rewrite (Qltb_proper x y 0 0 E (Qeq_refl 0)).
  assert (0 < Qabs x)%Q as Hax.
  { rewrite E. destruct (Qlt_le_dec 0 y).
    - by rewrite Qabs_pos by lra.
    - rewrite Qabs_neg by lra. destruct (Qeq_dec y 0); [done|lra]. }
  rewrite (round_magnitude_proper (Qabs x) (Qabs y) Hax) by (by rewrite E).
  done.
Qed.

Lemma round_nonneg x : (0 <= x)%Q → fle (Fin 0) (round F x).
Proof.
  intros Hx. destruct (Qle_lt_or_eq _ _ Hx) as [Hlt|Heq].
  - destruct (round_pos_spec x Hlt) as [[-> _]|(q & -> & Hq & _)]; simpl; [done|].
    pose proof (round_magnitude_nonneg x Hlt). lra.
  - rewrite (round_zero x) by done. simpl. lra.
Qed.

Lemma round_nonpos x : (x <= 0)%Q → fle (round F x) (Fin 0).
Proof.
  intros Hx. destruct (Qle_lt_or_eq _ _ Hx) as [Hlt|Heq].
  - destruct (round_neg_spec x Hlt) as [[-> _]|(q & -> & Hq & _)]; simpl; [done|].
    pose proof (round_magnitude_nonneg (- x) ltac:(lra)). lra.
  - rewrite (round_zero x) by done. simpl. lra.
Qed.

Lemma fle_trans x y z : fle x y → fle y z → fle x z.
Proof.
  destruct x as [a|[]|], y as [b|[]|], z as [c|[]|]; simpl;
    intros H1 H2; try done; try lra; try (by left); try (by right);
    try (destruct H1; done); try (destruct H2; done).
Qed.

Lemma fle_refl x : x ≠ NaN → fle x x.
Proof. destruct x as [a|[]|]; simpl; intros; try done; try lra; auto. Qed.

(** Rounding keeps the order. *)
Lemma round_mono x y : (x <= y)%Q → fle (round F x) (round F y).
Proof.
  intros Hxy.
  destruct (Qlt_le_dec x 0) as [Hx|Hx].
  - destruct (Qlt_le_dec y 0) as [Hy|Hy].
    + pose proof (round_magnitude_mono (- y) (- x) ltac:(lra) ltac:(lra)) as Hm.
      destruct (round_neg_spec x Hx) as [[-> _]|(q & -> & Hq & Hb)],
               (round_neg_spec y Hy) as [[-> Ho]|(q' & -> & Hq' & Hb')];
        simpl; auto; lra.
    + apply fle_trans with (Fin 0);
        [apply round_nonpos; lra|by apply round_nonneg].
  - destruct (Qle_lt_or_eq _ _ Hx) as [Hx'|Hx'].
    + pose proof (round_magnitude_mono x y Hx' Hxy) as Hm.
      destruct (round_pos_spec x Hx') as [[-> Ho]|(q & -> & Hq & Hb)],
               (round_pos_spec y ltac:(lra)) as [[-> Ho']|(q' & -> & Hq' & Hb')];
        simpl; auto; lra.
    + rewrite (round_zero x) by done. apply round_nonneg. lra.
Qed.

Lemma round_1 : round F 1 = Fin 1.
Proof.
  destruct F_valid as [Hp He]. pose proof emin_nonpos as Hm.
  assert (Qlog2 1 = 0%Z) as HL by (by apply Qlog2_unique).
  assert (round_magnitude F 1 == 1)%Q as E.
  { unfold round_magnitude, ulp_exponent. rewrite HL.
    replace (Z.max (0 - prec F + 1) (emin F)) with (1 - prec F)%Z by lia.
    assert (1 / 2 ^ (1 - prec F) == inject_Z (2 ^ (prec F - 1)))%Q as E'.
    { rewrite pow2_inject by lia.
      replace (prec F - 1)%Z with (0 - (1 - prec F))%Z by lia.
      rewrite (pow2_sub 0 (1 - prec F)). reflexivity. }
    rewrite (rne_proper _ _ E'), rne_Z.
    rewrite pow2_inject by lia. rewrite <- pow2_add.
    by replace (prec F - 1 + (1 - prec F))%Z with 0%Z by lia. }
  assert (1 < 2 ^ emax F)%Q as Hlt.
  { change 1%Q with (2 ^ 0)%Q. apply pow2_lt. lia. }
  unfold round. change (Qeq_bool 1 0) with false. change (Qltb 1 0) with false.
  change (Qabs 1) with 1%Q. cbv iota.
  destruct (Qle_bool (2 ^ emax F) (round_magnitude F 1)) eqn:Eo.
  - apply Qle_bool_iff in Eo. lra.
  - f_equal. by rewrite (Qred_complete _ 1 E).
Qed.

(** A value of the unit interval rounds into the unit interval. *)
Lemma round_unit x :
  (0 <= x)%Q → (x <= 1)%Q →
  ∃ y, round F x = Fin y ∧ (0 <= y)%Q ∧ (y <= 1)%Q.
Proof.
  intros H0 H1. pose proof (round_nonneg x H0) as Hl.
  pose proof (round_mono x 1 H1) as Hu. rewrite round_1 in Hu.
  destruct (round F x) as [y|[]|]; simpl in *; try done. by exists y.
Qed.

Lemma round_not_NaN x : round F x ≠ NaN.
Proof.
  pose proof (round_mono x x ltac:(lra)) as H. by destruct (round F x).
Qed.

(** Every float is a multiple of the smallest positive float. *)
Lemma round_magnitude_multiple a :
  (0 < a)%Q → ∃ k : Z, (round_magnitude F a == inject_Z k * 2 ^ emin F)%Q.
Proof.
  intros Ha. unfold round_magnitude.
  assert (emin F ≤ ulp_exponent F a)%Z as He by (unfold ulp_exponent; lia).
  exists (rne (a / 2 ^ ulp_exponent F a) * 2 ^ (ulp_exponent F a - emin F))%Z.
  rewrite inject_Z_mult, pow2_inject by lia. rewrite <- Qmult_assoc.
  rewrite <- pow2_add.
  by replace (ulp_exponent F a - emin F + emin F)%Z with (ulp_exponent F a) by lia.
Qed.

Lemma is_float_multiple x :
  is_float F x → ∃ k : Z, (x == inject_Z k * 2 ^ emin F)%Q.
Proof.
  unfold is_float. intros H.
  destruct (Q_dec x 0) as [[Hx|Hx]|Hx].
  - destruct (round_neg_spec x Hx) as [[E _]|(q & E & Hq & _)]; [congruence|].
    rewrite E in H. injection H as ->. rewrite Qred_correct in Hq.
    destruct (round_magnitude_multiple (- x) ltac:(lra)) as [k Hk].
    exists (- k)%Z. rewrite inject_Z_opp, Hq, Hk. ring.
  - destruct (round_pos_spec x Hx) as [[E _]|(q & E & Hq & _)]; [congruence|].
    rewrite E in H. injection H as ->. rewrite Qred_correct in Hq.
    destruct (round_magnitude_multiple x Hx) as [k Hk].
    exists k. by rewrite Hq, Hk.
  - exists 0%Z. rewrite Hx. ring.
Qed.

(** The difference of two distinct floats does not round to zero. *)
Lemma fsub_pos a b :
  is_float F a → is_float F b → (a < b)%Q →
  fsub F (Fin b) (Fin a) = Inf false ∨
  ∃ d, fsub F (Fin b) (Fin a) = Fin d ∧ (0 < d)%Q.
Proof.
  intros Ha Hb Hab.
  destruct (is_float_multiple a Ha) as [ka Hka].
  destruct (is_float_multiple b Hb) as [kb Hkb].
  pose proof (pow2_pos (emin F)) as Hm.
  assert (ka < kb)%Z as Hk.
  { rewrite Zlt_Qlt. set (u := inject_Z ka) in *. set (v := inject_Z kb) in *.
    clearbody u v. nra. }
  assert (2 ^ emin F <= b - a)%Q as Hd.
  { assert (1 ≤ kb - ka)%Z as H1 by lia.
    rewrite Zle_Qle in H1. unfold Z.sub in H1.
    rewrite inject_Z_plus, inject_Z_opp in H1.
    change (inject_Z 1) with 1%Q in H1.
    set (u := inject_Z ka) in *. set (v := inject_Z kb) in *.
    clearbody u v. nra. }
  simpl. pose proof (round_magnitude_pos (b - a) Hd) as Hpos.
  destruct (round_pos_spec (b - a) ltac:(lra)) as [[-> _]|(q & -> & Hq & _)];
    [by left|right].
  exists q. split; [done|lra].
Qed.

(** *** The error of rounding *)

Lemma round_magnitude_error_normal a :
  (0 < a)%Q → (emin F < ulp_exponent F a)%Z →
  (Qabs (round_magnitude F a - a) <= 2 ^ (- prec F) * a)%Q.
Proof.
  intros Ha Hsub. pose proof (round_magnitude_error a Ha) as He.
  destruct (Qlog2_spec a Ha) as [HL _].
  assert (ulp_exponent F a = Qlog2 a - prec F + 1)%Z as E
    by (unfold ulp_exponent in *; lia).
  rewrite E in He.
  assert (2 ^ (Qlog2 a - prec F + 1) == 2 * (2 ^ (- prec F) * 2 ^ Qlog2 a))%Q
    as E2.
  { rewrite pow2_succ, <- pow2_add.
    by replace (- prec F + Qlog2 a)%Z with (Qlog2 a - prec F)%Z by lia. }
  rewrite E2 in He. pose proof (pow2_pos (- prec F)) as Hu.
  set (u := (2 ^ (- prec F))%Q) in *. set (l := (2 ^ Qlog2 a)%Q) in *.
  clearbody u l.
  assert (u * l <= u * a)%Q by (apply Qmult_le_l; done).
  eapply Qle_trans; [exact He|]. lra.
Qed.

Lemma round_magnitude_exact a k :
  (0 < a)%Q → (a == inject_Z k * 2 ^ emin F)%Q →
  ulp_exponent F a = emin F → (round_magnitude F a == a)%Q.
Proof.
  intros Ha Hk He. unfold round_magnitude. rewrite He.
  pose proof (pow2_pos (emin F)) as Hm.
  assert (a / 2 ^ emin F == inject_Z k)%Q as E by (rewrite Hk; field; lra).
  by rewrite (rne_proper _ _ E), rne_Z, Hk.
Qed.

(** The error of rounding any value: a relative part and, in the
    subnormal range, an absolute part. *)
Lemma round_error x q :
  round F x = Fin q →
  (Qabs (q - x) <= 2 ^ (- prec F) * Qabs x + (1 # 2) * 2 ^ emin F)%Q.
Proof.
  intros H. pose proof (pow2_pos (- prec F)) as Hu.
  pose proof (pow2_pos (emin F)) as Hm.
  assert (∀ a, (0 < a)%Q →
    (Qabs (round_magnitude F a - a)
     <= 2 ^ (- prec F) * a + (1 # 2) * 2 ^ emin F)%Q) as Hmag.
  { intros a Ha.
    assert (emin F ≤ ulp_exponent F a)%Z as He by (unfold ulp_exponent; lia).
    destruct (Z_le_lt_eq_dec _ _ He) as [Hlt|Heq].
    - pose proof (round_magnitude_error_normal a Ha Hlt).
      set (u := (2 ^ (- prec F))%Q) in *. set (m := (2 ^ emin F)%Q) in *.
      clearbody u m. lra.
    - pose proof (round_magnitude_error a Ha) as Herr. rewrite <- Heq in Herr.
      set (u := (2 ^ (- prec F))%Q) in *. set (m := (2 ^ emin F)%Q) in *.
      clearbody u m. assert (0 <= u * a)%Q by nra. lra. }
  destruct (Q_dec x 0) as [[Hx|Hx]|Hx].
  - destruct (round_neg_spec x Hx) as [[E _]|(q' & E & Hq & _)]; [congruence|].
    rewrite E in H. injection H as ->.
    specialize (Hmag (- x) ltac:(lra)). rewrite (Qabs_neg x) by lra.
    assert (q - x == - (round_magnitude F (- x) - - x))%Q as ->
      by (rewrite Hq; ring).
    by rewrite Qabs_opp.
  - destruct (round_pos_spec x Hx) as [[E _]|(q' & E & Hq & _)]; [congruence|].
    rewrite E in H. injection H as ->.
    specialize (Hmag x Hx). rewrite (Qabs_pos x) by lra. by rewrite Hq.
  - rewrite (round_zero x Hx) in H. injection H as <-.
    assert (0 - x == 0)%Q as -> by (rewrite Hx; ring).
    rewrite Hx. change (Qabs 0) with 0%Q.
    set (u := (2 ^ (- prec F))%Q) in *. set (m := (2 ^ emin F)%Q) in *.
    clearbody u m. lra.
Qed.

(** A multiple of the smallest float (such as the difference of two
    floats) is rounded with a relative error only. *)
Lemma round_error_multiple x q k :
  (x == inject_Z k * 2 ^ emin F)%Q → round F x = Fin q →
  (Qabs (q - x) <= 2 ^ (- prec F) * Qabs x)%Q.
Proof.
  intros Hk H. pose proof (pow2_pos (- prec F)) as Hu.
  pose proof (pow2_pos (emin F)) as Hm.
  assert (∀ a k, (0 < a)%Q → (a == inject_Z k * 2 ^ emin F)%Q →
    (Qabs (round_magnitude F a - a) <= 2 ^ (- prec F) * a)%Q) as Hmag.
  { intros a k' Ha Hk'.
    assert (emin F ≤ ulp_exponent F a)%Z as He by (unfold ulp_exponent; lia).
    destruct (Z_le_lt_eq_dec _ _ He) as [Hlt|Heq].
    - by apply round_magnitude_error_normal.
    - rewrite (round_magnitude_exact a k' Ha Hk') by done.
      assert (a - a == 0)%Q as -> by ring. change (Qabs 0) with 0%Q.
      set (u := (2 ^ (- prec F))%Q) in *. clearbody u. nra. }
  destruct (Q_dec x 0) as [[Hx|Hx]|Hx].
  - destruct (round_neg_spec x Hx) as [[E _]|(q' & E & Hq & _)]; [congruence|].
    rewrite E in H. injection H as ->.
    specialize (Hmag (- x) (- k)%Z ltac:(lra)).
    rewrite (Qabs_neg x) by lra.
    assert (q - x == - (round_magnitude F (- x) - - x))%Q as ->
      by (rewrite Hq; ring).
    rewrite Qabs_opp. apply Hmag. rewrite inject_Z_opp, Hk. ring.
  - destruct (round_pos_spec x Hx) as [[E _]|(q' & E & Hq & _)]; [congruence|].
    rewrite E in H. injection H as ->.
    rewrite (Qabs_pos x) by lra. rewrite Hq. by apply (Hmag x k).
  - rewrite (round_zero x Hx) in H. injection H as <-.
    assert (0 - x == 0)%Q as -> by (rewrite Hx; ring).
    rewrite Hx. change (Qabs 0) with 0%Q. lra.
Qed.

End rounding.

(** ** Rounding on known values

    0.1 and 0.7 as numpy holds them, a tie rounded to the even significand
    in both directions, the smallest subnormal and half of it, and the
    overflow thresholds of the three formats. *)

Lemma round_table :
  round binary64 (1 # 10) = Fin (3602879701896397 # 36028797018963968) ∧
  round binary32 (7 # 10) = Fin (11744051 # 16777216) ∧
  round binary32 16777217 = Fin 16777216 ∧
  round binary32 16777219 = Fin 16777220 ∧
  round binary64 (2 ^ (-1074)) = Fin (2 ^ (-1074)) ∧
  round binary64 (2 ^ (-1075)) = Fin 0 ∧
  round binary16 65519 = Fin 65504 ∧
  round binary16 65520 = Inf false ∧
  round binary32 (2 ^ 128 - 2 ^ 103) = Inf false ∧
  round binary64 (- (2 ^ 1024 - 2 ^ 970)) = Inf true ∧
  round binary64 (2 ^ 1024 - 2 ^ 970 - 1) = Fin (2 ^ 1024 - 2 ^ 971).
Proof. repeat split; vm_compute; reflexivity. Qed.

(** ** Operations on floats *)

Lemma binary32_valid : valid_format binary32.
Proof. split; simpl; lia. Qed.

Lemma binary64_valid : valid_format binary64.
Proof. split; simpl; lia. Qed.

Lemma round_canonical (F : format) x y : round F x = Fin y → Qred y = y.
Proof.
  unfold round. destruct (Qeq_bool x 0); [by intros [= <-]|].
  destruct (Qle_bool _ _); [done|]. intros [= <-].
  apply Qred_complete, Qred_correct.
Qed.

Lemma cast_canonical (F : format) x y : cast F x = Fin y → Qred y = y.
Proof. destruct x; simpl; [apply round_canonical|done..]. Qed.

Lemma cast_eq_Fin (F : format) x y z :
  cast F x = Fin y → (y == z)%Q → cast F x = Fin (Qred z).
Proof.
  intros H E. rewrite H. f_equal. rewrite <- (cast_canonical F x y H).
  by apply Qred_complete.
Qed.

Lemma fclip_unit x :
  x ≠ NaN → ∃ c, fclip x (Fin 0) (Fin 1) = Fin c ∧ (0 <= c)%Q ∧ (c <= 1)%Q.
Proof.
  intros Hx. destruct x as [a|[]|]; [| | |done].
  - unfold fclip, fmaximum, fminimum. simpl.
    destruct (Qltb a 0) eqn:E0; simpl.
    + exists 0%Q. split; [done|lra].
    + apply Qltb_ge in E0. destruct (Qltb 1 a) eqn:E1.
      * exists 1%Q. split; [done|lra].
      * apply Qltb_ge in E1. by exists a.
  - exists 0%Q. split; [done|lra].
  - exists 1%Q. split; [done|lra].
Qed.

Lemma fclip_mono x y :
  fle x y → fle (fclip x (Fin 0) (Fin 1)) (fclip y (Fin 0) (Fin 1)).
Proof.
  destruct x as [a|[]|], y as [b|[]|]; simpl; intros H; try done;
    try (by destruct H);
    unfold fclip, fmaximum, fminimum; simpl;
    repeat match goal with
           | |- context [Qltb ?u ?v] => destruct (Qltb u v) eqn:?; simpl
           end;
    repeat match goal with
           | H : Qltb _ _ = true |- _ => apply Qltb_lt in H
           | H : Qltb _ _ = false |- _ => apply Qltb_ge in H
           end; lra.
Qed.

Lemma cast_mono (F : format) x y :
  valid_format F → fle x y → fle (cast F x) (cast F y).
Proof.
  intros HF. destruct x as [a|[]|], y as [b|[]|]; simpl; try done.
  - by apply round_mono.
  - intros _. pose proof (round_not_NaN F HF a).
    destruct (round F a) as [?|[]|]; simpl; auto.
  - intros _. pose proof (round_not_NaN F HF b).
    destruct (round F b) as [?|[]|]; simpl; auto.
Qed.

Section kernel.
Variable F : format.
Hypothesis F_valid : valid_format F.

Lemma fsub_mono x y m :
  fle x y → fle (fsub F x (Fin m)) (fsub F y (Fin m)).
Proof.
  destruct x as [a|[]|], y as [b|[]|]; simpl; try done.
  - intros H. apply round_mono; [done|lra].
  - intros _. pose proof (round_not_NaN F F_valid (a - m)).
    destruct (round F (a - m)) as [?|[]|]; simpl; auto.
  - intros _. pose proof (round_not_NaN F F_valid (b - m)).
    destruct (round F (b - m)) as [?|[]|]; simpl; auto.
Qed.

Lemma fdiv_mono x y d :
  (0 < d)%Q → fle x y → fle (fdiv F x (Fin d)) (fdiv F y (Fin d)).
Proof.
  intros Hd.
  assert (Qeq_bool d 0 = false) as E0.
  { apply not_true_is_false. intros H. apply Qeq_bool_iff in H. lra. }
  assert (Qltb d 0 = false) as E1 by (apply Qltb_ge; lra).
  destruct x as [a|[]|], y as [b|[]|]; simpl; rewrite ?E0, ?E1; simpl;
    try done.
  - intros H. apply round_mono; [done|]. unfold Qdiv.
    apply Qmult_le_compat_r; [done|].
    apply Qlt_le_weak, Qinv_lt_0_compat, Hd.
  - intros _. pose proof (round_not_NaN F F_valid (a / d)).
    destruct (round F (a / d)) as [?|[]|]; simpl; auto.
  - intros _. pose proof (round_not_NaN F F_valid (b / d)).
    destruct (round F (b / d)) as [?|[]|]; simpl; auto.
Qed.

(** *** One sample *)

Variables vmin vmax d : Q.
Hypothesis range_finite : fsub F (Fin vmax) (Fin vmin) = Fin d.
Hypothesis range_pos : (0 < d)%Q.

Lemma normalize_sample_mono v w :
  fle v w →
  fle (normalize_sample F (Fin vmin) (Fin vmax) v)
      (normalize_sample F (Fin vmin) (Fin vmax) w).
Proof.
  intros H. unfold normalize_sample. rewrite range_finite.
  apply cast_mono; [apply binary32_valid|].
  by apply fclip_mono, fdiv_mono, fsub_mono.
Qed.

Lemma normalize_sample_vmin :
  normalize_sample F (Fin vmin) (Fin vmax) (Fin vmin) = Fin 0.
Proof.
  unfold normalize_sample. rewrite range_finite. simpl.
  rewrite (round_zero F (vmin - vmin)) by ring. simpl.
  assert (Qeq_bool d 0 = false) as ->.
  { apply not_true_is_false. intros H. apply Qeq_bool_iff in H. lra. }
  rewrite (round_zero F (0 / d)) by (field; lra). reflexivity.
Qed.

Lemma normalize_sample_vmax :
  normalize_sample F (Fin vmin) (Fin vmax) (Fin vmax) = Fin 1.
Proof.
  unfold normalize_sample. rewrite range_finite. simpl.
  assert (Qeq_bool d 0 = false) as ->.
  { apply not_true_is_false. intros H. apply Qeq_bool_iff in H. lra. }
  rewrite (round_proper F (d / d) 1) by (field; lra).
  rewrite (round_1 F F_valid). reflexivity.
Qed.

Lemma normalize_sample_unit v :
  v ≠ NaN →
  ∃ y, normalize_sample F (Fin vmin) (Fin vmax) v = Fin y ∧
       (0 <= y)%Q ∧ (y <= 1)%Q.
Proof.
  intros Hv. unfold normalize_sample. rewrite range_finite.
  assert (fdiv F (fsub F v (Fin vmin)) (Fin d) ≠ NaN) as Hr.
  { assert (fle v v) as Hvv by (by apply fle_refl).
    pose proof (fdiv_mono _ _ d range_pos (fsub_mono v v vmin Hvv)) as H.
    by destruct (fdiv F (fsub F v (Fin vmin)) (Fin d)). }
  destruct (fclip_unit _ Hr) as (c & -> & H0 & H1). simpl.
  by apply round_unit; [apply binary32_valid|..].
Qed.

Lemma normalize_sample_low v :
  fle v (Fin vmin) → normalize_sample F (Fin vmin) (Fin vmax) v = Fin 0.
Proof.
  intros Hv. pose proof (normalize_sample_mono _ _ Hv) as H.
  rewrite normalize_sample_vmin in H.
  destruct (normalize_sample_unit v) as (y & E & H0 & H1);
    [by destruct v|].
  rewrite E in H. simpl in H.
  apply (cast_eq_Fin binary32 _ y 0 E). lra.
Qed.

Lemma normalize_sample_high v :
  fle (Fin vmax) v → normalize_sample F (Fin vmin) (Fin vmax) v = Fin 1.
Proof.
  intros Hv. pose proof (normalize_sample_mono _ _ Hv) as H.
  rewrite normalize_sample_vmax in H.
  destruct (normalize_sample_unit v) as (y & E & H0 & H1);
    [by destruct v as [?|[]|]|].
  rewrite E in H. simpl in H.
  apply (cast_eq_Fin binary32 _ y 1 E). lra.
Qed.

(** *** The distance to the exact quotient *)

Lemma quotient_error (u ns ds nq dq : Q) :
  (0 < u)%Q → (u <= 1 # 4)%Q →
  (0 < ns)%Q → (ns < ds)%Q →
  (Qabs (nq - ns) <= u * ns)%Q → (Qabs (dq - ds) <= u * ds)%Q →
  (0 < dq)%Q ∧ (Qabs (nq / dq - ns / ds) <= (8 # 3) * u)%Q.
Proof.
  intros Hu Hu4 Hn Hnd Hen Hed.
  apply Qabs_Qle_condition in Hen as [Hn1 Hn2].
  apply Qabs_Qle_condition in Hed as [Hd1 Hd2].
  assert (0 <= u * ds)%Q by nra. assert (0 <= u * ns)%Q by nra.
  assert ((3 # 4) * ds <= dq)%Q as Hdq by nra.
  assert (0 < dq)%Q as Hdpos by lra.
  split; [done|].
  assert (nq / dq - ns / ds == (nq * ds - ns * dq) / (dq * ds))%Q as ->
    by (field; lra).
  assert (0 < dq * ds)%Q as Hprod by nra.
  assert (ds * ds <= (4 # 3) * (dq * ds))%Q as Hsq by nra.
  assert (ns * ds <= ds * ds)%Q as Hns by nra.
  assert (u * (ns * ds) <= u * ((4 # 3) * (dq * ds)))%Q as Hb
    by (apply Qmult_le_l; lra).
  apply Qabs_Qle_condition. split.
  - apply Qle_shift_div_l; [done|]. nra.
  - apply Qle_shift_div_r; [done|]. nra.
Qed.

Lemma emin_small : ((1 # 2) * 2 ^ emin F <= (1 # 2) * 2 ^ (- prec F))%Q.
Proof.
  destruct F_valid. apply Qmult_le_l; [done|]. apply pow2_le. unfold emin. lia.
Qed.

Lemma prec_small : (2 ^ (- prec F) <= 1 # 4)%Q.
Proof.
  destruct F_valid. change (1 # 4)%Q with (2 ^ (-2))%Q. apply pow2_le. lia.
Qed.

Hypothesis vmin_float : is_float F vmin.
Hypothesis vmax_float : is_float F vmax.

Lemma range_exact_pos : (vmin < vmax)%Q.
Proof.
  apply Qnot_le_lt. intros H.
  pose proof (round_nonpos F (vmax - vmin) ltac:(lra)) as Hr.
  simpl in range_finite. rewrite range_finite in Hr. simpl in Hr. lra.
Qed.

(** The float result is within rounding distance of the exact
    [clip((v - vmin) / (vmax - vmin), 0, 1)]. *)
Lemma normalize_sample_error v :
  is_float F v →
  ∃ y, normalize_sample F (Fin vmin) (Fin vmax) (Fin v) = Fin y ∧
       (Qabs (y - np_clip ((v - vmin) / (vmax - vmin)) 0 1)
        <= 2 ^ (3 - prec F) + 2 ^ (-23))%Q.
Proof.
  intros Hv. pose proof range_exact_pos as Hlt.
  pose proof (pow2_pos (3 - prec F)) as He.
  assert (0 < 2 ^ (-23))%Q as He' by done.
  destruct (Qlt_le_dec vmin v) as [Hlo|Hlo];
    [destruct (Qlt_le_dec v vmax) as [Hhi|Hhi]|].
  - (* inside the window *)
    destruct (is_float_multiple F _ Hv) as [kv Hkv].
    destruct (is_float_multiple F _ vmin_float) as [kmin Hkmin].
    destruct (is_float_multiple F _ vmax_float) as [kmax Hkmax].
    pose proof prec_small as Hu4. pose proof emin_small as Heta.
    pose proof (pow2_pos (- prec F)) as Hu. pose proof (pow2_pos (emin F)) as Hm.
    assert (2 ^ (3 - prec F) == 8 * 2 ^ (- prec F))%Q as E8.
    { replace (3 - prec F)%Z with (3 + - prec F)%Z by lia. by rewrite pow2_add. }
    set (ns := (v - vmin)%Q). set (ds := (vmax - vmin)%Q).
    assert (0 < ns)%Q as Hns by (unfold ns; lra).
    assert (ns < ds)%Q as Hnd by (unfold ns, ds; lra).
    (* the numerator *)
    pose proof (round_mono F F_valid ns ds ltac:(lra)) as Hmono.
    pose proof (round_nonneg F ns ltac:(lra)) as Hnn.
    simpl in range_finite. fold ds in range_finite. rewrite range_finite in Hmono.
    destruct (round F ns) as [nq|[]|] eqn:En; simpl in Hmono, Hnn; try done.
    assert (ns == inject_Z (kv - kmin) * 2 ^ emin F)%Q as Hkn.
    { unfold ns, Z.sub. rewrite inject_Z_plus, inject_Z_opp, Hkv, Hkmin. ring. }
    assert (ds == inject_Z (kmax - kmin) * 2 ^ emin F)%Q as Hkd.
    { unfold ds, Z.sub. rewrite inject_Z_plus, inject_Z_opp, Hkmax, Hkmin. ring. }
    pose proof (round_error_multiple F ns nq _ Hkn En) as Hen.
    pose proof (round_error_multiple F ds d _ Hkd range_finite) as Hed.
    rewrite (Qabs_pos ns) in Hen by lra. rewrite (Qabs_pos ds) in Hed by lra.
    destruct (quotient_error _ ns ds nq d Hu Hu4 Hns Hnd Hen Hed) as [_ Hq].
    (* the quotient *)
    assert (0 <= nq / d)%Q as Hr0 by (apply Qle_shift_div_l; lra).
    assert (nq / d <= 1)%Q as Hr1 by (apply Qle_shift_div_r; lra).
    destruct (round_unit F F_valid (nq / d) Hr0 Hr1) as (rq & Er & Hrq0 & Hrq1).
    pose proof (round_error F _ _ Er) as Her.
    rewrite (Qabs_pos (nq / d)) in Her by done.
    (* the conversion *)
    destruct (round_unit binary32 binary32_valid rq Hrq0 Hrq1)
      as (y & Ey & Hy0 & Hy1).
    pose proof (round_error binary32 _ _ Ey) as Hey.
    rewrite (Qabs_pos rq) in Hey by done.
    assert (normalize_sample F (Fin vmin) (Fin vmax) (Fin v) = Fin y) as EK.
    { unfold normalize_sample. simpl. fold ns ds. rewrite En, range_finite.
      simpl.
      assert (Qeq_bool d 0 = false) as ->.
      { apply not_true_is_false. intros H. apply Qeq_bool_iff in H. lra. }
      rewrite Er. unfold fclip, fmaximum, fminimum. simpl.
      assert (Qltb rq 0 = false) as -> by (by apply Qltb_ge).
      simpl. assert (Qltb 1 rq = false) as -> by (by apply Qltb_ge).
      exact Ey. }
    exists y. split; [exact EK|].
    rewrite np_clip_id.
    2:{ fold ns ds. split; [apply Qle_shift_div_l; lra|apply Qle_shift_div_r; lra]. }
    fold ns ds. rewrite E8.
    apply Qabs_Qle_condition in Hq as [Hq1 Hq2].
    apply Qabs_Qle_condition in Her as [Her1 Her2].
    apply Qabs_Qle_condition in Hey as [Hey1 Hey2].
    change (2 ^ (- prec binary32))%Q with (1 # 16777216)%Q in *.
    assert ((1 # 2) * 2 ^ emin binary32 <= 1 # 16777216)%Q as H32 by done.
    change (2 ^ (-23))%Q with (1 # 8388608)%Q.
    set (u := (2 ^ (- prec F))%Q) in *. set (eta := ((1 # 2) * 2 ^ emin F)%Q) in *.
    set (eta32 := ((1 # 2) * 2 ^ emin binary32)%Q) in *.
    set (r := (nq / d)%Q) in *. set (t := (ns / ds)%Q) in *.
    clearbody u eta eta32 r t.
    assert (u * r <= u * 1)%Q by (apply Qmult_le_l; lra).
    assert ((1 # 16777216) * rq <= (1 # 16777216) * 1)%Q by (apply Qmult_le_l; lra).
    apply Qabs_Qle_condition. split; lra.
  - (* at or above vmax *)
    exists 1%Q. split; [by apply normalize_sample_high|].
    assert (np_clip ((v - vmin) / (vmax - vmin)) 0 1 == 1)%Q as ->.
    { apply np_clip_high. apply Qle_shift_div_l; lra. }
    assert (1 - 1 == 0)%Q as -> by ring. change (Qabs 0) with 0%Q. lra.
  - (* at or below vmin *)
    exists 0%Q. split; [by apply normalize_sample_low|].
    assert (np_clip ((v - vmin) / (vmax - vmin)) 0 1 == 0)%Q as ->.
    { apply np_clip_low. apply Qle_shift_div_r; lra. }
    change (Qabs (0 - 0)) with 0%Q. lra.
Qed.

End kernel.

(** * The claims *)

(** C1.  Lines 16-19 on the samples [ch] of one channel, evaluated in the
    floating-point format [F] of the data, with [vmin] and [vmax] the two
    floats [np.percentile] returned.  When [vmax > vmin] and the range
    [vmax - vmin] does not overflow, every sample that is not NaN gives a
    number of [0,1]: exactly 0 for samples up to [vmin], exactly 1 for
    samples from [vmax] on, and for a float sample a number within
    [2^(3 - prec) + 2^-23] of [clip((v - vmin) / (vmax - vmin), 0, 1)]. *)
Theorem normalize_nondegenerate (F : format) (ch : list fp) (vmin vmax : Q) :
  valid_format F →
  is_float F vmin → is_float F vmax →
  fltb (Fin vmin) (Fin vmax) = true →
  fsub F (Fin vmax) (Fin vmin) ≠ Inf false →
  let out := normalize_samples F ch (Fin vmin) (Fin vmax) in
  length out = length ch ∧
  ∀ i v, ch !! i = Some v → v ≠ NaN →
    ∃ y, out !! i = Some (Fin y) ∧
      (0 <= y)%Q ∧ (y <= 1)%Q ∧
      (fle v (Fin vmin) → y = 0%Q) ∧
      (fle (Fin vmax) v → y = 1%Q) ∧
      (∀ q, v = Fin q → is_float F q →
         (Qabs (y - np_clip ((q - vmin) / (vmax - vmin)) 0 1)
          <= 2 ^ (3 - prec F) + 2 ^ (-23))%Q).
Proof.
  intros HF Hmin Hmax Hlt Hfin out.
  pose proof Hlt as Hlt'. simpl in Hlt'. apply Qltb_lt in Hlt'.
  destruct (fsub_pos F HF vmin vmax Hmin Hmax Hlt') as [E|(d & Ed & Hd)];
    [done|].
  subst out. unfold normalize_samples. rewrite Hlt. split.
  - by rewrite length_fmap.
  - intros i v Hi Hv. rewrite list_lookup_fmap, Hi. simpl.
    destruct (normalize_sample_unit F HF vmin vmax d Ed Hd v Hv)
      as (y & Ey & H0 & H1).
    exists y. split; [by rewrite Ey|]. split; [done|]. split; [done|].
    split; [|split].
    + intros Hlow.
      rewrite (normalize_sample_low F HF vmin vmax d Ed Hd v Hlow) in Ey.
      by injection Ey.
    + intros Hhigh.
      rewrite (normalize_sample_high F HF vmin vmax d Ed Hd v Hhigh) in Ey.
      by injection Ey.
    + intros q -> Hq.
      destruct (normalize_sample_error F HF vmin vmax d Ed Hd Hmin Hmax q Hq)
        as (y' & Ey' & Herr).
      rewrite Ey in Ey'. by injection Ey' as <-.
Qed.

(** C1 as stated fails: for the float64 channel [-2^1023, 0, 2^1023] and
    the window (0, 100) the percentiles are the two extremes and
    [vmax > vmin], but the range overflows and the third output sample is
    NaN, where the claim states [clip(1, 0, 1) = 1]. *)
Lemma normalize_overflow_nan :
  let lo := (- 2 ^ 1023)%Q in
  let hi := (2 ^ 1023)%Q in
  (∃ vmin vmax,
     np_percentile [lo; 0%Q; hi] 0 = Ok vmin ∧ (vmin == lo)%Q ∧
     np_percentile [lo; 0%Q; hi] 100 = Ok vmax ∧ (vmax == hi)%Q) ∧
  is_float binary64 lo ∧ is_float binary64 hi ∧
  fltb (Fin lo) (Fin hi) = true ∧
  fsub binary64 (Fin hi) (Fin lo) = Inf false ∧
  normalize_samples binary64 [Fin lo; Fin 0; Fin hi] (Fin lo) (Fin hi)
    = [Fin 0; Fin 0; NaN] ∧
  (np_clip ((hi - lo) / (hi - lo)) 0 1 == 1)%Q.
Proof.
  split.
  { eexists _, _. split; [vm_compute; reflexivity|].
    split; [vm_compute; reflexivity|]. split; vm_compute; reflexivity. }
  repeat split; vm_compute; reflexivity.
Qed.


Lemma visibility_defined (visibility : list bool) (colors : list (Q * Q * Q)) C :
  length colors ≤ length visibility →
  length colors ≤ C →
  ∀ c, c < length colors →
    ∃ vis, visibility !! c = Some vis ∧ (vis = true → c < C).
Proof.
  intros Hv Hc c Hlt.
  destruct (lookup_lt_is_Some_2 visibility c) as [vis Hvis]; [lia|].
  exists vis. split; [done|]. lia.
Qed.

(** C3.  For a live normalised volume and colour and visibility lists of
    length [C], [multichannel_to_rgb_stack] returns an array of shape
    (Z, X, Y, 3) whose sample [z, x, y, k] is the sum, over the visible
    channels [c], of [volume[z, c, x, y] * color[c][k]], clamped to [0,1]
    once after the whole sum; so every sample lies in [0,1]. *)
Theorem render_clamped_sum h volume Z C X Y colors visibility :
  is_Some (h !! base volume) →
  shape volume = [Z; C; X; Y] →
  length colors = C →
  length visibility = C →
  ∃ h' out,
    multichannel_to_rgb_stack volume colors visibility h = (h', Ok out) ∧
    shape out = [Z; X; Y; 3] ∧
    ∀ z x y k, z < Z → x < X → y < Y → k < 3 →
      (load h' out [z; x; y; k]
       == Qmin 1 (Qmax 0 (visible_sum C (λ c, load h volume [z; c; x; y])
                            colors visibility k)))%Q ∧
      in_unit (load h' out [z; x; y; k]).
Proof.
  intros Hlive Hs Hlc Hlv.
  destruct (render_run h volume Z C X Y colors visibility Hlive Hs)
    as (buf & Erun & Hbuf).
  { apply visibility_defined; lia. }
  eexists _, _. split; [exact Erun|]. split; [done|].
  intros z x y k Hz Hx Hy Hk. rewrite load_insert_eq by done. simpl.
  rewrite Hbuf by done. split; [|apply np_clip_unit].
  rewrite <- np_clip_min_max. apply np_clip_unit_proper.
  rewrite <- Hlc. apply blend_visible_sum.
Qed.

(** C7.  Two runs of [multichannel_to_rgb_stack] whose volumes and colours
    agree on every channel that is visible return the same shape and the
    same samples, whatever the data and colours of the hidden channels; and
    when no channel is visible every sample is 0. *)
Theorem render_ignores_hidden h1 h2 vol1 vol2 Z C X Y colors1 colors2 visibility :
  is_Some (h1 !! base vol1) →
  is_Some (h2 !! base vol2) →
  shape vol1 = [Z; C; X; Y] →
  shape vol2 = [Z; C; X; Y] →
  length colors1 = C → length colors2 = C → length visibility = C →
  (∀ c, visibility !! c = Some true →
     colors1 !! c = colors2 !! c ∧
     ∀ z x y, z < Z → x < X → y < Y →
       load h1 vol1 [z; c; x; y] = load h2 vol2 [z; c; x; y]) →
  ∃ h1' h2' out1 out2,
    multichannel_to_rgb_stack vol1 colors1 visibility h1 = (h1', Ok out1) ∧
    multichannel_to_rgb_stack vol2 colors2 visibility h2 = (h2', Ok out2) ∧
    shape out1 = shape out2 ∧
    (∀ z x y k, z < Z → x < X → y < Y → k < 3 →
       load h1' out1 [z; x; y; k] = load h2' out2 [z; x; y; k]) ∧
    ((∀ c, c < C → visibility !! c = Some false) →
     ∀ z x y k, z < Z → x < X → y < Y → k < 3 →
       load h1' out1 [z; x; y; k] = 0%Q).
Proof.
  intros Hlive1 Hlive2 Hs1 Hs2 Hlc1 Hlc2 Hlv Hagree.
  destruct (render_run h1 vol1 Z C X Y colors1 visibility Hlive1 Hs1)
    as (buf1 & Erun1 & Hbuf1); [apply visibility_defined; lia|].
  destruct (render_run h2 vol2 Z C X Y colors2 visibility Hlive2 Hs2)
    as (buf2 & Erun2 & Hbuf2); [apply visibility_defined; lia|].
  eexists _, _, _, _. split; [exact Erun1|]. split; [exact Erun2|].
  split; [done|]. split.
  - intros z x y k Hz Hx Hy Hk. rewrite !load_insert_eq by done. simpl.
    rewrite Hbuf1, Hbuf2 by done. f_equal.
    apply blend_agree; [congruence|]. intros c Hc Hvis.
    unfold is_visible in Hvis.
    destruct (visibility !! c) as [[|]|] eqn:Ev; simplify_eq/=.
    destruct (Hagree c Ev) as [Hcol Hload]. split; [done|]. by apply Hload.
  - intros Hnone z x y k Hz Hx Hy Hk. rewrite load_insert_eq by done. simpl.
    rewrite Hbuf1 by done. rewrite blend_invisible; [done|].
    intros c Hc. unfold is_visible. rewrite Hnone by lia. done.
Qed.

(** C9.  Neither transform writes into a block that existed before the
    call: every such block, the input's included, holds the same samples
    after the run, also when the run raises; and the array returned is on
    a block that was not allocated before. *)
Theorem transforms_leave_input_unchanged h volume percentiles colors visibility :
  (let run := normalize_channels_with_percentiles volume percentiles h in
   (∀ l, is_Some (h !! l) → run.1 !! l = h !! l) ∧
   (is_Some (h !! base volume) → ∀ idx, load run.1 volume idx = load h volume idx) ∧
   (∀ out, run.2 = Ok out → h !! base out = None ∧ is_Some (run.1 !! base out))) ∧
  (let run := multichannel_to_rgb_stack volume colors visibility h in
   (∀ l, is_Some (h !! l) → run.1 !! l = h !! l) ∧
   (is_Some (h !! base volume) → ∀ idx, load run.1 volume idx = load h volume idx) ∧
   (∀ out, run.2 = Ok out → h !! base out = None ∧ is_Some (run.1 !! base out))).
Proof.
  assert (h !! fresh (dom h) = None) as Hfresh.
  { apply not_elem_of_dom, is_fresh. }
  split.
  - destruct (normalize_footprint volume percentiles h) as [Hframe Hout].
    simpl. split; [|split].
    + intros l Hl. apply Hframe. by apply fresh_ne.
    + intros Hl idx. unfold load, deref. rewrite Hframe; [done|by apply fresh_ne].
    + intros out Ho. destruct (Hout out Ho) as [-> Hs]. done.
  - destruct (render_footprint volume colors visibility h) as [Hframe Hout].
    simpl. split; [|split].
    + intros l Hl. apply Hframe. by apply fresh_ne.
    + intros Hl idx. unfold load, deref. rewrite Hframe; [done|by apply fresh_ne].
    + intros out Ho. destruct (Hout out Ho) as (-> & _ & Hs). done.
Qed.

(** ** The shape check *)

Lemma resolve_shape_4d img : ndim img = 4 → resolve_shape img = Ok img.
Proof. intros H4. unfold resolve_shape. rewrite H4. simpl. by rewrite H4. Qed.

Lemma resolve_shape_5d img :
  ndim img = 5 → shape img !! 0 = Some 1 →
  ∃ v, resolve_shape img = Ok v ∧ ndim v = 4 ∧
       shape img = 1 :: shape v ∧ base v = base img ∧
       ∀ h idx, load h v idx = load h img (0 :: idx).
Proof.
  unfold resolve_shape, ndim. intros H5 H0. rewrite H5. simpl.
  destruct (shape img) as [|n s] eqn:Es; [done|]. simpl in *.
  simplify_eq/=. unfold index0. rewrite Es. simpl.
  rewrite H5. simpl. eexists. split; [done|]. done.
Qed.

(** C4.  The shape check stops with [UnsupportedShape] on a 5-D array
    whose axis 0 is not of size 1 and on every array that is neither 4-D nor
    5-D; it collapses a 5-D array with a leading axis of size 1 to the 4-D
    view [img[0]] and returns a 4-D array as it is.  When it stops, the
    pipeline stops with the same error before touching the store. *)
Theorem resolve_shape_cases img :
  (ndim img = 5 → shape img !! 0 ≠ Some 1 →
     resolve_shape img = Raise (UnsupportedShape OnlyLeadingOne)) ∧
  (ndim img ≠ 4 → ndim img ≠ 5 →
     resolve_shape img
       = Raise (UnsupportedShape (UnsupportedTiffShape (shape img)))) ∧
  (ndim img = 5 → shape img !! 0 = Some 1 →
     ∃ v, resolve_shape img = Ok v ∧ ndim v = 4 ∧
          shape img = 1 :: shape v ∧ base v = base img ∧
          ∀ h idx, load h v idx = load h img (0 :: idx)) ∧
  (ndim img = 4 → resolve_shape img = Ok img) ∧
  (∀ e percentiles colors visibility h,
     resolve_shape img = Raise e →
     run_pipeline img percentiles colors visibility h = (h, Raise e)).
Proof.
  split; [|split; [|split; [|split]]].
  - unfold resolve_shape, ndim. intros H5 H0. rewrite H5. simpl.
    destruct (shape img) as [|n s]; [done|]. simpl in *.
    destruct (Nat.eqb_spec n 1) as [->|]; [done|]. done.
  - unfold resolve_shape, ndim. intros H4 H5.
    destruct (Nat.eqb_spec (length (shape img)) 5); [done|]. simpl.
    destruct (Nat.eqb_spec (length (shape img)) 4); [done|]. done.
  - apply resolve_shape_5d.
  - apply resolve_shape_4d.
  - intros e ps cs vis h He. unfold run_pipeline. by rewrite He.
Qed.

(** ** Export *)

Lemma astype_uint8_floor x :
  (0 <= x)%Q → (x <= 255)%Q → astype_uint8 x = Some (Qfloor x).
Proof.
  intros H0 H1. unfold astype_uint8.
  assert (Z.quot (Qnum x) (Z.pos (Qden x)) = Qfloor x) as ->.
  { destruct x as [n d]. simpl. apply Z.quot_div_nonneg; [|done].
    unfold Qle in H0. simpl in H0. lia. }
  pose proof (Qfloor_resp_le _ _ H0) as L0.
  pose proof (Qfloor_resp_le _ _ H1) as L1.
  change (Qfloor 0) with 0%Z in L0. change (Qfloor 255) with 255%Z in L1.
  apply Z.leb_le in L0, L1. by rewrite L0, L1.
Qed.

Lemma uint_of_string_zeros n s :
  DecimalString.NilEmpty.uint_of_string (zeros n ++ s)%string
  = Nat.iter n Decimal.D0 <$> DecimalString.NilEmpty.uint_of_string s.
Proof.
  induction n as [|n IH].
  - change (zeros 0 ++ s)%string with s.
    by destruct (DecimalString.NilEmpty.uint_of_string s).
  - change (zeros (S n) ++ s)%string with (String "0" (zeros n ++ s)).
    simpl. rewrite IH. by destruct (DecimalString.NilEmpty.uint_of_string s).
Qed.

Lemma of_uint_zeros n d : Nat.of_uint (Nat.iter n Decimal.D0 d) = Nat.of_uint d.
Proof. induction n as [|n IH]; simpl; [done|]. exact IH. Qed.

Lemma read_decimal_format_03d z : read_decimal (format_03d z) = Some z.
Proof.
  unfold read_decimal, format_03d, str_of_nat.
  rewrite uint_of_string_zeros.
  assert (DecimalString.NilEmpty.uint_of_string
            (DecimalString.NilZero.string_of_uint (Nat.to_uint z))
          = Some (Nat.to_uint z)) as ->.
  { unfold DecimalString.NilZero.string_of_uint.
    destruct (Nat.to_uint z) eqn:E; try apply DecimalString.NilEmpty.usu.
    pose proof (f_equal Nat.of_uint E) as E'.
    rewrite DecimalNat.Unsigned.of_to in E'. subst z. discriminate E. }
  simpl. by rewrite of_uint_zeros, DecimalNat.Unsigned.of_to.
Qed.

Lemma format_03d_width_small :
  forallb (λ z, String.length (format_03d z) =? 3) (seq 0 1000) = true.
Proof. vm_compute. reflexivity. Qed.

Lemma length_string_app (s t : string) :
  String.length (s ++ t)%string = String.length s + String.length t.
Proof.
  induction s as [|c s IH]; [done|].
  change (String c s ++ t)%string with (String c (s ++ t)). simpl.
  by rewrite IH.
Qed.

Lemma length_zeros n : String.length (zeros n) = n.
Proof. induction n as [|n IH]; simpl; [done|]. by rewrite IH. Qed.

(** C8, as the code has it.  A slice sample in [0,1] is converted to 8 bits
    by dropping the fraction of [value * 255] (the floor, not the nearest
    integer); the result lies in [0,255] with no clamp.  The file name is
    [z_], the index in decimal padded with zeros on the left to at least
    three characters (exactly three below 1000), and [.png]. *)
Theorem display_truncates_and_names v z :
  in_unit v →
  to_display v = Some (Qfloor (v * 255)) ∧
  (0 ≤ Qfloor (v * 255) ≤ 255)%Z ∧
  file_name z = ("z_" ++ format_03d z ++ ".png")%string ∧
  format_03d z = (zeros (3 - String.length (str_of_nat z)) ++ str_of_nat z)%string ∧
  3 ≤ String.length (format_03d z) ∧
  (z < 1000 → String.length (format_03d z) = 3) ∧
  read_decimal (format_03d z) = Some z.
Proof.
  intros [H0 H1].
  assert (0 <= v * 255)%Q as L0 by lra.
  assert (v * 255 <= 255)%Q as L1 by lra.
  split; [by apply astype_uint8_floor|]. split.
  { pose proof (Qfloor_resp_le _ _ L0) as F0.
    pose proof (Qfloor_resp_le _ _ L1) as F1.
    change (Qfloor 0) with 0%Z in F0. change (Qfloor 255) with 255%Z in F1.
    lia. }
  split; [done|]. split; [done|]. split; [|split].
  - unfold format_03d. rewrite length_string_app, length_zeros. lia.
  - intros Hz. pose proof format_03d_width_small as Hall.
    rewrite forallb_forall in Hall. apply Nat.eqb_eq, Hall.
    apply in_seq. lia.
  - apply read_decimal_format_03d.
Qed.

Lemma display_truncates_and_names_witness :
  in_unit (1 # 2) ∧ to_display (1 # 2) = Some 127%Z ∧
  file_name 7 = "z_007.png"%string.
Proof.
  assert (in_unit (1 # 2)) as H by (unfold in_unit; lra).
  split; [exact H|].
  destruct (display_truncates_and_names (1 # 2) 7 H) as (Hd & _ & Hf & _).
  split; [exact Hd|exact Hf].
Defined.

(** C8 as stated fails: at the sample 1/100 the code yields 2, while
    [round(value * 255)] is 3. *)
Lemma display_is_not_rounded :
  in_unit (1 # 100) ∧
  to_display (1 # 100) = Some 2%Z ∧
  round_clamp_255 (1 # 100) = 3%Z ∧
  to_display (1 # 100) ≠ Some (round_clamp_255 (1 # 100)).
Proof.
  split; [unfold in_unit; lra|]. split; [reflexivity|].
  split; [reflexivity|]. vm_compute. discriminate.
Qed.

(** ** Colours *)

Lemma hex_digit_range c d : hex_digit c = Some d → (0 ≤ d ≤ 15)%Z.
Proof.
  unfold hex_digit. generalize (nat_of_ascii c). intros n.
  repeat case_match; intros; simplify_eq;
    repeat match goal with
           | H : _ && _ = true |- _ => apply andb_true_iff in H as [??]
           | H : (_ <=? _) = true |- _ => apply Nat.leb_le in H
           end; lia.
Qed.

Lemma in_unit_byte n : (0 ≤ n ≤ 255)%Z → in_unit (inject_Z n / 255).
Proof.
  intros [H0 H1]. unfold in_unit.
  assert (0 <= inject_Z n)%Q as L0.
  { change 0%Q with (inject_Z 0). by rewrite <- Zle_Qle. }
  assert (inject_Z n <= 255)%Q as L1.
  { change 255%Q with (inject_Z 255). by rewrite <- Zle_Qle. }
  split.
  - apply Qle_shift_div_l; lra.
  - apply Qle_shift_div_r; lra.
Qed.

(** C10.  On ["#"] followed by six hexadecimal digits,
    [hex_to_rgb_floats] returns the three bytes the digit pairs denote, each
    divided by 255; every component lies in [0,1]. *)
Theorem hex_to_rgb_floats_digits a1 a2 a3 a4 a5 a6 d1 d2 d3 d4 d5 d6 :
  hex_digit a1 = Some d1 → hex_digit a2 = Some d2 →
  hex_digit a3 = Some d3 → hex_digit a4 = Some d4 →
  hex_digit a5 = Some d5 → hex_digit a6 = Some d6 →
  let s := String "#" (String a1 (String a2 (String a3 (String a4
             (String a5 (String a6 EmptyString)))))) in
  let r := (16 * d1 + d2)%Z in
  let g := (16 * d3 + d4)%Z in
  let b := (16 * d5 + d6)%Z in
  hex_to_rgb_floats s
    = Some (inject_Z r / 255, inject_Z g / 255, inject_Z b / 255)%Q ∧
  (0 ≤ r ≤ 255)%Z ∧ (0 ≤ g ≤ 255)%Z ∧ (0 ≤ b ≤ 255)%Z ∧
  in_unit (inject_Z r / 255) ∧ in_unit (inject_Z g / 255) ∧
  in_unit (inject_Z b / 255).
Proof.
  intros H1 H2 H3 H4 H5 H6 s r g b.
  pose proof (hex_digit_range _ _ H1). pose proof (hex_digit_range _ _ H2).
  pose proof (hex_digit_range _ _ H3). pose proof (hex_digit_range _ _ H4).
  pose proof (hex_digit_range _ _ H5). pose proof (hex_digit_range _ _ H6).
  assert (0 ≤ r ≤ 255)%Z as Hr by (unfold r; lia).
  assert (0 ≤ g ≤ 255)%Z as Hg by (unfold g; lia).
  assert (0 ≤ b ≤ 255)%Z as Hb by (unfold b; lia).
  split; [|by repeat (split; [first [done | by apply in_unit_byte]|]);
            apply in_unit_byte].
  unfold hex_to_rgb_floats, slice2, s. simpl.
  rewrite H1, H2, H3, H4, H5, H6. simpl.
  replace (16 * (16 * 0 + d1) + d2)%Z with r by (unfold r; lia).
  replace (16 * (16 * 0 + d3) + d4)%Z with g by (unfold g; lia).
  replace (16 * (16 * 0 + d5) + d6)%Z with b by (unfold b; lia).
  done.
Qed.

Lemma hex_to_rgb_floats_digits_witness :
  hex_to_rgb_floats "#FFA500"
  = Some (inject_Z 255 / 255, inject_Z 165 / 255, inject_Z 0 / 255)%Q.
Proof.
  apply (hex_to_rgb_floats_digits "F" "F" "A" "5" "0" "0" 15 15 10 5 0 0);
    reflexivity.
Defined.

(** ** Two runs side by side *)

Lemma rel_bind {A B} R (P : A → A → Prop) (Q : B → B → Prop)
    (m1 m2 : M A) (f1 f2 : A → M B) h1 h2 :
  outcome_rel R P (m1 h1) (m2 h2) →
  (∀ a1 a2 h1' h2', R h1' h2' → P a1 a2 →
     outcome_rel R Q (f1 a1 h1') (f2 a2 h2')) →
  outcome_rel R Q ((m1 ≫= f1) h1) ((m2 ≫= f2) h2).
Proof.
  intros Hm Hf. rewrite !bind_run. unfold outcome_rel in Hm.
  destruct (m1 h1) as [h1' [a1|e1]], (m2 h2) as [h2' [a2|e2]];
    simpl in Hm; try done.
  destruct Hm. by apply Hf.
Qed.

Lemma rel_for_each {A} R (body1 body2 : A → M ()) (l : list A) h1 h2 :
  R h1 h2 →
  (∀ x h1 h2, x ∈ l → R h1 h2 →
     outcome_rel R (λ _ _, True) (body1 x h1) (body2 x h2)) →
  outcome_rel R (λ _ _, True) (for_each l body1 h1) (for_each l body2 h2).
Proof.
  revert h1 h2. induction l as [|x l IH]; intros h1 h2 HR Hbody; simpl.
  - done.
  - eapply rel_bind.
    + apply Hbody; [by left|done].
    + intros _ _ h1' h2' HR' _. apply IH; [done|].
      intros y g1 g2 Hy. apply Hbody. by right.
Qed.

Lemma fill_agree b1 b2 d1 d2 src1 src2 :
  (∀ k, b1 k = b2 k) →
  shape d1 = shape d2 →
  (∀ idx, imap d1 idx = imap d2 idx) →
  (∀ idx, idx ∈ indices (shape d1) → src1 idx = src2 idx) →
  ∀ k, fill b1 d1 src1 k = fill b2 d2 src2 k.
Proof.
  intros Hb Hs Hi. unfold fill. rewrite <- Hs.
  generalize (indices (shape d1)) as l. intros l. revert b1 b2 Hb.
  induction l as [|i l IH]; intros b1 b2 Hb Hsrc; simpl; [done|].
  apply IH.
  - intros k. unfold upd. rewrite Hi, (Hsrc i) by left.
    by case_decide.
  - intros idx Hidx. apply Hsrc. by right.
Qed.

Lemma ravel_same_samples h1 h2 a1 a2 :
  same_samples h1 h2 a1 a2 → ravel h1 a1 = ravel h2 a2.
Proof.
  intros [Hs Hl]. unfold ravel. rewrite <- Hs.
  apply list_fmap_ext. intros i idx Hidx. apply Hl.
  by eapply list_elem_of_lookup_2.
Qed.

Section two_runs.
Variables (h1 h2 : gmap loc buffer) (l1 l2 : loc) (v1 v2 : ndarray).
Variables (Z C X Y : nat).
Hypothesis Hne1 : base v1 ≠ l1.
Hypothesis Hne2 : base v2 ≠ l2.
Hypothesis Hs1 : shape v1 = [Z; C; X; Y].
Hypothesis Hs2 : shape v2 = [Z; C; X; Y].
Hypothesis Hsame : same_samples h1 h2 v1 v2.

Lemma same_samples_channel c ch1 ch2 b1 b2 :
  slice_axis1 v1 c = Ok ch1 → slice_axis1 v2 c = Ok ch2 →
  same_samples (<[l1 := b1]> h1) (<[l2 := b2]> h2) ch1 ch2.
Proof using Hne1 Hne2 Hs1 Hs2 Hsame.
  intros Hc1 Hc2.
  pose proof (slice_axis1_base _ _ _ Hc1) as Hb1.
  pose proof (slice_axis1_base _ _ _ Hc2) as Hb2.
  assert (c < C ∧ shape ch1 = [Z; X; Y] ∧ shape ch2 = [Z; X; Y])
    as (Hc & Hsh1 & Hsh2).
  { revert Hc1 Hc2. unfold slice_axis1. rewrite Hs1, Hs2.
    destruct (Nat.ltb_spec c C); [|done]. by intros [= <-] [= <-]. }
  split; [congruence|]. intros idx Hidx. rewrite Hsh1 in Hidx.
  pose proof (indices_length _ _ Hidx) as Hlen.
  destruct idx as [|z [|x [|y [|]]]]; simplify_eq/=.
  apply elem_of_indices_3 in Hidx as (Hz & Hx & Hy).
  rewrite !load_insert_ne by congruence.
  rewrite (slice_axis1_load _ _ _ _ _ _ Hc1), (slice_axis1_load _ _ _ _ _ _ Hc2).
  apply Hsame. rewrite Hs1. apply elem_of_indices. by repeat constructor.
Qed.

Lemma normalize_channel_rel percentiles c g1 g2 :
  let nv1 := {| base := l1; shape := [Z; C; X; Y]; imap := id |} in
  let nv2 := {| base := l2; shape := [Z; C; X; Y]; imap := id |} in
  c < C →
  twin_blocks h1 h2 l1 l2 g1 g2 →
  outcome_rel (twin_blocks h1 h2 l1 l2) (λ _ _, True)
    (normalize_channel v1 nv1 percentiles c g1)
    (normalize_channel v2 nv2 percentiles c g2).
Proof using Hne1 Hne2 Hs1 Hs2 Hsame.
  intros nv1 nv2 Hc (b1 & b2 & -> & -> & Hb).
  unfold normalize_channel.
  destruct (slice_axis1_ok v1 Z C [X; Y] c Hs1 Hc) as (ch1 & Hc1 & Hsh1).
  destruct (slice_axis1_ok v2 Z C [X; Y] c Hs2 Hc) as (ch2 & Hc2 & Hsh2).
  pose proof (same_samples_channel c ch1 ch2 b1 b2 Hc1 Hc2) as Hch.
  rewrite (bind_lift_ok _ _ _ _ Hc1), (bind_lift_ok _ _ _ _ Hc2).
  apply Nat.ltb_lt in Hc.
  destruct (getitem percentiles c) as [[lo hi]|e]; [|done].
  rewrite !(bind_lift_ok _ _ _ _ eq_refl).
  rewrite !bind_run. unfold percentile_of at 1 3.
  rewrite (ravel_same_samples _ _ _ _ Hch).
  destruct (np_percentile _ lo) as [vmin|e]; [|done].
  cbv beta iota.
  rewrite !bind_run. unfold percentile_of at 1 2.
  rewrite (ravel_same_samples _ _ _ _ Hch).
  destruct (np_percentile _ hi) as [vmax|e]; [|done].
  cbv beta iota.
  destruct (Qltb vmin vmax).
  - rewrite !bind_run. unfold read at 1 2.
    unfold slice_axis1, nv1, nv2. simpl. rewrite Hc.
    rewrite !(bind_lift_ok _ _ _ _ eq_refl).
    unfold store, outcome_rel. simpl.
    rewrite !deref_insert_eq, !insert_insert_eq.
    split; [|done]. eexists _, _. split; [done|]. split; [done|].
    apply fill_agree; [done..|]. simpl.
    intros idx Hidx. destruct Hch as [_ Hch]. rewrite Hch; [done|].
    by rewrite Hsh1.
  - unfold slice_axis1, nv1, nv2. simpl. rewrite Hc.
    rewrite !(bind_lift_ok _ _ _ _ eq_refl).
    unfold store, outcome_rel. simpl.
    rewrite !deref_insert_eq, !insert_insert_eq.
    split; [|done]. eexists _, _. split; [done|]. split; [done|].
    by apply fill_agree.
Qed.
End two_runs.

Lemma unpack4_Ok shp Z C X Y :
  unpack4 shp = Ok (Z, C, X, Y) → shp = [Z; C; X; Y].
Proof.
  destruct shp as [|? [|? [|? [|? [|]]]]]; simpl; intros; by simplify_eq.
Qed.

Lemma same_samples_fresh_output h1 h2 l1 l2 (b1 b2 : buffer) shp :
  (∀ k, b1 k = b2 k) →
  runs_agree
    (<[l1 := b1]> h1, Ok {| base := l1; shape := shp; imap := id |})
    (<[l2 := b2]> h2, Ok {| base := l2; shape := shp; imap := id |}).
Proof.
  intros Hb. unfold runs_agree. simpl.
  rewrite !lookup_insert_eq. split; [done|]. split; [done|].
  split; [done|]. simpl. intros idx _.
  rewrite !load_insert_eq by done. apply Hb.
Qed.

(** Two runs of the normalisation on arrays with the same samples. *)
Lemma normalize_rel h1 h2 v1 v2 percentiles :
  is_Some (h1 !! base v1) → is_Some (h2 !! base v2) →
  same_samples h1 h2 v1 v2 →
  runs_agree (normalize_channels_with_percentiles v1 percentiles h1)
             (normalize_channels_with_percentiles v2 percentiles h2).
Proof.
  intros Hl1 Hl2 Hsame. pose proof Hsame as [Hshape _].
  unfold normalize_channels_with_percentiles, np_zeros_like. rewrite <- Hshape.
  destruct (unpack4 (shape v1)) as [[[[Z C] X] Y]|e] eqn:Eu; [|done].
  apply unpack4_Ok in Eu.
  rewrite !(bind_lift_ok _ _ _ _ eq_refl). rewrite !bind_run.
  unfold np_zeros. cbv beta iota zeta. rewrite Eu.
  set (l1 := fresh (dom h1)). set (l2 := fresh (dom h2)).
  assert (base v1 ≠ l1) as Hne1 by (by apply fresh_ne).
  assert (base v2 ≠ l2) as Hne2 by (by apply fresh_ne).
  assert (shape v2 = [Z; C; X; Y]) as Eu2 by congruence.
  assert (outcome_rel (twin_blocks h1 h2 l1 l2) (λ _ _, True)
    (for_each (range C)
       (normalize_channel v1 {| base := l1; shape := [Z; C; X; Y]; imap := id |}
          percentiles) (<[l1 := zero_block]> h1))
    (for_each (range C)
       (normalize_channel v2 {| base := l2; shape := [Z; C; X; Y]; imap := id |}
          percentiles) (<[l2 := zero_block]> h2))) as Hloop.
  { apply rel_for_each.
    - by exists zero_block, zero_block.
    - intros c g1 g2 Hc HR. apply elem_of_seq in Hc.
      apply (normalize_channel_rel h1 h2 l1 l2 v1 v2 Z C X Y); [done..|lia|done]. }
  rewrite !bind_run. unfold outcome_rel in Hloop.
  destruct (for_each (range C) _ (<[l1 := zero_block]> h1)) as [g1 [[]|e1]],
           (for_each (range C) _ (<[l2 := zero_block]> h2)) as [g2 [[]|e2]];
    simpl in Hloop; try done.
  destruct Hloop as [(b1 & b2 & -> & -> & Hb) _].
  by apply same_samples_fresh_output.
Qed.

(** ** Two runs of the compositing side by side *)

Section two_renders.
Variables (h1 h2 : gmap loc buffer) (l1 l2 : loc) (v1 v2 : ndarray).
Variables (Z C X Y : nat).
Hypothesis Hne1 : base v1 ≠ l1.
Hypothesis Hne2 : base v2 ≠ l2.
Hypothesis Hs1 : shape v1 = [Z; C; X; Y].
Hypothesis Hs2 : shape v2 = [Z; C; X; Y].
Hypothesis Hsame : same_samples h1 h2 v1 v2.

Lemma iadd_scaled_rel z c k gray1 gray2 w g1 g2 :
  z < Z → c < C → k < 3 →
  (vz ← index0 v1 z; index0 vz c) = Ok gray1 →
  (vz ← index0 v2 z; index0 vz c) = Ok gray2 →
  twin_blocks h1 h2 l1 l2 g1 g2 →
  let rgb1 := {| base := l1; shape := [Z; X; Y; 3]; imap := id |} in
  let rgb2 := {| base := l2; shape := [Z; X; Y; 3]; imap := id |} in
  outcome_rel (twin_blocks h1 h2 l1 l2) (λ _ _, True)
    (iadd_scaled rgb1 z k gray1 w g1) (iadd_scaled rgb2 z k gray2 w g2).
Proof using Hne1 Hne2 Hs1 Hs2 Hsame.
  intros Hz Hc Hk Hg1 Hg2 (b1 & b2 & -> & -> & Hb) rgb1 rgb2.
  destruct (index2_ok v1 Z C X Y z c Hs1 Hz Hc) as (gr1 & Hgr1 & Hb1 & Hld1).
  destruct (index2_ok v2 Z C X Y z c Hs2 Hz Hc) as (gr2 & Hgr2 & Hb2 & Hld2).
  rewrite Hgr1 in Hg1. rewrite Hgr2 in Hg2. simplify_eq.
  unfold iadd_scaled. rewrite !bind_run. unfold read at 1 3.
  cbv beta iota.
  unfold plane, rgb1, rgb2. simpl.
  apply Nat.ltb_lt in Hz, Hk. rewrite Hz, Hk. simpl.
  rewrite !(bind_lift_ok _ _ _ _ eq_refl).
  rewrite !bind_run. unfold read at 1 2. cbv beta iota.
  unfold store, outcome_rel. simpl.
  rewrite !deref_insert_eq, !insert_insert_eq.
  split; [|done]. eexists _, _. split; [done|]. split; [done|].
  apply fill_agree; [done..|]. intros idx Hidx.
  change (idx ∈ indices [X; Y]) in Hidx.
  pose proof (indices_length _ _ Hidx) as Hlen.
  destruct idx as [|x [|y [|]]]; simplify_eq/=.
  apply elem_of_indices_2 in Hidx as [Hx Hy].
  rewrite (load_insert_eq _ _ _ {| base := l1 |}) by done.
  rewrite (load_insert_eq _ _ _ {| base := l2 |}) by done. simpl.
  rewrite !load_insert_ne by congruence.
  rewrite Hld1, Hld2, Hb. f_equal. f_equal.
  destruct Hsame as [_ Hsm]. apply Hsm. rewrite Hs1.
  apply elem_of_indices. apply Nat.ltb_lt in Hz. by repeat constructor.
Qed.

Lemma add_channel_rel visibility z item g1 g2 :
  z < Z →
  twin_blocks h1 h2 l1 l2 g1 g2 →
  let rgb1 := {| base := l1; shape := [Z; X; Y; 3]; imap := id |} in
  let rgb2 := {| base := l2; shape := [Z; X; Y; 3]; imap := id |} in
  outcome_rel (twin_blocks h1 h2 l1 l2) (λ _ _, True)
    (add_channel v1 rgb1 visibility z item g1)
    (add_channel v2 rgb2 visibility z item g2).
Proof using Hne1 Hne2 Hs1 Hs2 Hsame.
  intros Hz HR rgb1 rgb2. destruct item as [c [[r g] b]]. unfold add_channel.
  destruct (getitem visibility c) as [[|]|e].
  - rewrite !(bind_lift_ok _ _ _ _ eq_refl).
    destruct (Nat.lt_ge_cases c C) as [Hc|Hc].
    + destruct (index2_ok v1 Z C X Y z c Hs1 Hz Hc) as (gr1 & Hgr1 & _).
      destruct (index2_ok v2 Z C X Y z c Hs2 Hz Hc) as (gr2 & Hgr2 & _).
      rewrite (bind_lift_ok _ _ _ _ Hgr1), (bind_lift_ok _ _ _ _ Hgr2).
      eapply rel_bind; [by apply (iadd_scaled_rel z c); [..|lia| | |]|].
      intros _ _ g1' g2' HR' _.
      eapply rel_bind; [by apply (iadd_scaled_rel z c); [..|lia| | |]|].
      intros _ _ g1'' g2'' HR'' _.
      by apply (iadd_scaled_rel z c); [..|lia| | |].
    + assert (∀ v, shape v = [Z; C; X; Y] →
                (vz ← index0 v z; index0 vz c) = Raise IndexError) as Hraise.
      { intros v Hs. unfold index0 at 2. rewrite Hs.
        destruct (Nat.ltb_spec z Z); [|lia]. simpl. unfold index0. simpl.
        destruct (Nat.ltb_spec c C); [lia|done]. }
      rewrite (Hraise v1 Hs1), (Hraise v2 Hs2). done.
  - rewrite !(bind_lift_ok _ _ _ _ eq_refl). by split.
  - done.
Qed.

Lemma render_slice_rel colors visibility z g1 g2 :
  z < Z →
  twin_blocks h1 h2 l1 l2 g1 g2 →
  let rgb1 := {| base := l1; shape := [Z; X; Y; 3]; imap := id |} in
  let rgb2 := {| base := l2; shape := [Z; X; Y; 3]; imap := id |} in
  outcome_rel (twin_blocks h1 h2 l1 l2) (λ _ _, True)
    (render_slice v1 rgb1 colors visibility z g1)
    (render_slice v2 rgb2 colors visibility z g2).
Proof using Hne1 Hne2 Hs1 Hs2 Hsame.
  intros Hz HR rgb1 rgb2. unfold render_slice. eapply rel_bind.
  - apply rel_for_each; [done|]. intros item g1' g2' _ HR'.
    by apply add_channel_rel.
  - intros _ _ g1' g2' (b1 & b2 & -> & -> & Hb) _.
    unfold index0, rgb1, rgb2. simpl.
    apply Nat.ltb_lt in Hz. rewrite Hz.
    rewrite !(bind_lift_ok _ _ _ _ eq_refl).
    rewrite !bind_run. unfold read at 1 2. cbv beta iota.
    unfold store, outcome_rel. simpl.
    rewrite !deref_insert_eq, !insert_insert_eq.
    split; [|done]. eexists _, _. split; [done|]. split; [done|].
    apply fill_agree; [done..|]. intros idx _.
    rewrite (load_insert_eq _ _ _ {| base := l1 |}) by done.
    rewrite (load_insert_eq _ _ _ {| base := l2 |}) by done. simpl.
    by rewrite Hb.
Qed.
End two_renders.

(** Two runs of the compositing on arrays with the same samples. *)
Lemma render_rel h1 h2 v1 v2 colors visibility :
  is_Some (h1 !! base v1) → is_Some (h2 !! base v2) →
  same_samples h1 h2 v1 v2 →
  runs_agree (multichannel_to_rgb_stack v1 colors visibility h1)
             (multichannel_to_rgb_stack v2 colors visibility h2).
Proof.
  intros Hl1 Hl2 Hsame. pose proof Hsame as [Hshape _].
  unfold multichannel_to_rgb_stack. rewrite <- Hshape.
  destruct (unpack4 (shape v1)) as [[[[Z C] X] Y]|e] eqn:Eu; [|done].
  apply unpack4_Ok in Eu.
  rewrite !(bind_lift_ok _ _ _ _ eq_refl). rewrite !bind_run.
  unfold np_zeros. cbv beta iota zeta.
  set (l1 := fresh (dom h1)). set (l2 := fresh (dom h2)).
  assert (base v1 ≠ l1) as Hne1 by (by apply fresh_ne).
  assert (base v2 ≠ l2) as Hne2 by (by apply fresh_ne).
  assert (shape v2 = [Z; C; X; Y]) as Eu2 by congruence.
  assert (outcome_rel (twin_blocks h1 h2 l1 l2) (λ _ _, True)
    (for_each (range Z)
       (render_slice v1 {| base := l1; shape := [Z; X; Y; 3]; imap := id |}
          colors visibility) (<[l1 := zero_block]> h1))
    (for_each (range Z)
       (render_slice v2 {| base := l2; shape := [Z; X; Y; 3]; imap := id |}
          colors visibility) (<[l2 := zero_block]> h2))) as Hloop.
  { apply rel_for_each.
    - by exists zero_block, zero_block.
    - intros z g1 g2 Hz HR. apply elem_of_seq in Hz.
      apply (render_slice_rel h1 h2 l1 l2 v1 v2 Z C X Y); [done..|lia|done]. }
  rewrite !bind_run. unfold outcome_rel in Hloop.
  destruct (for_each (range Z) _ (<[l1 := zero_block]> h1)) as [g1 [[]|e1]],
           (for_each (range Z) _ (<[l2 := zero_block]> h2)) as [g2 [[]|e2]];
    simpl in Hloop; try done.
  destruct Hloop as [(b1 & b2 & -> & -> & Hb) _].
  by apply same_samples_fresh_output.
Qed.

(** C5.  A 5-D array of shape (1, Z, C, X, Y) and a 4-D array of shape
    (Z, C, X, Y) holding the same samples go through the pipeline alike,
    for every choice of percentiles, colours and visibility: both runs
    raise the same exception, or both return an RGB stack of the same
    shape with the same samples. *)
Theorem pipeline_collapse h5 h img5 V Z C X Y percentiles colors visibility :
  is_Some (h5 !! base img5) →
  is_Some (h !! base V) →
  shape img5 = [1; Z; C; X; Y] →
  shape V = [Z; C; X; Y] →
  (∀ z c x y, z < Z → c < C → x < X → y < Y →
     load h5 img5 [0; z; c; x; y] = load h V [z; c; x; y]) →
  runs_agree (run_pipeline img5 percentiles colors visibility h5)
             (run_pipeline V percentiles colors visibility h).
Proof.
  intros Hl5 Hl Hs5 Hs Hdata. unfold run_pipeline.
  assert (resolve_shape V = Ok V) as ->.
  { apply resolve_shape_4d. unfold ndim. by rewrite Hs. }
  destruct (resolve_shape_5d img5) as (v & -> & _ & Hsv & Hbv & Hload).
  { unfold ndim. by rewrite Hs5. }
  { by rewrite Hs5. }
  assert (shape v = [Z; C; X; Y]) as Hv by congruence.
  rewrite !(bind_lift_ok _ _ _ _ eq_refl).
  assert (same_samples h5 h v V) as Hsame.
  { split; [congruence|]. intros idx Hidx. rewrite Hv in Hidx.
    pose proof (indices_length _ _ Hidx) as Hlen.
    destruct idx as [|z [|c [|x [|y [|]]]]]; try discriminate Hlen.
    apply elem_of_indices_4 in Hidx as (?&?&?&?).
    rewrite Hload. by apply Hdata. }
  rewrite <- Hbv in Hl5.
  pose proof (normalize_rel h5 h v V percentiles Hl5 Hl Hsame) as Hn.
  rewrite !bind_run. unfold runs_agree in Hn.
  destruct (normalize_channels_with_percentiles v percentiles h5)
    as [g5 [n5|e5]],
    (normalize_channels_with_percentiles V percentiles h) as [g [n|e]];
    simpl in Hn; try done.
  destruct Hn as (Hln5 & Hln & Hsn).
  by apply render_rel.
Qed.

(** The collapse of a leading axis added by [expand_dims0] is the array
    itself, so the two pipelines are the same computation. *)
Lemma pipeline_expand_dims0 V percentiles colors visibility :
  ndim V = 4 →
  run_pipeline (expand_dims0 V) percentiles colors visibility
  = run_pipeline V percentiles colors visibility.
Proof.
  intros H4. unfold run_pipeline.
  assert (resolve_shape (expand_dims0 V) = resolve_shape V) as ->; [|done].
  destruct V as [b s f]. unfold resolve_shape, ndim in *. simpl in *.
  rewrite H4. simpl. unfold index0. simpl. rewrite H4. done.
Qed.

(** ** Loops that stop on an exception, and loops over equal bodies *)

Lemma for_each_ext {A} (body1 body2 : A → M ()) (l : list A) h :
  (∀ x h, x ∈ l → body1 x h = body2 x h) →
  for_each l body1 h = for_each l body2 h.
Proof.
  revert h. induction l as [|x l IH]; intros h Hb; simpl; [done|].
  rewrite !bind_run. rewrite (Hb x h) by left.
  destruct (body2 x h) as [h' [[]|e]]; [|done].
  apply IH. intros y g Hy. apply Hb. by right.
Qed.

Lemma for_each_seq_raise (I : nat → gmap loc buffer → Prop) (body : nat → M ())
    s n k e h :
  I s h → s ≤ k < s + n →
  (∀ j h, s ≤ j < k → I j h → ∃ h', body j h = (h', Ok ()) ∧ I (S j) h') →
  (∀ h, I k h → ∃ h', body k h = (h', Raise e)) →
  ∃ h', for_each (seq s n) body h = (h', Raise e).
Proof.
  revert s h. induction n as [|n IH]; intros s h H0 Hk Hstep Hfail; [lia|].
  simpl. rewrite bind_run. destruct (decide (s = k)) as [->|Hsk].
  - destruct (Hfail h H0) as [h' ->]. eauto.
  - destruct (Hstep s h) as (h1 & -> & H1); [lia|done|].
    apply (IH (S s) h1); [done|lia| |done].
    intros j g ??. apply Hstep; [lia|done].
Qed.

Lemma for_each_zip_seq_raise {A} (I : nat → gmap loc buffer → Prop)
    (body : nat * A → M ()) (l : list A) s k x e h :
  I s h → l !! k = Some x →
  (∀ j y h, j < k → l !! j = Some y → I (s + j) h →
     ∃ h', body (s + j, y) h = (h', Ok ()) ∧ I (S (s + j)) h') →
  (∀ h, I (s + k) h → ∃ h', body (s + k, x) h = (h', Raise e)) →
  ∃ h', for_each (zip (seq s (length l)) l) body h = (h', Raise e).
Proof.
  revert s k h. induction l as [|y l IH]; intros s k h H0 Hk Hstep Hfail;
    [done|].
  simpl. rewrite bind_run. destruct k as [|k]; simplify_eq/=.
  - rewrite Nat.add_0_r in Hfail. destruct (Hfail h H0) as [h' ->]. eauto.
  - destruct (Hstep 0 y h) as (h1 & E1 & H1); [lia|done|by rewrite Nat.add_0_r|].
    rewrite Nat.add_0_r in E1, H1. rewrite E1.
    apply (IH (S s) k h1); [done|done| |].
    + intros j z g Hj Hz Hg. replace (S s + j) with (s + S j) in * by lia.
      apply Hstep; [lia|done|done].
    + intros g Hg. replace (S s + k) with (s + S k) in * by lia. by apply Hfail.
Qed.

(** ** Lists that are too short or too long *)

Lemma normalize_short_percentiles h volume Z C X Y percentiles :
  is_Some (h !! base volume) →
  shape volume = [Z; C; X; Y] →
  0 < Z → 0 < X → 0 < Y →
  Forall (λ p, valid_percent p.1 ∧ valid_percent p.2) percentiles →
  length percentiles < C →
  ∃ h', normalize_channels_with_percentiles volume percentiles h
        = (h', Raise IndexError).
Proof.
  intros Hlive Hs HZ HX HY Hvalid Hlen.
  set (l0 := fresh (dom h)).
  assert (base volume ≠ l0) as Hne by (by apply fresh_ne).
  assert (unpack4 (shape volume) = Ok (Z, C, X, Y)) as Eu by (by rewrite Hs).
  unfold normalize_channels_with_percentiles.
  rewrite (bind_lift_ok _ _ _ _ Eu).
  rewrite bind_run. unfold np_zeros_like, np_zeros. fold l0. rewrite Hs.
  set (nv := {| base := l0; shape := [Z; C; X; Y]; imap := id |}).
  destruct (for_each_seq_raise (λ _ h', ∃ buf, h' = <[l0 := buf]> h)
    (normalize_channel volume nv percentiles) 0 C (length percentiles)
    IndexError (<[l0 := zero_block]> h)) as [h' Eloop].
  - by exists zero_block.
  - lia.
  - intros c h' [_ Hc] (buf & ->).
    destruct (slice_axis1_ok volume Z C [X; Y] c Hs) as (ch & Hch & Hsch); [lia|].
    destruct (lookup_lt_is_Some_2 percentiles c Hc) as [[lo hi] Hp].
    rewrite Forall_lookup in Hvalid. destruct (Hvalid c _ Hp) as [Hlo Hhi].
    assert (ravel h ch ≠ []) as Hnonempty.
    { unfold ravel. rewrite Hsch. intros E. apply fmap_nil_inv in E.
      revert E. apply indices_nonempty. by repeat constructor. }
    destruct (np_percentile_ok _ lo Hnonempty Hlo) as [vmin Hmin].
    destruct (np_percentile_ok _ hi Hnonempty Hhi) as [vmax Hmax].
    destruct (normalize_channel_run h buf volume l0 Z C X Y percentiles c
                lo hi ch vmin vmax Hne ltac:(lia) Hp Hch Hmin Hmax)
      as (buf' & Erun & _).
    exists (<[l0 := buf']> h). split; [done|]. by exists buf'.
  - intros h' _. unfold normalize_channel.
    destruct (slice_axis1_ok volume Z C [X; Y] (length percentiles) Hs Hlen)
      as (ch & Hch & _).
    rewrite (bind_lift_ok _ _ _ _ Hch). unfold getitem.
    rewrite lookup_ge_None_2 by lia. eauto.
  - exists h'. unfold range. by rewrite (bind_raise _ _ _ _ _ Eloop).
Qed.

Lemma normalize_surplus_percentiles h volume Z C X Y percentiles :
  shape volume = [Z; C; X; Y] →
  normalize_channels_with_percentiles volume percentiles h
  = normalize_channels_with_percentiles volume (take C percentiles) h.
Proof.
  intros Hs.
  assert (unpack4 (shape volume) = Ok (Z, C, X, Y)) as Eu by (by rewrite Hs).
  unfold normalize_channels_with_percentiles.
  rewrite !(bind_lift_ok _ _ _ _ Eu). rewrite !bind_run.
  destruct (np_zeros_like volume h) as [h1 [nv|e]]; [|done].
  rewrite !bind_run.
  rewrite (for_each_ext (normalize_channel volume nv percentiles)
             (normalize_channel volume nv (take C percentiles))); [done|].
  intros c g Hc. apply elem_of_seq in Hc. unfold normalize_channel, getitem.
  by rewrite lookup_take_lt by lia.
Qed.

Lemma render_surplus_visibility h volume colors visibility :
  multichannel_to_rgb_stack volume colors visibility h
  = multichannel_to_rgb_stack volume colors (take (length colors) visibility) h.
Proof.
  unfold multichannel_to_rgb_stack.
  destruct (unpack4 (shape volume)) as [[[[Z C] X] Y]|e]; [|done].
  rewrite !(bind_lift_ok _ _ _ _ eq_refl). rewrite !bind_run.
  destruct (np_zeros [Z; X; Y; 3] h) as [h1 [rgb|e]]; [|done].
  rewrite !bind_run.
  rewrite (for_each_ext (render_slice volume rgb colors visibility)
     (render_slice volume rgb colors (take (length colors) visibility)));
    [done|].
  intros z g _. unfold render_slice. rewrite !bind_run.
  rewrite (for_each_ext (add_channel volume rgb visibility z)
     (add_channel volume rgb (take (length colors) visibility) z)); [done|].
  intros [c [[r gg] b]] g' Hc. unfold add_channel, getitem.
  unfold enumerate in Hc. apply list_elem_of_lookup in Hc as [i Hi].
  apply lookup_zip_Some in Hi as [Hi1 Hi2]. apply lookup_seq in Hi1 as [-> Hi1].
  by rewrite lookup_take_lt by (simpl; lia).
Qed.

Lemma render_raises h volume Z C X Y colors visibility c0 :
  is_Some (h !! base volume) →
  shape volume = [Z; C; X; Y] →
  0 < Z →
  c0 < length colors →
  (∀ c, c < c0 → ∃ vis, visibility !! c = Some vis ∧ (vis = true → c < C)) →
  visibility !! c0 = None ∨ (visibility !! c0 = Some true ∧ C ≤ c0) →
  ∃ h', multichannel_to_rgb_stack volume colors visibility h
        = (h', Raise IndexError).
Proof.
  intros Hlive Hs HZ Hc0 Hbefore Hbad.
  set (l0 := fresh (dom h)).
  assert (base volume ≠ l0) as Hne by (by apply fresh_ne).
  assert (unpack4 (shape volume) = Ok (Z, C, X, Y)) as Eu by (by rewrite Hs).
  unfold multichannel_to_rgb_stack.
  rewrite (bind_lift_ok _ _ _ _ Eu).
  rewrite bind_run. unfold np_zeros. fold l0.
  set (rgb := {| base := l0; shape := [Z; X; Y; 3]; imap := id |}).
  destruct (lookup_lt_is_Some_2 colors c0 Hc0) as [col0 Hcol0].
  destruct (for_each_zip_seq_raise (λ _ h', ∃ buf, h' = <[l0 := buf]> h)
    (add_channel volume rgb visibility 0) colors 0 c0 col0
    IndexError (<[l0 := zero_block]> h)) as [h' Einner].
  - by exists zero_block.
  - done.
  - intros c col h' Hc Hcol (buf & ->). simpl.
    destruct (Hbefore c Hc) as (vis & Hv & HcC).
    destruct (add_channel_run h buf volume l0 Z C X Y visibility 0 c col vis
                Hne Hs HZ Hv HcC) as (buf' & E & _).
    exists (<[l0 := buf']> h). split; [done|]. by exists buf'.
  - intros h' _. simpl. destruct col0 as [[r g] b].
    unfold add_channel, getitem. destruct Hbad as [->|[-> HC]]; [by eauto|].
    rewrite (bind_lift_ok _ _ _ _ eq_refl).
    assert ((vz ← index0 volume 0; index0 vz c0) = Raise IndexError) as ->.
    { unfold index0 at 2. rewrite Hs.
      destruct (Nat.ltb_spec 0 Z); [|lia]. simpl. unfold index0. simpl.
      destruct (Nat.ltb_spec c0 C); [lia|done]. }
    eauto.
  - destruct Z as [|Z']; [lia|]. unfold range. simpl.
    exists h'. rewrite bind_run. rewrite bind_run.
    unfold render_slice at 1. rewrite bind_run.
    unfold enumerate. by rewrite Einner.
Qed.

(** C6, as the code has it.  The transforms do not compare the lengths
    of the channel-indexed lists with the channel count.  A list too short
    for the indexing the loops perform raises [IndexError]: fewer than [C]
    percentile pairs in the normalisation; in the compositing, the first
    colour index whose visibility flag is missing, or whose flag is set
    while the index is not a channel.  Surplus entries are not signalled:
    the normalisation uses the first [C] percentile pairs only, the
    compositing the first [len(colors)] flags only, and with no more
    colours than channels and enough flags it returns the clamped sum over
    the first [len(colors)] channels. *)
Theorem length_mismatch_behaviour h volume Z C X Y percentiles colors visibility :
  is_Some (h !! base volume) →
  shape volume = [Z; C; X; Y] →
  0 < Z → 0 < X → 0 < Y →
  Forall (λ p, valid_percent p.1 ∧ valid_percent p.2) percentiles →
  (length percentiles < C →
     ∃ h', normalize_channels_with_percentiles volume percentiles h
           = (h', Raise IndexError)) ∧
  normalize_channels_with_percentiles volume percentiles h
    = normalize_channels_with_percentiles volume (take C percentiles) h ∧
  (∀ c0, c0 < length colors →
     (∀ c, c < c0 → ∃ vis, visibility !! c = Some vis ∧ (vis = true → c < C)) →
     visibility !! c0 = None ∨ (visibility !! c0 = Some true ∧ C ≤ c0) →
     ∃ h', multichannel_to_rgb_stack volume colors visibility h
           = (h', Raise IndexError)) ∧
  multichannel_to_rgb_stack volume colors visibility h
    = multichannel_to_rgb_stack volume colors
        (take (length colors) visibility) h ∧
  (length colors ≤ C → length colors ≤ length visibility →
     ∃ h' out,
       multichannel_to_rgb_stack volume colors visibility h = (h', Ok out) ∧
       ∀ z x y k, z < Z → x < X → y < Y → k < 3 →
         (load h' out [z; x; y; k]
          == np_clip (visible_sum (length colors)
                        (λ c, load h volume [z; c; x; y])
                        colors visibility k) 0 1)%Q).
Proof.
  intros Hlive Hs HZ HX HY Hvalid. repeat split.
  - by apply (normalize_short_percentiles h volume Z C X Y).
  - by apply (normalize_surplus_percentiles h volume Z C X Y).
  - intros c0. by apply (render_raises h volume Z C X Y).
  - apply render_surplus_visibility.
  - intros Hc Hv.
    destruct (render_run h volume Z C X Y colors visibility Hlive Hs)
      as (buf & Erun & Hbuf); [by apply visibility_defined|].
    eexists _, _. split; [exact Erun|].
    intros z x y k Hz Hx Hy Hk. rewrite load_insert_eq by done. simpl.
    rewrite Hbuf by done. apply np_clip_unit_proper, blend_visible_sum.
Qed.

(** C6 as stated fails: with two channels and three percentile pairs the
    normalisation returns an array, the one it returns for the first two
    pairs. *)
Lemma surplus_percentiles_not_signalled :
  let ps := (demo_percentiles ++ [(5, 95)])%Q in
  length ps ≠ 2 ∧
  (normalize_channels_with_percentiles demo_volume ps demo_store).2
    = Ok {| base := 2; shape := [2; 2; 2; 1]; imap := id |} ∧
  normalize_channels_with_percentiles demo_volume ps demo_store
    = normalize_channels_with_percentiles demo_volume demo_percentiles demo_store.
Proof.
  split; [simpl; lia|]. split; [vm_compute; reflexivity|].
  apply (normalize_surplus_percentiles demo_store demo_volume 2 2 2 1).
  reflexivity.
Qed.

(** ** The claims on the sample data *)

Lemma demo_percentiles_valid :
  Forall (λ p, valid_percent p.1 ∧ valid_percent p.2) demo_percentiles.
Proof. repeat constructor; simpl; lra. Qed.

Lemma normalize_nondegenerate_witness :
  ∃ y,
    normalize_samples binary64 [Fin 0; Fin 10; Fin 20; Fin 30] (Fin 0) (Fin 30)
      !! 1 = Some (Fin y) ∧
    (0 <= y)%Q ∧ (y <= 1)%Q ∧
    (Qabs (y - np_clip ((10 - 0) / (30 - 0)) 0 1) <= 2 ^ (3 - 53) + 2 ^ (-23))%Q.
Proof.
  destruct (normalize_nondegenerate binary64
              [Fin 0; Fin 10; Fin 20; Fin 30] 0 30)
    as [_ H].
  - split; simpl; lia.
  - vm_compute. reflexivity.
  - vm_compute. reflexivity.
  - reflexivity.
  - vm_compute. discriminate.
  - destruct (H 1 (Fin 10) eq_refl ltac:(discriminate))
      as (y & Ey & H0 & H1 & _ & _ & Herr).
    exists y. split; [exact Ey|]. split; [exact H0|]. split; [exact H1|].
    apply (Herr 10%Q eq_refl). vm_compute. reflexivity.
Defined.


Lemma render_clamped_sum_witness :
  ∃ h' out,
    multichannel_to_rgb_stack demo_norm demo_red [true; true] demo_store
      = (h', Ok out) ∧
    Qeq (load h' out [0; 0; 0; 0]) 1 ∧ in_unit (load h' out [0; 0; 0; 0]).
Proof.
  destruct (render_clamped_sum demo_store demo_norm 1 2 1 1 demo_red
              [true; true])
    as (h' & out & Erun & _ & Hval).
  - eexists. reflexivity.
  - reflexivity.
  - reflexivity.
  - reflexivity.
  - exists h', out. split; [exact Erun|].
    destruct (Hval 0 0 0 0) as [Hsum Hunit]; [lia..|].
    split; [|exact Hunit]. rewrite Hsum. reflexivity.
Defined.

Lemma render_ignores_hidden_witness :
  ∃ h1' h2' out1 out2,
    multichannel_to_rgb_stack demo_norm demo_red [true; false] demo_store
      = (h1', Ok out1) ∧
    multichannel_to_rgb_stack demo_norm [(1, 0, 0); (0, 1, 1)]%Q [true; false]
      demo_store = (h2', Ok out2) ∧
    load h1' out1 [0; 0; 0; 1] = load h2' out2 [0; 0; 0; 1].
Proof.
  destruct (render_ignores_hidden demo_store demo_store demo_norm demo_norm
              1 2 1 1 demo_red [(1, 0, 0); (0, 1, 1)]%Q [true; false])
    as (h1' & h2' & out1 & out2 & E1 & E2 & _ & Hsame & _).
  - eexists. reflexivity.
  - eexists. reflexivity.
  - reflexivity.
  - reflexivity.
  - reflexivity.
  - reflexivity.
  - reflexivity.
  - intros [|[|c]] Hc; simpl in Hc; try discriminate Hc.
    split; [reflexivity|]. intros. reflexivity.
  - exists h1', h2', out1, out2. split; [exact E1|]. split; [exact E2|].
    apply Hsame; lia.
Defined.

Lemma pipeline_collapse_witness :
  runs_agree
    (run_pipeline (expand_dims0 demo_volume) demo_percentiles demo_red
       [true; true] demo_store)
    (run_pipeline demo_volume demo_percentiles demo_red [true; true]
       demo_store).
Proof.
  apply (pipeline_collapse demo_store demo_store (expand_dims0 demo_volume)
           demo_volume 2 2 2 1).
  - eexists. reflexivity.
  - eexists. reflexivity.
  - reflexivity.
  - reflexivity.
  - intros. reflexivity.
Defined.

Lemma length_mismatch_behaviour_witness :
  (∃ h', normalize_channels_with_percentiles demo_volume [(0, 100)]%Q demo_store
         = (h', Raise IndexError)) ∧
  (∃ h', multichannel_to_rgb_stack demo_volume demo_red [true] demo_store
         = (h', Raise IndexError)).
Proof.
  destruct (length_mismatch_behaviour demo_store demo_volume 2 2 2 1
              [(0, 100)]%Q demo_red [true])
    as (Hshort & _ & Hvis & _).
  - eexists. reflexivity.
  - reflexivity.
  - lia.
  - lia.
  - lia.
  - repeat constructor; simpl; lra.
  - split.
    + apply Hshort. simpl. lia.
    + apply (Hvis 1).
      * simpl. lia.
      * intros [|c] Hc; [|lia]. exists true. split; [reflexivity|]. lia.
      * left. reflexivity.
Defined.

(** ** Scenarios *)

(** Channel 0 holds 0, 10, 20, 30 with percentiles (0, 100): the output is
    the input over 30.  Channel 1 is constant: it is blanked. *)
Example normalize_demo :
  match normalize_channels_with_percentiles demo_volume demo_percentiles
          demo_store with
  | (h', Ok out) => Some (shape out, Qred <$> ravel h' out)
  | _ => None
  end
  = Some ([2; 2; 2; 1],
          [0; 1 # 3; 0; 0; 2 # 3; 1; 0; 0]%Q).
Proof. vm_compute. reflexivity. Qed.

(** One visible red channel at 7/10 gives (7/10, 0, 0). *)
Example render_demo_single :
  match multichannel_to_rgb_stack demo_norm demo_red [true; false]
          demo_store with
  | (h', Ok out) => Some (shape out, Qred <$> ravel h' out)
  | _ => None
  end
  = Some ([1; 1; 1; 3], [7 # 10; 0; 0]%Q).
Proof. vm_compute. reflexivity. Qed.

(** Two visible red channels at 7/10 add up to 14/10, clamped to 1. *)
Example render_demo_overlap :
  match multichannel_to_rgb_stack demo_norm demo_red [true; true]
          demo_store with
  | (h', Ok out) => Some (shape out, Qred <$> ravel h' out)
  | _ => None
  end
  = Some ([1; 1; 1; 3], [1; 0; 0]%Q).
Proof. vm_compute. reflexivity. Qed.

(** A leading axis of size 2 is refused. *)
Example resolve_shape_demo :
  resolve_shape {| base := 0; shape := [2; 2; 2; 2; 1]; imap := id |}
  = Raise (UnsupportedShape OnlyLeadingOne).
Proof. reflexivity. Qed.

(** The characters [hex_digit] accepts are the 22 hexadecimal digits. *)
Example hex_digit_table :
  hex_digit <$> list_ascii_of_string "0123456789abcdefABCDEF"
  = Some <$> [0; 1; 2; 3; 4; 5; 6; 7; 8; 9; 10; 11; 12; 13; 14; 15;
              10; 11; 12; 13; 14; 15]%Z ∧
  length (filter (λ n, is_Some (hex_digit (ascii_of_nat n))) (seq 0 256)) = 22.
Proof. split; vm_compute; reflexivity. Qed.

(** * Further properties of the code *)

(** ** Decimal strings, labels and file names *)

Lemma read_decimal_str_of_nat n : read_decimal (str_of_nat n) = Some n.
Proof.
  unfold read_decimal, str_of_nat.
  assert (DecimalString.NilEmpty.uint_of_string
            (DecimalString.NilZero.string_of_uint (Nat.to_uint n))
          = Some (Nat.to_uint n)) as ->.
  { unfold DecimalString.NilZero.string_of_uint.
    destruct (Nat.to_uint n) eqn:E; try apply DecimalString.NilEmpty.usu.
    pose proof (f_equal Nat.of_uint E) as E'.
    rewrite DecimalNat.Unsigned.of_to in E'. subst n. discriminate E. }
  simpl. by rewrite DecimalNat.Unsigned.of_to.
Qed.

Lemma str_of_nat_inj n m : str_of_nat n = str_of_nat m → n = m.
Proof.
  intros E. apply (f_equal read_decimal) in E.
  rewrite !read_decimal_str_of_nat in E. congruence.
Qed.

Lemma string_app_inv_head (p s t : string) :
  (p ++ s)%string = (p ++ t)%string → s = t.
Proof.
  induction p as [|c p IH]; [done|].
  change (String c p ++ s)%string with (String c (p ++ s)).
  change (String c p ++ t)%string with (String c (p ++ t)).
  intros [= E]. by apply IH.
Qed.

Lemma string_app_inv_tail (s t q : string) :
  (s ++ q)%string = (t ++ q)%string → s = t.
Proof.
  revert t. induction s as [|c s IH]; intros [|d t] E;
    pose proof (f_equal String.length E) as L;
    rewrite !length_string_app in L; simpl in L; try lia; [done|].
  change (String c s ++ q)%string with (String c (s ++ q)) in E.
  change (String d t ++ q)%string with (String d (t ++ q)) in E.
  injection E as -> E. f_equal. by apply IH.
Qed.

Lemma file_name_inj z1 z2 : file_name z1 = file_name z2 → z1 = z2.
Proof.
  unfold file_name. intros E.
  apply string_app_inv_head, string_app_inv_tail in E.
  apply (f_equal read_decimal) in E.
  rewrite !read_decimal_format_03d in E. congruence.
Qed.

Lemma download_label_inj z1 z2 : download_label z1 = download_label z2 → z1 = z2.
Proof.
  unfold download_label. intros E.
  by apply string_app_inv_head, str_of_nat_inj in E.
Qed.

(** X1.  Lines 106-120.  The download loop is reached only with two
    slices or more: below that the Z slider of line 106 is refused and no
    button is offered.  With [Z >= 2] there is one button per slice,
    whatever the position of the slider, in slice order;
    button [z] carries the label [Download Z=z], the file name
    [z_{z:03d}.png], whose digits read back as [z], and the MIME type
    [image/png]; no two buttons share a label or a file name. *)
Theorem download_buttons_distinct Z choice :
  (Z ≤ 1 → download_section Z choice = None) ∧
  (1 < Z →
   ∃ buttons,
     download_section Z choice = Some buttons ∧
     length buttons = Z ∧
     (∀ z, z < Z →
        buttons !! z = Some (download_label z, file_name z, "image/png"%string) ∧
        read_decimal (format_03d z) = Some z) ∧
     NoDup ((λ b, b.1.1) <$> buttons) ∧
     NoDup ((λ b, b.1.2) <$> buttons)).
Proof.
  unfold download_section, z_slider. split.
  - intros HZ. apply Nat.ltb_ge in HZ. by rewrite HZ.
  - intros HZ. pose proof HZ as HZ'. apply Nat.ltb_lt in HZ'. rewrite HZ'.
    eexists. split; [reflexivity|].
    unfold download_buttons, range. split; [|split; [|split]].
    + by rewrite length_fmap, length_seq.
    + intros z Hz. split; [|apply read_decimal_format_03d].
      rewrite list_lookup_fmap, lookup_seq_lt by done. done.
    + rewrite <- list_fmap_compose.
      apply NoDup_fmap_2_strong; [|apply NoDup_seq].
      intros z1 z2 _ _. simpl. apply download_label_inj.
    + rewrite <- list_fmap_compose.
      apply NoDup_fmap_2_strong; [|apply NoDup_seq].
      intros z1 z2 _ _. simpl. apply file_name_inj.
Qed.

(** X2.  Distinct channels get distinct widget labels and keys: the
    checkbox label and key, the colour-picker label and the slider label
    are injective in the channel index. *)
Theorem widget_labels_distinct c1 c2 :
  (checkbox_label c1 = checkbox_label c2 → c1 = c2) ∧
  (checkbox_key c1 = checkbox_key c2 → c1 = c2) ∧
  (color_picker_label c1 = color_picker_label c2 → c1 = c2) ∧
  (slider_label c1 = slider_label c2 → c1 = c2).
Proof.
  unfold checkbox_label, checkbox_key, color_picker_label, slider_label.
  repeat split; intros E.
  - apply string_app_inv_head, str_of_nat_inj in E. lia.
  - by apply string_app_inv_head, str_of_nat_inj in E.
  - apply string_app_inv_head, str_of_nat_inj in E. lia.
  - apply string_app_inv_head, string_app_inv_tail, str_of_nat_inj in E. lia.
Qed.

(** ** The two transforms in sequence *)

Lemma normalize_then_render_run h volume Z C X Y percentiles colors visibility :
  is_Some (h !! base volume) →
  shape volume = [Z; C; X; Y] →
  0 < Z → 0 < X → 0 < Y →
  length percentiles = C → length colors = C → length visibility = C →
  Forall (λ p, valid_percent p.1 ∧ valid_percent p.2) percentiles →
  ∃ h1 norm_img h' rgb_stack,
    normalize_channels_with_percentiles volume percentiles h
      = (h1, Ok norm_img) ∧
    shape norm_img = [Z; C; X; Y] ∧
    multichannel_to_rgb_stack norm_img colors visibility h1
      = (h', Ok rgb_stack) ∧
    shape rgb_stack = [Z; X; Y; 3].
Proof.
  intros Hlive Hs HZ HX HY Hlp Hlc Hlv Hvalid.
  pose proof (percentiles_defined h volume Z C X Y percentiles Hs HZ HX HY
                ltac:(lia) Hvalid) as Hdef.
  destruct (normalize_run h volume Z C X Y percentiles Hlive Hs Hdef)
    as (nbuf & Enorm & _).
  set (l0 := fresh (dom h)) in *.
  set (nv := {| base := l0; shape := [Z; C; X; Y]; imap := id |}) in *.
  destruct (render_run (<[l0 := nbuf]> h) nv Z C X Y colors visibility)
    as (rbuf & Erender & _).
  { simpl. by rewrite lookup_insert_eq. }
  { done. }
  { apply visibility_defined; lia. }
  eexists _, _, _, _. split; [exact Enorm|]. split; [done|].
  split; [exact Erender|done].
Qed.

(** X3.  End to end: on a live 4-D image, or a 5-D image whose leading
    axis has size 1, with non-empty Z, X and Y axes, one valid percentile
    pair, one colour and one flag per channel, nothing is raised: the
    shape check yields a (Z, C, X, Y) array, the normalisation of that
    array returns a volume of the same shape, the compositing of that
    volume returns a stack of shape (Z, X, Y, 3), and this stack is the
    result of the pipeline. *)
Theorem pipeline_returns_stack h img Z C X Y percentiles colors visibility :
  is_Some (h !! base img) →
  shape img = [Z; C; X; Y] ∨ shape img = [1; Z; C; X; Y] →
  0 < Z → 0 < X → 0 < Y →
  length percentiles = C → length colors = C → length visibility = C →
  Forall (λ p, valid_percent p.1 ∧ valid_percent p.2) percentiles →
  ∃ v h1 norm_img h' rgb_stack,
    resolve_shape img = Ok v ∧ shape v = [Z; C; X; Y] ∧
    normalize_channels_with_percentiles v percentiles h = (h1, Ok norm_img) ∧
    shape norm_img = [Z; C; X; Y] ∧
    multichannel_to_rgb_stack norm_img colors visibility h1
      = (h', Ok rgb_stack) ∧
    shape rgb_stack = [Z; X; Y; 3] ∧
    run_pipeline img percentiles colors visibility h = (h', Ok rgb_stack).
Proof.
  intros Hlive Hshape HZ HX HY Hlp Hlc Hlv Hvalid.
  assert (∃ v, resolve_shape img = Ok v ∧ shape v = [Z; C; X; Y] ∧
               base v = base img) as (v & Hres & Hsv & Hbv).
  { destruct Hshape as [Hs|Hs].
    - exists img. split; [|done]. apply resolve_shape_4d. unfold ndim.
      by rewrite Hs.
    - destruct (resolve_shape_5d img) as (v & Hv & _ & Hsh & Hb & _).
      { unfold ndim. by rewrite Hs. }
      { by rewrite Hs. }
      exists v. split; [done|]. split; [congruence|done]. }
  rewrite <- Hbv in Hlive.
  destruct (normalize_then_render_run h v Z C X Y percentiles colors visibility
              Hlive Hsv HZ HX HY Hlp Hlc Hlv Hvalid)
    as (h1 & norm_img & h' & rgb_stack & Enorm & Hsn & Erender & Hsr).
  exists v, h1, norm_img, h', rgb_stack.
  repeat (split; [done|]).
  unfold run_pipeline. rewrite (bind_lift_ok _ _ _ _ Hres).
  by rewrite (bind_ok _ _ _ _ _ Enorm).
Qed.

Lemma pipeline_returns_stack_witness :
  ∃ h' rgb_stack,
    run_pipeline (expand_dims0 demo_volume) demo_percentiles demo_red
      [true; true] demo_store = (h', Ok rgb_stack) ∧
    shape rgb_stack = [2; 2; 1; 3].
Proof.
  destruct (pipeline_returns_stack demo_store (expand_dims0 demo_volume)
              2 2 2 1 demo_percentiles demo_red [true; true])
    as (v & h1 & norm_img & h' & rgb_stack & _ & _ & _ & _ & _ & S & E).
  - eexists. reflexivity.
  - right. reflexivity.
  - lia.
  - lia.
  - lia.
  - reflexivity.
  - reflexivity.
  - reflexivity.
  - exact demo_percentiles_valid.
  - exists h', rgb_stack. split; [exact E|exact S].
Defined.

(** ** The lists of the page *)

Lemma collect_choices_fmap (checkbox : nat → bool) (color_picker : nat → string) C :
  collect_choices checkbox color_picker C
  = (checkbox <$> seq 0 C, color_picker <$> seq 0 C).
Proof.
  unfold collect_choices, range. induction C as [|C IH]; [done|].
  rewrite seq_S, foldl_app, IH. simpl. by rewrite !fmap_app.
Qed.

Lemma collect_percentiles_fmap (slider : nat → Q * Q) C :
  collect_percentiles slider C = slider <$> seq 0 C.
Proof.
  unfold collect_percentiles, range. induction C as [|C IH]; [done|].
  rewrite seq_S, foldl_app, IH. simpl. by rewrite fmap_app.
Qed.

Lemma is_hex_color_parse s :
  is_hex_color s = true →
  ∃ r g b,
    hex_to_rgb_floats s
      = Some (inject_Z r / 255, inject_Z g / 255, inject_Z b / 255)%Q ∧
    (0 ≤ r ≤ 255)%Z ∧ (0 ≤ g ≤ 255)%Z ∧ (0 ≤ b ≤ 255)%Z.
Proof.
  destruct s as [|c0 [|a1 [|a2 [|a3 [|a4 [|a5 [|a6 [|]]]]]]]]; try done.
  simpl. intros H. apply andb_true_iff in H as [_ H].
  repeat (apply andb_true_iff in H as [?%bool_decide_eq_true H]).
  repeat match goal with
         | H : is_Some (hex_digit _) |- _ =>
             let d := fresh "d" in let E := fresh "E" in
             destruct H as [d E]; pose proof (hex_digit_range _ _ E)
         end.
  unfold hex_to_rgb_floats, slice2. simpl.
  repeat match goal with E : hex_digit _ = Some _ |- _ => rewrite E; clear E end.
  simpl. eexists _, _, _. split; [reflexivity|]. lia.
Qed.

(** X4.  The expression that picks the default colour of channel [c]
    never indexes out of range: for every [c] it yields a well-formed
    colour string, which [hex_to_rgb_floats] turns into components in
    [0,1]; the colours repeat every nine channels. *)
Theorem default_color_defined c :
  ∃ s r g b,
    default_color c = Ok s ∧ is_hex_color s = true ∧
    hex_to_rgb_floats s
      = Some (inject_Z r / 255, inject_Z g / 255, inject_Z b / 255)%Q ∧
    in_unit (inject_Z r / 255) ∧ in_unit (inject_Z g / 255) ∧
    in_unit (inject_Z b / 255) ∧
    default_color (c + 9) = default_color c.
Proof.
  assert (∃ s, default_color c = Ok s ∧ is_hex_color s = true) as (s & Hs & Hhex).
  { unfold default_color. change (length default_colors) with 9.
    pose proof (Nat.mod_upper_bound c 9 ltac:(lia)) as Hlt.
    destruct (c mod 9) as [|[|[|[|[|[|[|[|[|n]]]]]]]]]; [..|lia];
      (eexists; split; [reflexivity|reflexivity]). }
  destruct (is_hex_color_parse s Hhex) as (r & g & b & Hparse & Hr & Hg & Hb).
  exists s, r, g, b. repeat (split; [first [done | by apply in_unit_byte]|]).
  unfold default_color. change (length default_colors) with 9.
  replace (c + 9) with (c + 1 * 9) by lia. by rewrite Nat.Div0.mod_add.
Qed.

Lemma parse_colors_ok (color_hex : list string) :
  Forall (λ s, is_hex_color s = true) color_hex →
  ∃ colors, parse_colors color_hex = Some colors ∧
            length colors = length color_hex.
Proof.
  intros H. unfold parse_colors.
  destruct (mapM hex_to_rgb_floats color_hex) as [colors|] eqn:E.
  - exists colors. split; [done|]. apply mapM_Some in E.
    symmetry. by eapply Forall2_length.
  - exfalso. apply mapM_None in E. apply Exists_exists in E as (s & Hs & Hn).
    rewrite Forall_forall in H.
    destruct (is_hex_color_parse s (H s Hs)) as (?&?&?&?&_). congruence.
Qed.

(** X5.  The lists the page hands to the transforms have one entry per
    channel, in channel order, entry [c] being what the widget of channel
    [c] returned.  So with colour strings as the picker returns them and
    percentiles within [0,100], on a live non-empty 4-D image with at
    least one channel the colour parsing and the two transforms raise
    nothing and return a stack of shape (Z, X, Y, 3). *)
Theorem page_transforms_ok h img Z C X Y checkbox color_picker slider :
  is_Some (h !! base img) →
  shape img = [Z; C; X; Y] →
  0 < Z → 0 < C → 0 < X → 0 < Y →
  (∀ c, c < C → is_hex_color (color_picker c) = true) →
  (∀ c, c < C → valid_percent (slider c).1 ∧ valid_percent (slider c).2) →
  collect_choices checkbox color_picker C
    = (checkbox <$> seq 0 C, color_picker <$> seq 0 C) ∧
  collect_percentiles slider C = slider <$> seq 0 C ∧
  ∃ m h' rgb_stack,
    page_transforms img C checkbox color_picker slider = Some m ∧
    m h = (h', Ok rgb_stack) ∧
    shape rgb_stack = [Z; X; Y; 3].
Proof.
  intros Hlive Hs HZ HC HX HY Hcol Hperc.
  split; [apply collect_choices_fmap|]. split; [apply collect_percentiles_fmap|].
  unfold page_transforms.
  rewrite collect_choices_fmap, collect_percentiles_fmap.
  destruct (parse_colors_ok (color_picker <$> seq 0 C)) as (colors & -> & Hlc).
  { apply Forall_fmap, Forall_forall. intros c Hc. apply elem_of_seq in Hc.
    apply Hcol. lia. }
  rewrite length_fmap, length_seq in Hlc. simpl.
  destruct (normalize_then_render_run h img Z C X Y (slider <$> seq 0 C)
              colors (checkbox <$> seq 0 C))
    as (h1 & norm_img & h' & rgb_stack & Enorm & _ & Erender & Hsr); try done.
  { by rewrite length_fmap, length_seq. }
  { by rewrite length_fmap, length_seq. }
  { apply Forall_fmap, Forall_forall. intros c Hc. apply elem_of_seq in Hc.
    apply Hperc. lia. }
  eexists _, h', rgb_stack. split; [reflexivity|]. split; [|done].
  by rewrite (bind_ok _ _ _ _ _ Enorm).
Qed.

(** The page in its initial state: every box ticked, the default
    colours, the slider at (1, 99). *)
Lemma page_transforms_ok_witness :
  ∃ m h' rgb_stack,
    page_transforms demo_volume 2 (λ _, true)
      (λ c, default EmptyString (default_colors !! (c mod 9)))
      (λ _, (1, 99)%Q) = Some m ∧
    m demo_store = (h', Ok rgb_stack) ∧ shape rgb_stack = [2; 2; 1; 3].
Proof.
  destruct (page_transforms_ok demo_store demo_volume 2 2 2 1 (λ _, true)
              (λ c, default EmptyString (default_colors !! (c mod 9)))
              (λ _, (1, 99)%Q))
    as (_ & _ & m & h' & rgb_stack & Em & Erun & Hshape).
  - eexists. reflexivity.
  - reflexivity.
  - lia.
  - lia.
  - lia.
  - lia.
  - intros [|[|c]] Hc; [reflexivity|reflexivity|lia].
  - intros c _. simpl. unfold valid_percent. lra.
  - exists m, h', rgb_stack. split; [exact Em|]. split; [exact Erun|exact Hshape].
Defined.

(** ** Arrays of another rank, empty loops *)

Lemma unpack4_Raise shp : length shp ≠ 4 → unpack4 shp = Raise ValueError.
Proof.
  destruct shp as [|? [|? [|? [|? [|]]]]]; simpl; intros; done.
Qed.

(** X6.  Called on an array that is not 4-D, both transforms raise
    [ValueError] at the unpacking of the shape, before anything is
    allocated: the store is left as it was. *)
Theorem transforms_reject_other_ranks h volume percentiles colors visibility :
  ndim volume ≠ 4 →
  normalize_channels_with_percentiles volume percentiles h
    = (h, Raise ValueError) ∧
  multichannel_to_rgb_stack volume colors visibility h
    = (h, Raise ValueError).
Proof.
  intros Hn. unfold ndim in Hn.
  unfold normalize_channels_with_percentiles, multichannel_to_rgb_stack.
  by rewrite (unpack4_Raise _ Hn).
Qed.

Lemma transforms_reject_other_ranks_witness :
  normalize_channels_with_percentiles
    {| base := 0; shape := [2; 2; 2]; imap := id |} demo_percentiles demo_store
  = (demo_store, Raise ValueError).
Proof.
  apply (transforms_reject_other_ranks demo_store
           {| base := 0; shape := [2; 2; 2]; imap := id |}
           demo_percentiles demo_red [true; true]).
  unfold ndim. simpl. lia.
Defined.

(** X7.  The compositing of an empty stack, and with no colours.  With
    Z = 0 the slice loop does not run: an empty stack is returned whatever
    the colour and visibility lists are, also when their lengths do not
    fit.  With an empty colour list the channel loop does not run: every
    sample of the stack is 0, whatever the volume and the flags are. *)
Theorem render_empty_loops h volume Z C X Y colors visibility :
  is_Some (h !! base volume) →
  shape volume = [Z; C; X; Y] →
  (Z = 0 →
     multichannel_to_rgb_stack volume colors visibility h
       = (<[fresh (dom h) := zero_block]> h,
          Ok {| base := fresh (dom h); shape := [0; X; Y; 3]; imap := id |})) ∧
  (∃ h' out,
     multichannel_to_rgb_stack volume [] visibility h = (h', Ok out) ∧
     shape out = [Z; X; Y; 3] ∧
     ∀ z x y k, z < Z → x < X → y < Y → k < 3 →
       load h' out [z; x; y; k] = 0%Q).
Proof.
  intros Hlive Hs. split.
  - intros ->. unfold multichannel_to_rgb_stack. by rewrite Hs.
  - destruct (render_run h volume Z C X Y [] visibility Hlive Hs)
      as (buf & Erun & Hbuf).
    { simpl. intros; lia. }
    eexists _, _. split; [exact Erun|]. split; [done|].
    intros z x y k Hz Hx Hy Hk. rewrite load_insert_eq by done. simpl.
    by rewrite Hbuf.
Qed.

Lemma render_empty_loops_witness :
  multichannel_to_rgb_stack {| base := 1; shape := [0; 2; 1; 1]; imap := id |}
    demo_red [] demo_store
  = (<[fresh (dom demo_store) := zero_block]> demo_store,
     Ok {| base := fresh (dom demo_store); shape := [0; 1; 1; 3]; imap := id |})
  ∧ ∃ h' out,
      multichannel_to_rgb_stack demo_norm [] [true] demo_store = (h', Ok out) ∧
      load h' out [0; 0; 0; 0] = 0%Q.
Proof.
  split.
  - apply (render_empty_loops demo_store
             {| base := 1; shape := [0; 2; 1; 1]; imap := id |} 0 2 1 1
             demo_red []).
    + eexists. reflexivity.
    + reflexivity.
    + reflexivity.
  - destruct (render_empty_loops demo_store demo_norm 1 2 1 1 demo_red [true])
      as (_ & h' & out & E & _ & Hzero).
    + eexists. reflexivity.
    + reflexivity.
    + exists h', out. split; [exact E|]. apply Hzero; lia.
Defined.

(** X8.  The compositing works pixel by pixel: the sample [z, x, y, k] of
    the stack is determined by the values the visible channels have at the
    pixel [z, x, y].  Two volumes that agree there give the same sample,
    whatever they hold at other pixels and slices. *)
Theorem render_pixel_local h1 h2 vol1 vol2 Z C X Y colors visibility z x y :
  is_Some (h1 !! base vol1) →
  is_Some (h2 !! base vol2) →
  shape vol1 = [Z; C; X; Y] →
  shape vol2 = [Z; C; X; Y] →
  length colors = C → length visibility = C →
  z < Z → x < X → y < Y →
  (∀ c, visibility !! c = Some true →
     load h1 vol1 [z; c; x; y] = load h2 vol2 [z; c; x; y]) →
  ∃ h1' h2' out1 out2,
    multichannel_to_rgb_stack vol1 colors visibility h1 = (h1', Ok out1) ∧
    multichannel_to_rgb_stack vol2 colors visibility h2 = (h2', Ok out2) ∧
    ∀ k, k < 3 → load h1' out1 [z; x; y; k] = load h2' out2 [z; x; y; k].
Proof.
  intros Hl1 Hl2 Hs1 Hs2 Hlc Hlv Hz Hx Hy Hagree.
  destruct (render_run h1 vol1 Z C X Y colors visibility Hl1 Hs1)
    as (buf1 & E1 & Hbuf1); [apply visibility_defined; lia|].
  destruct (render_run h2 vol2 Z C X Y colors visibility Hl2 Hs2)
    as (buf2 & E2 & Hbuf2); [apply visibility_defined; lia|].
  eexists _, _, _, _. split; [exact E1|]. split; [exact E2|].
  intros k Hk. rewrite !load_insert_eq by done. simpl.
  rewrite Hbuf1, Hbuf2 by done. f_equal.
  apply blend_agree; [done|]. intros c _ Hvis. split; [done|].
  apply Hagree. unfold is_visible in Hvis.
  by destruct (visibility !! c) as [[|]|].
Qed.

(** Two volumes that agree on the visible channel at the pixel (0, 0, 0)
    and differ everywhere else, the hidden channel at that pixel included. *)
Lemma render_pixel_local_witness :
  let other : list nat → Q := λ idx,
    match idx with
    | [0; 0; 0; 0] => demo_block idx
    | _ => (demo_block idx + 1)%Q
    end in
  ∃ h1' h2' out1 out2,
    multichannel_to_rgb_stack demo_volume demo_red [true; false] demo_store
      = (h1', Ok out1) ∧
    multichannel_to_rgb_stack demo_volume demo_red [true; false]
      {[ 0 := other ]} = (h2', Ok out2) ∧
    load demo_store demo_volume [0; 1; 0; 0]
      ≠ load {[ 0 := other ]} demo_volume [0; 1; 0; 0] ∧
    load demo_store demo_volume [1; 0; 1; 0]
      ≠ load {[ 0 := other ]} demo_volume [1; 0; 1; 0] ∧
    load h1' out1 [0; 0; 0; 0] = load h2' out2 [0; 0; 0; 0].
Proof.
  intros other.
  destruct (render_pixel_local demo_store {[ 0 := other ]}
              demo_volume demo_volume 2 2 2 1 demo_red [true; false] 0 0 0)
    as (h1' & h2' & out1 & out2 & E1 & E2 & Hsame).
  - eexists. reflexivity.
  - eexists. reflexivity.
  - reflexivity.
  - reflexivity.
  - reflexivity.
  - reflexivity.
  - lia.
  - lia.
  - lia.
  - intros [|[|c]] Hc; [reflexivity|discriminate Hc|discriminate Hc].
  - exists h1', h2', out1, out2. split; [exact E1|]. split; [exact E2|].
    split; [vm_compute; discriminate|]. split; [vm_compute; discriminate|].
    apply Hsame. lia.
Defined.

(** X9.  [hex_to_rgb_floats] reads the characters at positions 1 to 6
    only: the character in front is not compared with ["#"], and whatever
    follows the sixth digit is ignored. *)
Theorem hex_to_rgb_floats_positions c0 a1 a2 a3 a4 a5 a6 rest :
  hex_to_rgb_floats
    (String c0 (String a1 (String a2 (String a3 (String a4 (String a5
       (String a6 rest)))))))
  = hex_to_rgb_floats
      (String "#" (String a1 (String a2 (String a3 (String a4 (String a5
         (String a6 EmptyString))))))).
Proof. unfold hex_to_rgb_floats, slice2. by destruct rest. Qed.

(** X10.  The pipeline writes into no block that existed before the
    call, whether the image is 4-D, a 5-D view, or refused, and whether
    the run returns or raises: the image holds the same samples afterwards.
    The stack it returns is on a block allocated during the run. *)
Theorem pipeline_leaves_store h img percentiles colors visibility :
  let run := run_pipeline img percentiles colors visibility h in
  (∀ l, is_Some (h !! l) → run.1 !! l = h !! l) ∧
  (is_Some (h !! base img) → ∀ idx, load run.1 img idx = load h img idx) ∧
  (∀ out, run.2 = Ok out → h !! base out = None ∧ is_Some (run.1 !! base out)).
Proof.
  intros run.
  assert ((∀ l, is_Some (h !! l) → run.1 !! l = h !! l) ∧
          (∀ out, run.2 = Ok out →
             h !! base out = None ∧ is_Some (run.1 !! base out)))
    as [Hframe Hout].
  { subst run. unfold run_pipeline.
    destruct (resolve_shape img) as [v|e]; [|by split].
    rewrite (bind_lift_ok _ _ _ _ eq_refl), bind_run.
    destruct (normalize_footprint v percentiles h) as [Hf1 Ho1].
    destruct (normalize_channels_with_percentiles v percentiles h)
      as [h1 [nv|e]]; simpl in *.
    2:{ split; [|done]. intros l Hl. apply Hf1. by apply fresh_ne. }
    assert (∀ l, is_Some (h !! l) → h1 !! l = h !! l) as Hkeep.
    { intros l Hl. apply Hf1. by apply fresh_ne. }
    destruct (render_footprint nv colors visibility h1) as [Hf2 Ho2].
    destruct (multichannel_to_rgb_stack nv colors visibility h1) as [h2 r].
    simpl in *. split.
    - intros l Hl. rewrite <- (Hkeep l Hl). apply Hf2, fresh_ne.
      by rewrite (Hkeep l Hl).
    - intros out ->. destruct (Ho2 out eq_refl) as (-> & _ & Hs).
      split; [|done]. destruct (h !! fresh (dom h1)) eqn:E; [|done].
      exfalso. apply (fresh_ne h1 (fresh (dom h1))); [|done].
      rewrite Hkeep; by rewrite E. }
  split; [done|]. split; [|done].
  intros Hl idx. unfold load, deref. by rewrite Hframe.
Qed.

(** ** The order of the samples *)

(** X11.  Within a channel whose window is not degenerate and whose range
    does not overflow, the normalisation keeps the order of the samples,
    in floating point as well: a sample that is not larger in the input is
    not larger in the output. *)
Theorem normalize_monotone (F : format) (ch : list fp) (vmin vmax : Q) :
  valid_format F →
  is_float F vmin → is_float F vmax →
  fltb (Fin vmin) (Fin vmax) = true →
  fsub F (Fin vmax) (Fin vmin) ≠ Inf false →
  let out := normalize_samples F ch (Fin vmin) (Fin vmax) in
  ∀ i j v w, ch !! i = Some v → ch !! j = Some w → fle v w →
    ∃ y z, out !! i = Some (Fin y) ∧ out !! j = Some (Fin z) ∧ (y <= z)%Q.
Proof.
  intros HF Hmin Hmax Hlt Hfin out i j v w Hi Hj Hvw.
  pose proof Hlt as Hlt'. simpl in Hlt'. apply Qltb_lt in Hlt'.
  destruct (fsub_pos F HF vmin vmax Hmin Hmax Hlt') as [E|(d & Ed & Hd)];
    [done|].
  subst out. unfold normalize_samples. rewrite Hlt.
  rewrite !list_lookup_fmap, Hi, Hj. simpl.
  pose proof (normalize_sample_mono F HF vmin vmax d Ed Hd v w Hvw) as Hm.
  destruct (normalize_sample_unit F HF vmin vmax d Ed Hd v) as (y & Ey & _);
    [by destruct v, w|].
  destruct (normalize_sample_unit F HF vmin vmax d Ed Hd w) as (z & Ez & _);
    [by destruct v as [?|[]|], w as [?|[]|]|].
  rewrite Ey, Ez in *. by exists y, z.
Qed.

Lemma normalize_monotone_witness :
  ∃ y z,
    normalize_samples binary32 [Fin 0; Fin 10; Fin 20; Fin 30] (Fin 0) (Fin 30)
      !! 1 = Some (Fin y) ∧
    normalize_samples binary32 [Fin 0; Fin 10; Fin 20; Fin 30] (Fin 0) (Fin 30)
      !! 2 = Some (Fin z) ∧
    (y <= z)%Q.
Proof.
  apply (normalize_monotone binary32 [Fin 0; Fin 10; Fin 20; Fin 30] 0 30)
    with (v := Fin 10) (w := Fin 20).
  - split; simpl; lia.
  - vm_compute. reflexivity.
  - vm_compute. reflexivity.
  - reflexivity.
  - vm_compute. discriminate.
  - reflexivity.
  - reflexivity.
  - vm_compute. discriminate.
Defined.

(** ** One channel at a time *)

(** X12.  The channels are normalised independently: the output of
    channel [c] is determined by the samples of channel [c] and its own
    percentile pair.  Two volumes that agree on channel [c], with lists
    that agree at [c], give the same channel [c], whatever the other
    channels, their number and their percentiles are. *)
Theorem normalize_channel_independent h1 h2 vol1 vol2 Z C1 C2 X Y
    percentiles1 percentiles2 c :
  is_Some (h1 !! base vol1) →
  is_Some (h2 !! base vol2) →
  shape vol1 = [Z; C1; X; Y] →
  shape vol2 = [Z; C2; X; Y] →
  0 < Z → 0 < X → 0 < Y →
  length percentiles1 = C1 → length percentiles2 = C2 →
  Forall (λ p, valid_percent p.1 ∧ valid_percent p.2) percentiles1 →
  Forall (λ p, valid_percent p.1 ∧ valid_percent p.2) percentiles2 →
  c < C1 → c < C2 →
  percentiles1 !! c = percentiles2 !! c →
  (∀ z x y, z < Z → x < X → y < Y →
     load h1 vol1 [z; c; x; y] = load h2 vol2 [z; c; x; y]) →
  ∃ h1' h2' out1 out2,
    normalize_channels_with_percentiles vol1 percentiles1 h1 = (h1', Ok out1) ∧
    normalize_channels_with_percentiles vol2 percentiles2 h2 = (h2', Ok out2) ∧
    ∀ z x y, z < Z → x < X → y < Y →
      load h1' out1 [z; c; x; y] = load h2' out2 [z; c; x; y].
Proof.
  intros Hl1 Hl2 Hs1 Hs2 HZ HX HY Hlen1 Hlen2 Hv1 Hv2 Hc1 Hc2 Hp Hdata.
  pose proof (percentiles_defined h1 vol1 Z C1 X Y percentiles1 Hs1 HZ HX HY
                ltac:(lia) Hv1) as Hdef1.
  pose proof (percentiles_defined h2 vol2 Z C2 X Y percentiles2 Hs2 HZ HX HY
                ltac:(lia) Hv2) as Hdef2.
  destruct (normalize_run h1 vol1 Z C1 X Y percentiles1 Hl1 Hs1 Hdef1)
    as (buf1 & E1 & Hbuf1).
  destruct (normalize_run h2 vol2 Z C2 X Y percentiles2 Hl2 Hs2 Hdef2)
    as (buf2 & E2 & Hbuf2).
  eexists _, _, _, _. split; [exact E1|]. split; [exact E2|].
  intros z x y Hz Hx Hy. rewrite !load_insert_eq by done. simpl.
  destruct (Hdef1 c Hc1) as (lo & hi & ch1 & vmin & vmax & Hp1 & Hch1 & Hmin1 & Hmax1).
  destruct (Hdef2 c Hc2) as (lo' & hi' & ch2 & vmin' & vmax' & Hp2 & Hch2 & Hmin2 & Hmax2).
  rewrite Hp1, Hp2 in Hp. injection Hp as -> ->.
  assert (ravel h1 ch1 = ravel h2 ch2) as Hravel.
  { assert (shape ch1 = [Z; X; Y] ∧ shape ch2 = [Z; X; Y]) as [Hsh1 Hsh2].
    { destruct (slice_axis1_ok vol1 Z C1 [X; Y] c Hs1 Hc1) as (? & ? & ?).
      destruct (slice_axis1_ok vol2 Z C2 [X; Y] c Hs2 Hc2) as (? & ? & ?).
      split; congruence. }
    unfold ravel. rewrite Hsh1, Hsh2. apply list_fmap_ext.
    intros i idx Hidx. apply list_elem_of_lookup_2 in Hidx.
    pose proof (indices_length _ _ Hidx) as Hlen.
    destruct idx as [|z0 [|x0 [|y0 [|]]]]; try discriminate Hlen.
    apply elem_of_indices_3 in Hidx as (?&?&?).
    rewrite (slice_axis1_load _ _ _ _ _ _ Hch1),
            (slice_axis1_load _ _ _ _ _ _ Hch2).
    by apply Hdata. }
  rewrite Hravel in Hmin1, Hmax1.
  rewrite Hmin1 in Hmin2. rewrite Hmax1 in Hmax2.
  injection Hmin2 as ->. injection Hmax2 as ->.
  rewrite <- Hravel in Hmin1, Hmax1.
  rewrite (Hbuf1 c lo' hi' ch1 vmin' vmax' Hc1 Hp1 Hch1 Hmin1 Hmax1 z x y Hz Hx Hy).
  rewrite Hravel in Hmin1, Hmax1.
  rewrite (Hbuf2 c lo' hi' ch2 vmin' vmax' Hc2 Hp2 Hch2 Hmin1 Hmax1 z x y Hz Hx Hy).
  by rewrite Hdata.
Qed.

Lemma normalize_channel_independent_witness :
  ∃ h1' h2' out1 out2,
    normalize_channels_with_percentiles demo_volume demo_percentiles demo_store
      = (h1', Ok out1) ∧
    normalize_channels_with_percentiles demo_volume [(0, 100); (30, 60)]%Q
      demo_store = (h2', Ok out2) ∧
    load h1' out1 [1; 0; 1; 0] = load h2' out2 [1; 0; 1; 0].
Proof.
  destruct (normalize_channel_independent demo_store demo_store
              demo_volume demo_volume 2 2 2 2 1
              demo_percentiles [(0, 100); (30, 60)]%Q 0)
    as (h1' & h2' & out1 & out2 & E1 & E2 & Hsame).
  - eexists. reflexivity.
  - eexists. reflexivity.
  - reflexivity.
  - reflexivity.
  - lia.
  - lia.
  - lia.
  - reflexivity.
  - reflexivity.
  - exact demo_percentiles_valid.
  - repeat constructor; simpl; lra.
  - lia.
  - lia.
  - reflexivity.
  - intros. reflexivity.
  - exists h1', h2', out1, out2. split; [exact E1|]. split; [exact E2|].
    apply Hsame; lia.
Defined.

(** ** Percentiles outside [0, 100] *)





(** ** Showing more channels *)

Lemma component_nonneg (col : Q * Q * Q) k :
  (0 <= col.1.1)%Q → (0 <= col.1.2)%Q → (0 <= col.2)%Q →
  (0 <= component col k)%Q.
Proof.
  destruct col as [[r g] b]. simpl. intros Hr Hg Hb.
  by destruct k as [|[|k]].
Qed.

Lemma blend_step_fold_mono (vol : nat → Q) vis1 vis2 k (s : nat)
    (l : list (Q * Q * Q)) acc1 acc2 :
  (∀ c, is_visible vis1 c = true → is_visible vis2 c = true) →
  (∀ i col, l !! i = Some col →
     Qle 0 (vol (s + i)) ∧ Qle 0 (component col k)) →
  (acc1 <= acc2)%Q →
  (fold_left (blend_step vol vis1 k) (zip (seq s (length l)) l) acc1
   <= fold_left (blend_step vol vis2 k) (zip (seq s (length l)) l) acc2)%Q.
Proof.
  intros Hsub. revert s acc1 acc2.
  induction l as [|col l IH]; intros s acc1 acc2 Hpos Hacc; simpl; [done|].
  apply IH.
  - intros i col' Hi. replace (S s + i) with (s + S i) by lia.
    by apply (Hpos (S i)).
  - destruct (Hpos 0 col eq_refl) as [Hv Hc]. rewrite Nat.add_0_r in Hv.
    unfold blend_step. simpl.
    destruct (is_visible vis1 s) eqn:E1.
    + rewrite (Hsub s E1). nra.
    + destruct (is_visible vis2 s); [nra|done].
Qed.

(** X15.  Ticking further channels never darkens the picture: on a volume
    without negative samples (such as a normalised one) and with colour
    components that are not negative, every sample of the stack rendered
    with more visible channels is at least the sample rendered with
    fewer. *)
Theorem render_more_channels_brighter h volume Z C X Y colors vis1 vis2 :
  is_Some (h !! base volume) →
  shape volume = [Z; C; X; Y] →
  length colors = C → length vis1 = C → length vis2 = C →
  (∀ z c x y, z < Z → c < C → x < X → y < Y →
     (0 <= load h volume [z; c; x; y])%Q) →
  Forall (λ col : Q * Q * Q,
            (0 <= col.1.1)%Q ∧ (0 <= col.1.2)%Q ∧ (0 <= col.2)%Q) colors →
  (∀ c, vis1 !! c = Some true → vis2 !! c = Some true) →
  ∃ h1 out1 h2 out2,
    multichannel_to_rgb_stack volume colors vis1 h = (h1, Ok out1) ∧
    multichannel_to_rgb_stack volume colors vis2 h = (h2, Ok out2) ∧
    ∀ z x y k, z < Z → x < X → y < Y → k < 3 →
      (load h1 out1 [z; x; y; k] <= load h2 out2 [z; x; y; k])%Q.
Proof.
  intros Hlive Hs Hlc Hl1 Hl2 Hvol Hcol Hsub.
  destruct (render_run h volume Z C X Y colors vis1 Hlive Hs)
    as (buf1 & E1 & Hbuf1); [apply visibility_defined; lia|].
  destruct (render_run h volume Z C X Y colors vis2 Hlive Hs)
    as (buf2 & E2 & Hbuf2); [apply visibility_defined; lia|].
  eexists _, _, _, _. split; [exact E1|]. split; [exact E2|].
  intros z x y k Hz Hx Hy Hk. rewrite !load_insert_eq by done. simpl.
  rewrite Hbuf1, Hbuf2 by done. apply np_clip_mono.
  unfold blend, enumerate. apply blend_step_fold_mono; [| |lra].
  - intros c. unfold is_visible. specialize (Hsub c).
    destruct (vis1 !! c) as [[|]|]; simpl; try done.
    intros _. by rewrite Hsub.
  - intros i col Hi. simpl. split.
    + apply Hvol; try done. apply lookup_lt_Some in Hi. lia.
    + rewrite Forall_lookup in Hcol. destruct (Hcol i col Hi) as (?&?&?).
      by apply component_nonneg.
Qed.

Lemma render_more_channels_brighter_witness :
  ∃ h1 out1 h2 out2,
    multichannel_to_rgb_stack demo_norm demo_red [true; false] demo_store
      = (h1, Ok out1) ∧
    multichannel_to_rgb_stack demo_norm demo_red [true; true] demo_store
      = (h2, Ok out2) ∧
    Qle (load h1 out1 [0; 0; 0; 0]) (load h2 out2 [0; 0; 0; 0]).
Proof.
  destruct (render_more_channels_brighter demo_store demo_norm 1 2 1 1
              demo_red [true; false] [true; true])
    as (h1 & out1 & h2 & out2 & E1 & E2 & Hle).
  - eexists. reflexivity.
  - reflexivity.
  - reflexivity.
  - reflexivity.
  - reflexivity.
  - intros z c x y Hz Hc Hx Hy.
    assert (z = 0) as -> by lia. assert (x = 0) as -> by lia.
    assert (y = 0) as -> by lia.
    destruct c as [|[|c]]; [by vm_compute..|lia].
  - unfold demo_red. repeat constructor; simpl; unfold Qle; simpl; lia.
  - intros [|[|c]] Hc; simpl in *; done.
  - exists h1, out1, h2, out2. split; [exact E1|]. split; [exact E2|].
    apply Hle; lia.
Defined.
